(** * DoctorConnect, static/js/base.js: a shallow embedding and its properties

    The script wires independent listeners (scroll, click, submit, input,
    intersection, animation frame) onto the page.  Each listener is embedded
    as a function on the part of the page it touches:

    - strings are sequences of UTF-16 code units, as in JavaScript;
    - the two regular expressions of [validateField] are regex terms run by
      a derivative matcher;
    - the DOM under a form is a tree of elements with node identities, and
      the validation code runs in a small state-and-exception monad over it;
    - timers ([setTimeout]) are a queue of tasks on a logical clock in
      milliseconds;
    - scroll offsets are rationals; the numbers of the counter animation
      are finite IEEE 754 doubles, each represented by the rational it
      denotes, and every arithmetic operation on them is rounded.  *)

From Stdlib Require Import List String Ascii Bool Arith NArith ZArith QArith Qround Qpower Lia Lqa DecimalString Sorted SpecFloat.
Import ListNotations.

Set Implicit Arguments.
Set Warnings "-register-all".
Close Scope Q_scope.
Open Scope nat_scope.

(* ================================================================== *)
(** * Part I. The embedding *)
(* ================================================================== *)

(** ** JavaScript strings *)

(** A JavaScript string is a sequence of UTF-16 code units. *)
Definition jsstring := list N.

(** String literals of the source are ASCII. *)
Definition js (s : string) : jsstring :=
  map N_of_ascii (list_ascii_of_string s).

(** ECMAScript WhiteSpace and LineTerminator code points: what [\s] matches
    and what [String.prototype.trim] strips. *)
Definition isWhiteSpace (c : N) : bool :=
  ((9 <=? c) && (c <=? 13)            (* TAB LF VT FF CR *)
   || (c =? 32) || (c =? 160)         (* SPACE, NBSP *)
   || (c =? 5760)                     (* U+1680 *)
   || ((8192 <=? c) && (c <=? 8202))  (* U+2000..U+200A *)
   || (c =? 8232) || (c =? 8233)      (* U+2028, U+2029 *)
   || (c =? 8239) || (c =? 8287)      (* U+202F, U+205F *)
   || (c =? 12288) || (c =? 65279))%N (* U+3000, U+FEFF *).

(** [\d] without the unicode flag: the ASCII digits. *)
Definition isDigit (c : N) : bool := ((48 <=? c) && (c <=? 57))%N.

Fixpoint dropWhile (p : N -> bool) (s : jsstring) : jsstring :=
  match s with
  | [] => []
  | c :: r => if p c then dropWhile p r else s
  end.

(** [s.trim()] *)
Definition trim (s : jsstring) : jsstring :=
  rev (dropWhile isWhiteSpace (rev (dropWhile isWhiteSpace s))).

(** Truthiness of a string: the empty string is falsy. *)
Definition truthy (s : jsstring) : bool :=
  match s with [] => false | _ :: _ => true end.

(** [s.replace(/[...]/g, '')] for a one-character class: every code unit
    of the class is deleted. *)
Definition replaceAllClass (cls : N -> bool) (s : jsstring) : jsstring :=
  filter (fun c => negb (cls c)) s.

(** ** Regular expressions *)

Inductive regex : Type :=
| Void : regex
| Eps : regex
| Class : (N -> bool) -> regex
| Seq : regex -> regex -> regex
| Alt : regex -> regex -> regex
| Star : regex -> regex.

(** [r+], [r?] and [r{0,n}] *)
Definition Plus (r : regex) : regex := Seq r (Star r).
Definition Opt (r : regex) : regex := Alt Eps r.
Fixpoint UpTo (n : nat) (r : regex) : regex :=
  match n with
  | O => Eps
  | S k => Opt (Seq r (UpTo k r))
  end.

Fixpoint nullable (r : regex) : bool :=
  match r with
  | Void => false
  | Eps => true
  | Class _ => false
  | Seq a b => nullable a && nullable b
  | Alt a b => nullable a || nullable b
  | Star _ => true
  end.

Fixpoint deriv (c : N) (r : regex) : regex :=
  match r with
  | Void => Void
  | Eps => Void
  | Class p => if p c then Eps else Void
  | Seq a b =>
      if nullable a then Alt (Seq (deriv c a) b) (deriv c b)
      else Seq (deriv c a) b
  | Alt a b => Alt (deriv c a) (deriv c b)
  | Star a => Seq (deriv c a) (Star a)
  end.

Fixpoint matches (r : regex) (s : jsstring) : bool :=
  match s with
  | [] => nullable r
  | c :: s' => matches (deriv c r) s'
  end.

(** [/^body$/.test(s)]: with both anchors and no flags the whole string
    has to be in the language of the body. *)
Definition test (body : regex) (s : jsstring) : bool := matches body s.

Definition chr (a : ascii) : N -> bool := fun c => (c =? N_of_ascii a)%N.

(** [[^\s@]] *)
Definition notSpaceAt (c : N) : bool :=
  negb (isWhiteSpace c || chr "@" c).

(** [/^[^\s@]+@[^\s@]+\.[^\s@]+$/] *)
Definition emailRegex : regex :=
  Seq (Plus (Class notSpaceAt))
      (Seq (Class (chr "@"))
           (Seq (Plus (Class notSpaceAt))
                (Seq (Class (chr "."))
                     (Plus (Class notSpaceAt))))).

(** [[1-9]] *)
Definition isDigit19 (c : N) : bool := ((49 <=? c) && (c <=? 57))%N.

(** [/^[\+]?[1-9][\d]{0,15}$/] *)
Definition phoneRegex : regex :=
  Seq (Opt (Class (chr "+")))
      (Seq (Class isDigit19) (UpTo 15 (Class isDigit))).

(** [[\s\-\(\)]] *)
Definition phoneSeparator (c : N) : bool :=
  isWhiteSpace c || chr "-" c || chr "(" c || chr ")" c.

(** The language of a regex, declaratively. *)
Inductive Lang : regex -> jsstring -> Prop :=
| LEps : Lang Eps []
| LClass p c : p c = true -> Lang (Class p) [c]
| LSeq a b s1 s2 : Lang a s1 -> Lang b s2 -> Lang (Seq a b) (s1 ++ s2)
| LAltL a b s : Lang a s -> Lang (Alt a b) s
| LAltR a b s : Lang b s -> Lang (Alt a b) s
| LStar0 a : Lang (Star a) []
| LStarS a s1 s2 : Lang a s1 -> Lang (Star a) s2 -> Lang (Star a) (s1 ++ s2).

(** ** The DOM below a form *)

(** The properties of an element that the script reads or writes. *)
Record Elem : Type := mkElem {
  nid : nat;                 (* identity of the node *)
  tagName : string;
  classList : list string;
  type_ : string;            (* [el.type] *)
  required : bool;           (* [el.hasAttribute('required')] *)
  value : jsstring;
  defaultValue : jsstring;
  textContent : string;      (* text or markup set by the script *)
  cssText : string           (* [el.style.cssText] *)
}.

Inductive Node : Type :=
| El : Elem -> list Node -> Node.

Definition elemOf (n : Node) : Elem := match n with El e _ => e end.
Definition kidsOf (n : Node) : list Node := match n with El _ ks => ks end.

(** [DOMTokenList]: [contains], [add], [remove]. *)
Definition contains (c : string) (l : list string) : bool :=
  existsb (String.eqb c) l.
Definition add (c : string) (l : list string) : list string :=
  if contains c l then l else l ++ [c].
Definition remove (c : string) (l : list string) : list string :=
  filter (fun x => negb (String.eqb c x)) l.

Definition withClassList (f : list string -> list string) (e : Elem) : Elem :=
  mkElem (nid e) (tagName e) (f (classList e)) (type_ e) (required e)
         (value e) (defaultValue e) (textContent e) (cssText e).

(** Selectors used by the script, as predicates on one element. *)
Definition selector := Elem -> bool.
Definition selClass (c : string) : selector := fun e => contains c (classList e).
(** ['input, select, textarea'] *)
Definition selFields : selector := fun e =>
  (tagName e =? "input")%string || (tagName e =? "select")%string
  || (tagName e =? "textarea")%string.
Definition hasId (r : nat) : selector := fun e => nid e =? r.

(** Elements of a subtree in document order. *)
Fixpoint elems (n : Node) : list Elem :=
  match n with El e ks => e :: flat_map elems ks end.
Definition descendants (n : Node) : list Elem := flat_map elems (kidsOf n).
Definition ids (n : Node) : list nat := map nid (elems n).

(** Apply [h] to every element: the shape of the tree is unchanged. *)
Fixpoint mapElems (h : Elem -> Elem) (n : Node) : Node :=
  match n with El e ks => El (h e) (map (mapElems h) ks) end.

(** A node is referred to either by its identity (a reference the script
    holds for long: a field, [this]) or by its position under the root (a
    reference used at once: [field.parentElement], the result of
    [querySelector]). *)
Definition path := list nat.

Fixpoint subtree (p : path) (n : Node) : option Node :=
  match p with
  | [] => Some n
  | i :: p' =>
      match nth_error (kidsOf n) i with
      | Some k => subtree p' k
      | None => None
      end
  end.

Fixpoint updateNth (A : Type) (i : nat) (f : A -> A) (l : list A) : list A :=
  match l, i with
  | [], _ => []
  | x :: r, O => f x :: r
  | x :: r, S j => x :: updateNth j f r
  end.

Fixpoint dropNth (A : Type) (i : nat) (l : list A) : list A :=
  match l, i with
  | [], _ => []
  | _ :: r, O => r
  | x :: r, S j => x :: dropNth j r
  end.

Fixpoint modifyAt (p : path) (g : Node -> Node) (n : Node) : Node :=
  match p with
  | [] => g n
  | i :: p' => El (elemOf n) (updateNth i (modifyAt p' g) (kidsOf n))
  end.

(** [node.remove()] for the node at [p]; the root has no parent to be
    removed from. *)
Fixpoint removeAt (p : path) (n : Node) : Node :=
  match p with
  | [] => n
  | [i] => El (elemOf n) (dropNth i (kidsOf n))
  | i :: p' => El (elemOf n) (updateNth i (removeAt p') (kidsOf n))
  end.

Definition bump (p : path) : path :=
  match p with [] => [] | i :: r => S i :: r end.

(** First node of a forest, in document order, that matches. *)
Definition findInKids (find : Node -> option path) : list Node -> option path :=
  fix go (ks : list Node) : option path :=
    match ks with
    | [] => None
    | k :: r =>
        match find k with
        | Some p => Some (0 :: p)
        | None => option_map bump (go r)
        end
    end.

Fixpoint findPath (sel : selector) (n : Node) : option path :=
  match n with
  | El e ks => if sel e then Some [] else findInKids (findPath sel) ks
  end.

(** [el.querySelector(sel)]: the first proper descendant that matches. *)
Definition findBelow (sel : selector) (n : Node) : option path :=
  findInKids (findPath sel) (kidsOf n).

(** ** Completions and the DOM monad *)

Inductive exn : Type :=
| TypeError : string -> exn.

Inductive completion (A : Type) : Type :=
| Ok : A -> completion A
| Throw : exn -> completion A.
Arguments Ok {A} _.
Arguments Throw {A} _.

(** The document state the validation code works on: the tree of the form
    and the supply of identities for [document.createElement]. *)
Record Doc : Type := mkDoc { tree : Node; nextId : nat }.

(** A computation returns normally or throws; what it changed before it
    threw stays changed. *)
Definition M (A : Type) : Type := Doc -> completion A * Doc.

Definition ret (A : Type) (a : A) : M A := fun d => (Ok a, d).
Definition bind (A B : Type) (m : M A) (k : A -> M B) : M B :=
  fun d => match m d with
           | (Ok a, d') => k a d'
           | (Throw x, d') => (Throw x, d')
           end.
Definition throw (A : Type) (x : exn) : M A := fun d => (Throw x, d).
Arguments throw {A} _.

Declare Scope dom_scope.
Delimit Scope dom_scope with dom.
Notation "x <- m ;; k" := (bind m (fun x => k))
  (at level 61, m at next level, right associativity) : dom_scope.
Notation "m ;; k" := (bind m (fun _ => k))
  (at level 61, right associativity) : dom_scope.
Local Open Scope dom_scope.

Definition updTree (f : Node -> Node) : M unit :=
  fun d => (Ok tt, mkDoc (f (tree d)) (nextId d)).

Definition nullAccess : exn :=
  TypeError "Cannot read properties of null".

(** Reading the properties of a referenced element.  The tree holds the
    attached nodes only.  A reference that no longer denotes a node of the
    tree belongs to a node that [remove()] detached: its [parentElement]
    is null, and the only listener that still holds such a reference,
    [validateField], throws at [field.parentElement.querySelector] before
    it changes anything that is attached; the model throws at the first
    read. *)
Definition getElem (r : nat) : M Elem :=
  fun d => match find (hasId r) (elems (tree d)) with
           | Some e => (Ok e, d)
           | None => (Throw nullAccess, d)
           end.

Definition onElem (r : nat) (f : Elem -> Elem) : Elem -> Elem :=
  fun e => if hasId r e then f e else e.

(** [el.classList.remove(c)], [el.classList.add(c)] *)
Definition classList_remove (r : nat) (c : string) : M unit :=
  updTree (mapElems (onElem r (withClassList (remove c)))).
Definition classList_add (r : nat) (c : string) : M unit :=
  updTree (mapElems (onElem r (withClassList (add c)))).

(** [el.parentElement], followed by a property access: null throws. *)
Definition parentElement (r : nat) : M path :=
  fun d => match findPath (hasId r) (tree d) with
           | Some (i :: p) => (Ok (removelast (i :: p)), d)
           | _ => (Throw nullAccess, d)
           end.

(** [parent.querySelector(sel)] *)
Definition querySelector (parent : path) (sel : selector) : M (option path) :=
  fun d => match subtree parent (tree d) with
           | Some n => (Ok (option_map (app parent) (findBelow sel n)), d)
           | None => (Throw nullAccess, d)
           end.

(** [parent.querySelectorAll(sel)]: a static list of node references. *)
Definition querySelectorAll (parent : path) (sel : selector) : M (list nat) :=
  fun d => match subtree parent (tree d) with
           | Some n => (Ok (map nid (filter sel (descendants n))), d)
           | None => (Throw nullAccess, d)
           end.

(** [node.remove()] *)
Definition removeNode (p : path) : M unit := updTree (removeAt p).

(** [document.createElement(tag)] *)
Definition createElement (tag : string) : M Elem :=
  fun d => (Ok (mkElem (nextId d) tag [] EmptyString false [] [] EmptyString EmptyString),
            mkDoc (tree d) (S (nextId d))).

Definition appendKid (c : Node) (n : Node) : Node :=
  El (elemOf n) (kidsOf n ++ [c]).
Definition prependKid (c : Node) (n : Node) : Node :=
  El (elemOf n) (c :: kidsOf n).

(** [parent.appendChild(child)] *)
Definition appendChild (parent : path) (c : Node) : M unit :=
  updTree (modifyAt parent (appendKid c)).

(** ** Field validation (lines 143-193) *)

Definition msgRequired : string := "This field is required".
Definition msgEmail : string := "Please enter a valid email address".
Definition msgPhone : string := "Please enter a valid phone number".
Definition errorCss : string :=
  "color: var(--error); font-size: 0.875rem; margin-top: 0.25rem;".

Definition errorDiv (e : Elem) (message : string) : Elem :=
  mkElem (nid e) (tagName e) ["error-message"%string] (type_ e) (required e)
         (value e) (defaultValue e) message errorCss.

Definition showFieldError (field : nat) (message : string) : M unit :=
  classList_add field "error" ;;
  div <- createElement "div" ;;
  parent <- parentElement field ;;
  appendChild parent (El (errorDiv div message) []).

Definition validateField (field : nat) : M bool :=
  f <- getElem field ;;
  let value := trim (value f) in
  let fieldType := type_ f in
  let isRequired := required f in
  (* Remove existing error states *)
  classList_remove field "error" ;;
  parent <- parentElement field ;;
  existingError <- querySelector parent (selClass "error-message") ;;
  match existingError with
  | Some e => removeNode e
  | None => ret tt
  end ;;
  (* Check required fields *)
  if isRequired && negb (truthy value) then
    showFieldError field msgRequired ;; ret false
  else
    (* Phone validation: what follows the e-mail rule when it passes *)
    let phoneRule : M bool :=
      if (fieldType =? "tel")%string && truthy value then
        if negb (test phoneRegex (replaceAllClass phoneSeparator value)) then
          showFieldError field msgPhone ;; ret false
        else ret true
      else ret true in
    (* Email validation *)
    if (fieldType =? "email")%string && truthy value then
      if negb (test emailRegex value) then
        showFieldError field msgEmail ;; ret false
      else phoneRule
    else phoneRule.

(** ** Form validation and the success banner (lines 195-229) *)

(** [list.forEach] over a body that updates the captured [let isValid]. *)
Fixpoint forEach (A S : Type) (l : list A) (body : A -> S -> M S) (s : S) : M S :=
  match l with
  | [] => ret s
  | x :: r => s' <- body x s ;; forEach r body s'
  end.

(** The form is the root of the tree. *)
Definition form : path := [].

Definition validateForm : M bool :=
  inputs <- querySelectorAll form selFields ;;
  forEach inputs
    (fun input isValid =>
       ok <- validateField input ;;
       ret (if negb ok then false else isValid))
    true.

(** The template literal of [showFormSuccess]; the attribute values are
    written with single quotes here. *)
Definition successMarkup : string :=
  "<div style='background: var(--success); color: white; padding: 1rem; border-radius: 0.5rem; text-align: center; margin-bottom: 1rem;'><i class='fas fa-check-circle' style='margin-right: 0.5rem;'></i> Thank you! Your message has been sent successfully. We'll get back to you soon.</div>".

Definition successDiv (e : Elem) : Elem :=
  mkElem (nid e) (tagName e) ["form-success"%string] (type_ e) (required e)
         (value e) (defaultValue e) successMarkup (cssText e).

(** [form.insertBefore(successDiv, form.firstChild)] *)
Definition showFormSuccess : M unit :=
  div <- createElement "div" ;;
  updTree (modifyAt form (prependKid (El (successDiv div) []))).

Definition hideFormSuccess : M unit :=
  found <- querySelector form (selClass "form-success") ;;
  match found with
  | Some p => removeNode p
  | None => ret tt
  end.


(** ** Timers *)

(** [setTimeout] on a logical clock in milliseconds.  The callbacks of the
    script never set a timer themselves, so a callback is a function on the
    state alone. *)
Section Timers.
Variables St Task : Type.
Variable runTask : Task -> St -> St.

Record Loop : Type := mkLoop {
  state : St;
  clock : Z;
  queue : list (Z * Task)    (* pending timers with their due times *)
}.

Fixpoint insertTimer (due : Z) (t : Task) (q : list (Z * Task)) : list (Z * Task) :=
  match q with
  | [] => [(due, t)]
  | (d, t') :: r =>
      if (d <=? due)%Z then (d, t') :: insertTimer due t r
      else (due, t) :: q
  end.

Definition setTimeout (t : Task) (delay : Z) (l : Loop) : Loop :=
  mkLoop (state l) (clock l) (insertTimer (clock l + delay) t (queue l)).

(** Let [d] milliseconds pass: the timers that fall due fire in the
    order of their due times ([insertTimer] keeps the queue in that
    order). *)
Fixpoint fire (target : Z) (q : list (Z * Task)) (s : St) : St * list (Z * Task) :=
  match q with
  | [] => (s, [])
  | (due, t) :: r =>
      if (due <=? target)%Z then fire target r (runTask t s)
      else (s, q)
  end.

Definition elapse (d : Z) (l : Loop) : Loop :=
  let target := (clock l + d)%Z in
  let (s, q) := fire target (queue l) (state l) in
  mkLoop s target q.
End Timers.

(** ** The submit and input listeners (lines 105-141) *)














(** ** Scroll listeners (lines 24-59 and 271-279) *)

(** The viewport.  [window.pageYOffset] is the scroll offset;
    [document.documentElement.scrollTop] is the same offset, or zero when
    the document is in quirks mode (CSSOM View). *)
Record Window : Type := mkWindow { scrollY : Q; quirksMode : bool }.

Definition pageYOffset (w : Window) : Q := scrollY w.
Definition documentElement_scrollTop (w : Window) : Q :=
  if quirksMode w then 0%Q else scrollY w.

(** Truthiness of a number: zero is falsy. *)
Definition numTruthy (q : Q) : bool := negb (Qeq_bool q 0).
(** [a > b] on numbers. *)
Definition gt (a b : Q) : bool := negb (Qle_bool a b).
(** [a < b] on numbers. *)
Definition lt (a b : Q) : bool := negb (Qle_bool b a).

(** The elements the scroll listeners touch.  [header] and [backToTopBtn]
    are the results of [querySelector] and [getElementById]: [None] is
    null.  An element is represented by its class list; a hero section by
    the offset of its [translateY] transform, once set. *)
Record ScrollPage : Type := mkScrollPage {
  header : option (list string);
  lastScrollTop : Q;
  backToTopBtn : option (list string);
  heroes : list (option Q)
}.

Definition Listener := Window -> ScrollPage -> completion unit * ScrollPage.

(** Lines 28-39. *)
Definition headerListener : Listener := fun w p =>
  let scrollTop :=
    if numTruthy (pageYOffset w) then pageYOffset w
    else documentElement_scrollTop w in
  match header p with
  | None => (Throw nullAccess, p)       (* [header.classList] on null *)
  | Some cl =>
      let cl' := if gt scrollTop 50 then add "scrolled" cl
                 else remove "scrolled" cl in
      (Ok tt, mkScrollPage (Some cl') scrollTop (backToTopBtn p) (heroes p))
  end.

(** Lines 45-51. *)
Definition backToTopListener : Listener := fun w p =>
  match backToTopBtn p with
  | None => (Throw nullAccess, p)
  | Some cl =>
      let cl' := if gt (pageYOffset w) 300 then add "visible" cl
                 else remove "visible" cl in
      (Ok tt, mkScrollPage (header p) (lastScrollTop p) (Some cl') (heroes p))
  end.

(** Lines 274-278, for the hero section number [i]. *)
Definition heroListener (i : nat) : Listener := fun w p =>
  let scrolled := pageYOffset w in
  let rate := (scrolled * - (1 # 2))%Q in
  (Ok tt, mkScrollPage (header p) (lastScrollTop p) (backToTopBtn p)
                       (updateNth i (fun _ => Some rate) (heroes p))).

(** The scroll listeners registered by the initializer, in order: the
    header listener unconditionally, the back-to-top listener inside
    [if (backToTopBtn)], one listener for each hero section. *)
Definition scrollListeners (p : ScrollPage) : list Listener :=
  [headerListener]
  ++ (match backToTopBtn p with Some _ => [backToTopListener] | None => [] end)
  ++ map heroListener (seq 0 (List.length (heroes p))).

(** Event dispatch: every listener runs; an exception thrown by one is
    reported and does not stop the others. *)
Fixpoint dispatch (ls : list Listener) (w : Window) (p : ScrollPage)
  : list exn * ScrollPage :=
  match ls with
  | [] => ([], p)
  | l :: r =>
      match l w p with
      | (Ok _, p') => dispatch r w p'
      | (Throw x, p') => let (xs, p'') := dispatch r w p' in (x :: xs, p'')
      end
  end.

Definition dispatchScroll (w : Window) (p : ScrollPage) : list exn * ScrollPage :=
  dispatch (scrollListeners p) w p.

(** ** Button loading state (lines 246-269) *)

Record Button : Type := mkButton {
  bClassList : list string;
  innerHTML : string;
  originalText : option string      (* [dataset.originalText] *)
}.

Definition spinnerMarkup : string :=
  "<i class='fas fa-spinner fa-spin'></i> Loading...".

Definition truthyStr (s : option string) : bool :=
  match s with
  | Some (String _ _) => true
  | _ => false
  end.

Inductive ButtonTask : Type :=
| Restore : nat -> ButtonTask.     (* the timer callback of button [i] *)

Definition startLoading (b : Button) : Button :=
  mkButton (add "loading" (bClassList b)) spinnerMarkup (originalText b).

Definition restore (b : Button) : Button :=
  let cl := remove "loading" (bClassList b) in
  (* Restore original content if it exists *)
  if truthyStr (originalText b) then
    mkButton cl (match originalText b with Some s => s | None => innerHTML b end)
             (originalText b)
  else mkButton cl (innerHTML b) (originalText b).

Definition runButtonTask (t : ButtonTask) (bs : list Button) : list Button :=
  match t with Restore i => updateNth i restore bs end.

Definition ButtonLoop := Loop (list Button) ButtonTask.

(** The click listener of button [i]. *)
Definition click (i : nat) (l : ButtonLoop) : ButtonLoop :=
  match nth_error (state l) i with
  | Some b =>
      if negb (contains "loading" (bClassList b)) then
        setTimeout (Restore i) 2000
          (mkLoop (updateNth i startLoading (state l)) (clock l) (queue l))
      else l
  | None => l
  end.

(** Lines 266-269: the label of every button is stored at page-ready
    time. *)
Definition storeOriginal (b : Button) : Button :=
  mkButton (bClassList b) (innerHTML b) (Some (innerHTML b)).

Definition buttonsReady (bs : list Button) (now : Z) : ButtonLoop :=
  mkLoop (map storeOriginal bs) now [].

Inductive ButtonEvent : Type :=
| Click : nat -> ButtonEvent
| Pause : Z -> ButtonEvent.

Definition buttonStep (l : ButtonLoop) (ev : ButtonEvent) : ButtonLoop :=
  match ev with
  | Click i => click i l
  | Pause d => elapse runButtonTask d l
  end.

Definition buttonRun (evs : list ButtonEvent) (l : ButtonLoop) : ButtonLoop :=
  fold_left buttonStep evs l.

(** ** Numbers of the counter animation: IEEE 754 binary64 *)

(** A finite double is represented by the rational it denotes.  The
    arithmetic of the script is the exact operation followed by rounding
    to the nearest double, ties to the even significand.  The doubles
    around [q] are the multiples of [ulp q]: 2^(e-52) where 2^e <= |q| <
    2^(e+1), and 2^(-1074) below 2^(-1022), where the doubles are
    subnormal.  The values that occur here are far from 2^1024, so that no
    operation overflows; zero has no sign, and none is needed: the script
    adds the product to [start], a positive zero. *)
Definition pow2 (e : Z) : Q := (2 ^ e)%Q.

(** The [e] with 2^e <= q < 2^(e+1), for a positive [q]. *)
Definition floorLog2 (q : Q) : Z :=
  let c := (Z.log2 (Qnum q) - Z.log2 (Zpos (Qden q)))%Z in
  if Qle_bool (pow2 c) q then c else (c - 1)%Z.

(** The nearest integer, the even one of two that are equally near. *)
Definition roundEven (y : Q) : Z :=
  let f := Qfloor y in
  match (y - inject_Z f ?= 1 # 2)%Q with
  | Lt => f
  | Gt => (f + 1)%Z
  | Eq => if Z.even f then f else (f + 1)%Z
  end.

Definition ulp (q : Q) : Q := pow2 (Z.max (floorLog2 q) (-1022) - 52).

Definition roundPos (q : Q) : Q := (inject_Z (roundEven (q / ulp q)) * ulp q)%Q.

Definition round64 (q : Q) : Q :=
  match (q ?= 0)%Q with
  | Eq => 0%Q
  | Gt => roundPos q
  | Lt => (- roundPos (- q))%Q
  end.

(** [x + y], [x - y], [x * y], [x / y] on doubles. *)
Definition fadd (x y : Q) : Q := round64 (x + y).
Definition fsub (x y : Q) : Q := round64 (x - y).
Definition fmul (x y : Q) : Q := round64 (x * y).
Definition fdiv (x y : Q) : Q := round64 (x / y).

(** [Math.min(x, y)] *)
Definition Math_min (x y : Q) : Q := if Qle_bool x y then x else y.

(** The same operations in the formalisation of IEEE 754 that comes with
    the standard library, for comparison: the double that an integer
    rounds to, and the rational that a finite double denotes. *)
Definition Z2SF (z : Z) : spec_float := binary_normalize 53 1024 z 0 false.
Definition SF2Q (x : spec_float) : option Q :=
  match x with
  | S754_zero _ => Some 0%Q
  | S754_finite s m e =>
      Some (Qred ((if s then -1 else 1) * inject_Z (Zpos m) * pow2 e))%Q
  | _ => None
  end.

(** ** Counter animation (lines 281-315) *)

(** A number of the animation that is integral: an integer, or NaN. *)
Definition number := option Z.

(** The double nearest to an integer; it is an integer again. *)
Definition toNumber (z : Z) : Z := Qfloor (round64 (inject_Z z)).

(** [parseInt] on a string from which every non-digit was removed: the
    decimal value of the digits as a double, NaN for the empty string
    (the value is below 2^1024 for a text of fewer than 309 digits). *)
Definition parseInt (s : jsstring) : number :=
  match s with
  | [] => None
  | _ => Some (toNumber
                 (fold_left (fun acc c => (acc * 10 + (Z.of_N c - 48))%Z) s 0%Z))
  end.

(** Conversion of an integral number to a string (decimal digits, as
    JavaScript prints integers below 10^21). *)
Definition numToString (n : number) : jsstring :=
  match n with
  | None => js "NaN"
  | Some z => js (DecimalString.NilZero.string_of_int (Z.to_int z))
  end.

Record Stat : Type := mkStat {
  statText : jsstring;       (* [textContent] *)
  observed : bool            (* a target of [statObserver] *)
}.

(** A pending [requestAnimationFrame(updateCounter)]: the closure of one
    call of [animateCounter]. *)
Record Anim : Type := mkAnim {
  element : nat;
  start : Z;
  end_ : number;
  suffix : jsstring;
  startTime : Q
}.

Record StatPage : Type := mkStatPage {
  stats : list Stat;
  frames : list Anim
}.

Definition duration : Q := 2000.

(** [Math.min(elapsed / duration, 1)] with [elapsed = currentTime -
    startTime] *)
Definition progressAt (a : Anim) (currentTime : Q) : Q :=
  let elapsed := fsub currentTime (startTime a) in
  Math_min (fdiv elapsed duration) 1.

(** [Math.floor(start + (end - start) * progress)] *)
Definition currentAt (a : Anim) (currentTime : Q) : number :=
  match end_ a with
  | None => None
  | Some e =>
      Some (Qfloor (fadd (inject_Z (start a))
                      (fmul (fsub (inject_Z e) (inject_Z (start a)))
                            (progressAt a currentTime))))
  end.

Definition setText (t : jsstring) (s : Stat) : Stat := mkStat t (observed s).

Definition updateCounter (a : Anim) (currentTime : Q) (p : StatPage) : StatPage :=
  let progress := progressAt a currentTime in
  let current := currentAt a currentTime in
  let stats' := updateNth (element a) (setText (numToString current ++ suffix a)) (stats p) in
  if lt progress 1 then mkStatPage stats' (frames p ++ [a])
  else mkStatPage stats' (frames p).

Definition animateCounter (el : nat) (st : Z) (en : number) (suf : jsstring)
    (now : Q) (p : StatPage) : StatPage :=
  mkStatPage (stats p) (frames p ++ [mkAnim el st en suf now]).

(** One animation frame at time [t]: the callbacks requested so far run
    in order; what they request runs in a later frame. *)
Definition animationFrame (t : Q) (p : StatPage) : StatPage :=
  fold_left (fun q a => updateCounter a t q) (frames p) (mkStatPage (stats p) []).

Definition runFrames (ts : list Q) (p : StatPage) : StatPage :=
  fold_left (fun q t => animationFrame t q) ts p.

Definition unobserve (s : Stat) : Stat := mkStat (statText s) false.

(** An [IntersectionObserverEntry]: the target and [isIntersecting]. *)
Definition Entry := (nat * bool)%type.

(** The callback of [statObserver]; [now] is [performance.now()]. *)
Definition statCallback (entries : list Entry) (now : Q) (p : StatPage) : StatPage :=
  fold_left
    (fun q (entry : Entry) =>
       let (stat, isIntersecting) := entry in
       if isIntersecting then
         match nth_error (stats q) stat with
         | Some s =>
             let target := parseInt (replaceAllClass (fun c => negb (isDigit c)) (statText s)) in
             let suf := replaceAllClass isDigit (statText s) in
             let q1 := animateCounter stat 0 target suf now q in
             mkStatPage (updateNth stat unobserve (stats q1)) (frames q1)
         | None => q
         end
       else q)
    entries p.

(** The observer reports only on the targets it observes. *)
Definition notify (entries : list Entry) (now : Q) (p : StatPage) : StatPage :=
  statCallback
    (filter (fun entry : Entry =>
               match nth_error (stats p) (fst entry) with
               | Some s => observed s
               | None => false
               end) entries)
    now p.

Definition textOf (i : nat) (p : StatPage) : option jsstring :=
  option_map statText (nth_error (stats p) i).

(** ** Vocabulary of the statements *)

(** What the e-mail pattern accepts: [local@domain.tld] with the three
    parts non-empty and free of white space and of "@". *)
Definition emailShape (s : jsstring) : Prop :=
  exists a b c,
    s = a ++ 64%N :: b ++ 46%N :: c
    /\ a <> [] /\ b <> [] /\ c <> []
    /\ forallb notSpaceAt a = true /\ forallb notSpaceAt b = true
    /\ forallb notSpaceAt c = true.

(** What the phone pattern accepts: an optional "+", a digit 1-9, then at
    most fifteen digits. *)
Definition phoneShape (s : jsstring) : Prop :=
  exists d rest,
    (s = d :: rest \/ s = 43%N :: d :: rest)
    /\ isDigit19 d = true /\ forallb isDigit rest = true
    /\ List.length rest <= 15.

(** The first match is a node that matches, and nothing before it in
    document order matches. *)
Definition firstAt (sel : selector) (n : Node) (p : path) : Prop :=
  exists s pre post,
    subtree p n = Some s /\ sel (elemOf s) = true
    /\ elems n = pre ++ elems s ++ post
    /\ forallb (fun e => negb (sel e)) pre = true
    /\ (p = [] -> pre = [] /\ post = [])
    /\ (p <> [] -> elems (removeAt p n) = pre ++ post).

Definition firstBelow (sel : selector) (n : Node) (p : path) : Prop :=
  exists s pre post,
    p <> [] /\ subtree p n = Some s /\ sel (elemOf s) = true
    /\ descendants n = pre ++ elems s ++ post
    /\ forallb (fun e => negb (sel e)) pre = true
    /\ elems (removeAt p n) = elemOf n :: pre ++ post.

Definition isErrorMessage : selector := selClass "error-message".
Definition isBanner : selector := selClass "form-success".

(** The message of the first rule a field fails, read off its value,
    declared type and required attribute. *)
Definition firstFailure (f : Elem) : option string :=
  let v := trim (value f) in
  if required f && negb (truthy v) then Some msgRequired
  else if (type_ f =? "email")%string && truthy v
          && negb (test emailRegex v) then Some msgEmail
  else if (type_ f =? "tel")%string && truthy v
          && negb (test phoneRegex (replaceAllClass phoneSeparator v))
       then Some msgPhone
  else None.

Definition isValid (f : Elem) : bool :=
  match firstFailure f with None => true | Some _ => false end.

Definition newDiv (n : nat) : Elem :=
  mkElem n "div" [] EmptyString false [] [] EmptyString EmptyString.

(** The message element [showFieldError] builds. *)
Definition errorNode (n : nat) (message : string) : Node :=
  El (errorDiv (newDiv n) message) [].

(** The tree once the prior error state of [field] is removed: the class
    "error" is off, and the first error message below the parent is gone. *)
Definition cleared (field : nat) (parent : path) (t : Node) : Node :=
  let t1 := mapElems (onElem field (withClassList (remove "error"))) t in
  match subtree parent t1 with
  | Some p1 =>
      match findBelow isErrorMessage p1 with
      | Some q => removeAt (parent ++ q) t1
      | None => t1
      end
  | None => t1
  end.

(** The tree once [showFieldError] ran. *)
Definition decorated (field : nat) (parent : path) (n : nat) (message : string)
    (t : Node) : Node :=
  modifyAt parent (appendKid (errorNode n message))
           (mapElems (onElem field (withClassList (add "error"))) t).

Definition validated (field : nat) (parent : path) (f : Elem) (d : Doc) : Doc :=
  match firstFailure f with
  | None => mkDoc (cleared field parent (tree d)) (nextId d)
  | Some message =>
      mkDoc (decorated field parent (nextId d) message
                       (cleared field parent (tree d)))
            (S (nextId d))
  end.

(** [field] refers to a child of the node at [parent]; its properties are
    [f]; it is not itself an error message; identities are distinct. *)
Definition FieldIn (t : Node) (field : nat) (parent : path) (f : Elem) : Prop :=
  NoDup (ids t)
  /\ nid f = field
  /\ isErrorMessage f = false
  /\ exists pn i fn,
      subtree parent t = Some pn /\ nth_error (kidsOf pn) i = Some fn
      /\ elemOf fn = f.

Definition count (sel : selector) (l : list Elem) : nat :=
  List.length (filter sel l).

(** What [classList.remove('error')] and [classList.add('error')] on the
    field do to an element of the tree. *)
Definition hRemove (field : nat) : Elem -> Elem :=
  onElem field (withClassList (remove "error")).
Definition hAdd (field : nat) : Elem -> Elem :=
  onElem field (withClassList (add "error")).

(** [validateField] reports the field invalid with [message]: it returns
    false; the last child of the field's parent is a [div] without
    children whose class is "error-message", whose text is [message] and
    whose inline style is the one of line 190; and the field, still a
    child of that parent, carries the class "error". *)
Definition Reports (out : completion bool * Doc) (field : nat) (parent : path)
    (message : string) : Prop :=
  fst out = Ok false
  /\ exists pn ks e,
      subtree parent (tree (snd out)) = Some pn
      /\ kidsOf pn = ks ++ [El e []]
      /\ tagName e = "div"%string
      /\ classList e = ["error-message"%string]
      /\ textContent e = message
      /\ cssText e
         = "color: var(--error); font-size: 0.875rem; margin-top: 0.25rem;"%string
      /\ exists i fn,
          nth_error ks i = Some fn /\ nid (elemOf fn) = field
          /\ contains "error" (classList (elemOf fn)) = true.

(** A decision procedure for distinct identities. *)
Fixpoint nodupb (l : list nat) : bool :=
  match l with
  | [] => true
  | x :: r => negb (existsb (Nat.eqb x) r) && nodupb r
  end.

(** ** Sample pages *)

Definition plain (i : nat) (tag : string) (ks : list Node) : Node :=
  El (mkElem i tag [] EmptyString false [] [] EmptyString EmptyString) ks.

Definition inputEl (i : nat) (ty : string) (req : bool) (v : string) : Elem :=
  mkElem i "input" [] ty req (js v) (js v) EmptyString EmptyString.

Definition input (i : nat) (ty : string) (req : bool) (v : string) : Node :=
  El (inputEl i ty req v) [].

(** [<form><div><input type=email ...></div></form>] *)
Definition emailForm (req : bool) (v : string) : Node :=
  plain 0 "form" [plain 1 "div" [input 2 "email" req v]].

(** [<form><div><input type=tel ...></div></form>] *)
Definition telForm (req : bool) (v : string) : Node :=
  plain 0 "form" [plain 1 "div" [input 2 "tel" req v]].

(** One group that holds two required fields and a hint:
    [<form><div><input required><input required><small></small></div></form>] *)
Definition sharedGroupForm : Node :=
  plain 0 "form"
    [plain 1 "div" [input 2 "text" true EmptyString;
                    input 3 "text" true EmptyString;
                    plain 4 "small" []]].

(** A valid field whose earlier failure is still shown:
    [<form><div><input type=email class=error value=a@b.co>
    <div class=error-message>...</div></div></form>] *)
Definition staleForm : Node :=
  plain 0 "form"
    [plain 1 "div"
       [El (withClassList (add "error") (inputEl 2 "email" true "a@b.co")) [];
        errorNode 5 msgEmail]].

(** A group that holds a field and two nested groups, each with a
    required field:
    [<form><div><input value=a><div><input required></div>
    <div><input required></div></div></form>] *)
Definition nestedGroupsForm : Node :=
  plain 0 "form"
    [plain 1 "div" [input 2 "text" false "a";
                    plain 3 "div" [input 4 "text" true EmptyString];
                    plain 5 "div" [input 6 "text" true EmptyString]]].

(** ** Well-formed forms *)

(** Neither a field nor a success banner. *)
Definition inert (e : Elem) : bool := negb (selFields e) && negb (isBanner e).

(** Every node that matches [outer] satisfies [okSelf] and holds only
    elements that satisfy [okBelow]. *)
Fixpoint guardedb (outer okSelf okBelow : Elem -> bool) (n : Node) : bool :=
  match n with
  | El e ks =>
      (negb (outer e) || okSelf e && forallb okBelow (flat_map elems ks))
      && forallb (guardedb outer okSelf okBelow) ks
  end.

(** An error-message element is neither a field nor a banner, and holds
    neither. *)
Definition cleanb : Node -> bool := guardedb isErrorMessage inert inert.

(** A success banner is not a field, and holds neither fields nor
    banners. *)
Definition notField (e : Elem) : bool := negb (selFields e).

(** The tree of a form: distinct identities, all of them below the next
    fresh one; the root is the form element, not a field, not an error
    message and not a banner; error messages hold no fields and no
    banners. *)
Definition WellFormed (t : Node) (n : nat) : Prop :=
  NoDup (ids t)
  /\ Forall (fun i => i < n) (ids t)
  /\ selFields (elemOf t) = false
  /\ isErrorMessage (elemOf t) = false
  /\ isBanner (elemOf t) = false
  /\ cleanb t = true.

Definition wellFormedb (t : Node) (n : nat) : bool :=
  nodupb (ids t) && forallb (fun i => i <? n) (ids t)
  && negb (selFields (elemOf t)) && negb (isErrorMessage (elemOf t))
  && negb (isBanner (elemOf t)) && cleanb t.

(** The fields of a form, in document order. *)
Definition fields (t : Node) : list Elem := filter selFields (elems t).

(** What of a field the script never changes. *)
Definition core (e : Elem) : nat * string * string * bool * jsstring * jsstring :=
  (nid e, tagName e, type_ e, required e, value e, defaultValue e).


(** The body of the [forEach] of [validateForm]. *)
Definition validateBody (input : nat) (isValid : bool) : M bool :=
  (ok <- validateField input ;; ret (if negb ok then false else isValid))%dom.











(** ** Buttons *)

Definition isLoading (b : Button) : bool := contains "loading" (bClassList b).

(** The due times of the pending restore timers of button [i]. *)
Definition pendingFor (i : nat) (q : list (Z * ButtonTask)) : list Z :=
  map fst (filter (fun e => match snd e with Restore j => j =? i end) q).

Definition byDue (a b : Z * ButtonTask) : Prop := (fst a <= fst b)%Z.

(** Time does not run backwards. *)
Definition steady (ev : ButtonEvent) : Prop :=
  match ev with
  | Click _ => True
  | Pause d => (0 <= d)%Z
  end.

Fixpoint paused (evs : list ButtonEvent) : Z :=
  match evs with
  | [] => 0
  | Pause d :: r => d + paused r
  | Click _ :: r => paused r
  end.

(** Button [i] between cycles or within one: its stored label is [orig];
    it has at most one restore timer pending, and then it is loading. *)
Definition Ready (i : nat) (orig : string) (l : ButtonLoop) : Prop :=
  StronglySorted byDue (queue l)
  /\ exists b,
      nth_error (state l) i = Some b
      /\ originalText b = Some orig
      /\ (pendingFor i (queue l) = []
          \/ (isLoading b = true /\ exists d, pendingFor i (queue l) = [d])).

(** Button [i] in its loading state [b], its timer due at [due]. *)
Definition Busy (i : nat) (b : Button) (due : Z) (l : ButtonLoop) : Prop :=
  StronglySorted byDue (queue l)
  /\ nth_error (state l) i = Some b
  /\ pendingFor i (queue l) = [due]
  /\ (clock l < due)%Z.

(** One button with the label "Go"; one button without a label. *)
Definition goButton : Button := mkButton ["btn"%string] "Go" None.
Definition bareButton : Button := mkButton ["btn"%string] EmptyString None.

(** ** Counter animation *)

(** The progress of an animation that started at [t0], at the frame time
    [t]: [Math.min((t - t0) / 2000, 1)], in double arithmetic. *)
Definition progress1200 (t0 t : Q) : Q :=
  Math_min (fdiv (fsub t t0) 2000) 1.

(** The number that frame shows in an animation from 0 to 1200:
    [Math.floor(1200 * Math.min((t - t0) / 2000, 1))], in double
    arithmetic. *)
Definition shownAt (t0 t : Q) : Z := Qfloor (fmul 1200 (progress1200 t0 t)).

(** What a frame writes. *)
Definition shownText (t0 t : Q) : jsstring :=
  (numToString (Some (shownAt t0 t)) ++ js "+")%list.

(** The pending frame callbacks of element [i]. *)
Definition animsOf (i : nat) (l : list Anim) : list Anim :=
  filter (fun a => element a =? i) l.

(** The animation [statObserver] starts at time [t0] for a statistic whose
    text is "1200+". *)
Definition anim1200 (i : nat) (t0 : Q) : Anim :=
  mkAnim i 0 (Some 1200%Z) (js "+") t0.

(** Element [i] during and after that animation, [t] being the time of the
    last frame (or the start time). *)
Definition Animating (i : nat) (t0 t : Q) (p : StatPage) : Prop :=
  (exists s, nth_error (stats p) i = Some s /\ observed s = false)
  /\ ((animsOf i (frames p) = [anim1200 i t0] /\ (progress1200 t0 t < 1)%Q)
      \/ (animsOf i (frames p) = [] /\ (1 <= progress1200 t0 t)%Q
          /\ textOf i p = Some (js "1200+"))).

(** A page with one statistic, "1200+", observed and at rest. *)
Definition statPage1200 : StatPage := mkStatPage [mkStat (js "1200+") true] [].

(** ** Mobile navigation (lines 4-22) *)

(** [classList.toggle(c)] *)
Definition toggle (c : string) (l : list string) : list string :=
  if contains c l then remove c l else add c l.

(** [navToggle] and [navMenu] are results of [getElementById] ([None] is
    null), each represented by its class list; [navLinks] is the number
    of [.nav-link] elements inside the menu.  The toggle control is taken
    to be neither one of these links nor an ancestor of one, so that a
    click reaches the listener of the toggle or the listener of a link,
    not both. *)
Record Nav : Type := mkNav {
  navToggle : option (list string);
  navMenu : option (list string);
  navLinks : nat
}.

Inductive NavEvent : Type :=
| ToggleClick : NavEvent          (* a click on the toggle control *)
| LinkClick : nat -> NavEvent.    (* a click on the link number [i] of the menu *)

(** The listeners exist only inside [if (navToggle && navMenu)]. *)
Definition navStep (n : Nav) (ev : NavEvent) : Nav :=
  match navToggle n, navMenu n with
  | Some t, Some m =>
      match ev with
      | ToggleClick =>
          mkNav (Some (toggle "active" t)) (Some (toggle "active" m)) (navLinks n)
      | LinkClick i =>
          if i <? navLinks n then
            mkNav (Some (remove "active" t)) (Some (remove "active" m)) (navLinks n)
          else n
      end
  | _, _ => n
  end.

Definition navRun (evs : list NavEvent) (n : Nav) : Nav :=
  fold_left navStep evs n.

(** The menu is shown as open. *)
Definition isOpen (cl : option (list string)) : bool :=
  match cl with Some l => contains "active" l | None => false end.

(** The two-state machine of the menu: a click on the toggle flips it, a
    click on one of the [k] links closes it. *)
Definition menuMachine (k : nat) (open : bool) (ev : NavEvent) : bool :=
  match ev with
  | ToggleClick => negb open
  | LinkClick i => if i <? k then false else open
  end.

(** ** One-shot intersection observers (lines 84-103 and 231-244) *)

(** The two observers have the same callback shape: for each entry that
    is intersecting, change the target and stop observing it.  A target
    is kept with the flag that says whether the observer still observes
    it; the observer reports only on targets it observes. *)
Section OneShot.
Variable T : Type.
Variable onVisible : T -> T.     (* what the callback does to the target *)

Definition Observed := (T * bool)%type.

Definition oneShotCallback (entries : list Entry) (ts : list Observed)
  : list Observed :=
  fold_left
    (fun (q : list Observed) (entry : Entry) =>
       let (target, isIntersecting) := entry in
       if isIntersecting then
         updateNth target (fun o : Observed => (onVisible (fst o), false)) q
       else q)
    entries ts.

Definition oneShotNotify (entries : list Entry) (ts : list Observed)
  : list Observed :=
  oneShotCallback
    (filter (fun entry : Entry =>
               match nth_error ts (fst entry) with
               | Some o => snd o
               | None => false
               end) entries)
    ts.

(** [elements.forEach(el => observer.observe(el))] *)
Definition observeAll (l : list T) : list Observed :=
  map (fun x => (x, true)) l.

Definition oneShotRun (batches : list (list Entry)) (ts : list Observed)
  : list Observed :=
  fold_left (fun q b => oneShotNotify b q) batches ts.
End OneShot.

(** The entry reports the target [i] as intersecting. *)
Definition reports (i : nat) (entry : Entry) : bool :=
  (fst entry =? i) && snd entry.

(** Some entry of some batch reports the target [i] as intersecting. *)
Definition seen (i : nat) (batches : list (list Entry)) : bool :=
  existsb (existsb (reports i)) batches.

(** Lines 90-97: [entry.target.classList.add('animate-fade-in-up')]. *)
Definition fadeIn (classes : list string) : list string :=
  add "animate-fade-in-up" classes.

(** An image with a deferred source. *)
Record Img : Type := mkImg {
  src : string;
  dataSrc : string;            (* [img.dataset.src] *)
  imgClassList : list string
}.

(** Lines 236-238: [img.src = img.dataset.src; img.classList.remove('lazy')]. *)
Definition loadImage (img : Img) : Img :=
  mkImg (dataSrc img) (dataSrc img) (remove "lazy" (imgClassList img)).

(** ** [debounce] (lines 354-364) *)

(** [func] is taken to return and not to call the debounced function
    itself; what it does is kept as the list of its calls.

    The state behind one debounced function: the variable [timeout] (the
    identity of the timer set last), the timers of this function that are
    pending (identity, due time, captured arguments), the supply of timer
    identities, the calls of [func] so far with their times, and the
    clock. *)
Record Debounced (A : Type) : Type := mkDebounced {
  timeoutVar : option nat;
  pendingTimers : list (nat * Z * A);
  nextTimer : nat;
  invoked : list (Z * A);
  dclock : Z
}.
Arguments mkDebounced {A} _ _ _ _ _.

(** [clearTimeout(id)]; clearing [undefined] does nothing. *)
Definition clearTimeout (A : Type) (id : option nat) (q : list (nat * Z * A))
  : list (nat * Z * A) :=
  match id with
  | Some i => filter (fun e => negb (fst (fst e) =? i)) q
  | None => q
  end.

(** One call of the function [debounce(func, wait)] returned. *)
Definition executedFunction (A : Type) (wait : Z) (args : A) (s : Debounced A)
  : Debounced A :=
  let q := clearTimeout (timeoutVar s) (pendingTimers s) in
  mkDebounced (Some (nextTimer s))
              (q ++ [(nextTimer s, (dclock s + wait)%Z, args)])
              (S (nextTimer s)) (invoked s) (dclock s).

(** The timer callback [later], run at time [now]. *)
Definition later (A : Type) (now : Z) (args : A) (s : Debounced A) : Debounced A :=
  mkDebounced (timeoutVar s)
              (clearTimeout (timeoutVar s) (pendingTimers s))
              (nextTimer s) (invoked s ++ [(now, args)]) (dclock s).

(** Let [d] milliseconds pass.  A timer that falls due leaves the queue
    and runs; it may clear timers that are still pending, so the queue is
    read again after every callback.  [fuel] bounds the number of timers
    fired; the queue length is enough, since [later] sets no timer. *)
Fixpoint fireDebounced (A : Type) (fuel : nat) (target : Z) (s : Debounced A)
  : Debounced A :=
  match fuel with
  | O => s
  | S k =>
      match find (fun e => (snd (fst e) <=? target)%Z) (pendingTimers s) with
      | Some (id, due, args) =>
          let s1 := mkDebounced (timeoutVar s)
                      (filter (fun e => negb (fst (fst e) =? id)) (pendingTimers s))
                      (nextTimer s) (invoked s) (dclock s) in
          fireDebounced k target (later due args s1)
      | None => s
      end
  end.

Definition elapseDebounced (A : Type) (d : Z) (s : Debounced A) : Debounced A :=
  let target := (dclock s + d)%Z in
  let s' := fireDebounced (List.length (pendingTimers s)) target s in
  mkDebounced (timeoutVar s') (pendingTimers s') (nextTimer s') (invoked s') target.

Definition debounceStart (A : Type) (now : Z) : Debounced A :=
  mkDebounced None [] 0 [] now.

(** ** [throttle] (lines 366-377) *)

(** [func] is taken to return (an exception would leave [inThrottle]
    unset) and not to call the throttled function itself; what it does is
    kept as the list of its calls.  [this] is passed on unchanged and is
    left out. *)

Record Throttled (A : Type) : Type := mkThrottled {
  inThrottle : bool;
  passed : list (Z * A)       (* the calls of [func], with their times *)
}.
Arguments mkThrottled {A} _ _.

Inductive ThrottleTask : Type :=
| Release : ThrottleTask.     (* [() => inThrottle = false] *)

Definition runThrottleTask (A : Type) (t : ThrottleTask) (s : Throttled A)
  : Throttled A :=
  match t with Release => mkThrottled false (passed s) end.

Definition ThrottleLoop (A : Type) := Loop (Throttled A) ThrottleTask.

(** One call of the function [throttle(func, limit)] returned. *)
Definition throttledCall (A : Type) (limit : Z) (args : A) (l : ThrottleLoop A)
  : ThrottleLoop A :=
  if negb (inThrottle (state l)) then
    setTimeout Release limit
      (mkLoop (mkThrottled true (passed (state l) ++ [(clock l, args)]))
              (clock l) (queue l))
  else l.

Inductive CallEvent (A : Type) : Type :=
| Call : A -> CallEvent A
| Idle : Z -> CallEvent A.
Arguments Call {A} _.
Arguments Idle {A} _.

Definition throttleStep (A : Type) (limit : Z) (l : ThrottleLoop A)
    (ev : CallEvent A) : ThrottleLoop A :=
  match ev with
  | Call a => throttledCall limit a l
  | Idle d => elapse (@runThrottleTask A) d l
  end.

Definition throttleRun (A : Type) (limit : Z) (evs : list (CallEvent A))
    (l : ThrottleLoop A) : ThrottleLoop A :=
  fold_left (throttleStep limit) evs l.

Definition throttleStart (A : Type) (now : Z) : ThrottleLoop A :=
  mkLoop (mkThrottled false []) now [].

Definition debounceStep (A : Type) (wait : Z) (s : Debounced A)
    (ev : CallEvent A) : Debounced A :=
  match ev with
  | Call a => executedFunction wait a s
  | Idle d => elapseDebounced d s
  end.

Definition debounceRun (A : Type) (wait : Z) (evs : list (CallEvent A))
    (s : Debounced A) : Debounced A :=
  fold_left (debounceStep wait) evs s.

(** Time does not run backwards. *)
Definition forward (A : Type) (ev : CallEvent A) : Prop :=
  match ev with
  | Call _ => True
  | Idle d => (0 <= d)%Z
  end.

(** A burst: further calls, each after a pause. *)
Fixpoint burst (A : Type) (rest : list (Z * A)) : list (CallEvent A) :=
  match rest with
  | [] => []
  | (d, a) :: r => Idle d :: Call a :: burst r
  end.

Fixpoint pauses (A : Type) (rest : list (Z * A)) : Z :=
  match rest with
  | [] => 0
  | (d, _) :: r => d + pauses r
  end.

(** No call of [func] is less than [limit] ms old. *)
Definition windowOver (A : Type) (limit : Z) (l : ThrottleLoop A) : bool :=
  forallb (fun e => (fst e + limit <=? clock l)%Z) (passed (state l)).

(** The calls of [func] are at least [limit] apart; the function is in
    its throttle window exactly while the last call of [func] is less
    than [limit] old, and then one timer is pending, due at the end of
    the window. *)
Definition Throttling (A : Type) (limit : Z) (l : ThrottleLoop A) : Prop :=
  StronglySorted (fun a b : Z * A => (fst a + limit <= fst b)%Z) (passed (state l))
  /\ Forall (fun e => (fst e <= clock l)%Z) (passed (state l))
  /\ (inThrottle (state l) = false ->
      queue l = [] /\ Forall (fun e => (fst e + limit <= clock l)%Z) (passed (state l)))
  /\ (inThrottle (state l) = true ->
      exists log tl a,
        passed (state l) = log ++ [(tl, a)]
        /\ queue l = [((tl + limit)%Z, Release)]
        /\ (clock l < tl + limit)%Z).


(** At most one timer of a debounced function is pending, the one whose
    identity is in [timeout]. *)
Definition Armed (A : Type) (s : Debounced A) (a : A) (due : Z) : Prop :=
  exists id, pendingTimers s = [(id, due, a)] /\ timeoutVar s = Some id.

Definition Settled (A : Type) (s : Debounced A) : Prop :=
  pendingTimers s = [] \/ exists a due, Armed s a due.

(** ** Focus and blur (lines 112-118) *)

(** A change of the class list of the node itself. *)
Definition onOwnClass (g : list string -> list string) (n : Node) : Node :=
  El (withClassList g (elemOf n)) (kidsOf n).

(** [this.parentElement.classList.add('focused')] *)
Definition onFocus (field : nat) : M unit :=
  (parent <- parentElement field ;;
   updTree (modifyAt parent (onOwnClass (add "focused"))))%dom.

(** [this.parentElement.classList.remove('focused')] *)
Definition onBlur (field : nat) : M unit :=
  (parent <- parentElement field ;;
   updTree (modifyAt parent (onOwnClass (remove "focused"))))%dom.

(** ** Marks of a validation pass *)

(** A field as a validation of that field leaves it: without the class
    "error" when it is valid, with it when it is not. *)
Definition marked (e : Elem) : Elem :=
  withClassList
    (fun l => if isValid e then remove "error" l
              else add "error" (remove "error" l)) e.

(** The fields among [fs] are marked, the others are left alone. *)
Definition markAll (fs : list Elem) (e : Elem) : Elem :=
  if existsb (fun f => nid f =? nid e) fs then marked e else e.

(* ================================================================== *)
(** * Part II. Properties *)
(* ================================================================== *)

(** ** Class lists *)

Lemma contains_app c l1 l2 :
  contains c (l1 ++ l2) = contains c l1 || contains c l2.
Proof. unfold contains. apply existsb_app. Qed.

Lemma contains_add_same c l : contains c (add c l) = true.
Proof.
  unfold add. destruct (contains c l) eqn:E; [exact E|].
  rewrite contains_app, E. simpl. now rewrite String.eqb_refl.
Qed.

Lemma contains_remove_same c l : contains c (remove c l) = false.
Proof.
  unfold contains, remove. induction l as [|x l IH]; simpl; [reflexivity|].
  destruct (String.eqb c x) eqn:E; simpl; [exact IH|].
  now rewrite E.
Qed.

Lemma contains_add_other c c' l :
  c <> c' -> contains c (add c' l) = contains c l.
Proof.
  intros H. unfold add. destruct (contains c' l); [reflexivity|].
  rewrite contains_app. simpl.
  destruct (String.eqb_spec c c'); [contradiction|].
  now rewrite !orb_false_r.
Qed.

Lemma contains_remove_other c c' l :
  c <> c' -> contains c (remove c' l) = contains c l.
Proof.
  intros H. unfold contains, remove. induction l as [|x l IH]; simpl; [reflexivity|].
  destruct (String.eqb_spec c' x) as [->|N]; simpl.
  - destruct (String.eqb_spec c x); [contradiction|]. exact IH.
  - now rewrite IH.
Qed.

Lemma remove_absent c l : contains c l = false -> remove c l = l.
Proof.
  unfold contains, remove. induction l as [|x l IH]; simpl; [reflexivity|].
  intros H. apply orb_false_iff in H as [H1 H2].
  rewrite H1. simpl. now rewrite IH.
Qed.

(** ** Scroll listeners *)

Lemma gt_spec a b : gt a b = true <-> (b < a)%Q.
Proof.
  unfold gt. rewrite negb_true_iff. split.
  - intros H. apply Qnot_le_lt. intros L.
    apply Qle_bool_iff in L. congruence.
  - intros H. destruct (Qle_bool a b) eqn:E; [|reflexivity].
    apply Qle_bool_iff in E. exfalso. exact (Qlt_not_le _ _ H E).
Qed.

Lemma gt_compat a a' b : (a == a')%Q -> gt a b = gt a' b.
Proof.
  intros E. destruct (gt a' b) eqn:G.
  - apply gt_spec. rewrite E. now apply gt_spec.
  - destruct (gt a b) eqn:G'; [|reflexivity].
    apply gt_spec in G'. rewrite E in G'. apply gt_spec in G'. congruence.
Qed.

(** The offset the header listener compares is the scroll offset: the
    fallback of [||] is taken at offset zero only, where it is zero too. *)
Lemma header_scrollTop w :
  ((if numTruthy (pageYOffset w) then pageYOffset w
    else documentElement_scrollTop w) == scrollY w)%Q.
Proof.
  unfold numTruthy, pageYOffset, documentElement_scrollTop.
  destruct (Qeq_bool (scrollY w) 0) eqn:E; simpl; [|reflexivity].
  apply Qeq_bool_eq in E. destruct (quirksMode w); [|reflexivity].
  now symmetry.
Qed.

(** The parallax listeners never throw and leave the header and the
    back-to-top button alone. *)
Lemma dispatch_heroes w ixs : forall p,
  exists hs,
    dispatch (map heroListener ixs) w p
    = ([], mkScrollPage (header p) (lastScrollTop p) (backToTopBtn p) hs).
Proof.
  induction ixs as [|i ixs IH]; intros p; simpl.
  - exists (heroes p). now destruct p.
  - destruct (IH (mkScrollPage (header p) (lastScrollTop p) (backToTopBtn p)
                    (updateNth i (fun _ => Some (pageYOffset w * - (1 # 2))%Q) (heroes p))))
      as [hs E].
    exists hs. exact E.
Qed.

(** C1 (the code at the failing input): on a page without a header
    element every scroll event makes the header listener throw a
    TypeError, at every offset; the back-to-top listener still runs. *)
Theorem scroll_without_header_throws (w : Window) (last : Q)
    (btt : option (list string)) (hs : list (option Q)) :
  let p := mkScrollPage None last btt hs in
  fst (dispatchScroll w p) = [nullAccess]
  /\ header (snd (dispatchScroll w p)) = None
  /\ lastScrollTop (snd (dispatchScroll w p)) = last
  /\ backToTopBtn (snd (dispatchScroll w p))
     = option_map (fun cl => if gt (scrollY w) 300 then add "visible" cl
                             else remove "visible" cl) btt.
Proof.
  intros p. unfold dispatchScroll, scrollListeners. subst p.
  destruct btt as [cl|]; simpl.
  - match goal with |- context [dispatch (map heroListener ?ixs) w ?q] =>
      destruct (dispatch_heroes w ixs q) as [hs' E] end.
    simpl in E. rewrite E. simpl. repeat split.
  - match goal with |- context [dispatch (map heroListener ?ixs) w ?q] =>
      destruct (dispatch_heroes w ixs q) as [hs' E] end.
    simpl in E. rewrite E. simpl. repeat split.
Qed.

(** C2: after the scroll listeners ran at offset s, the header carries
    "scrolled" iff s > 50 and the back-to-top button carries "visible"
    iff s > 300; no listener throws. *)
Theorem scroll_classes_follow_offset (w : Window) (last : Q)
    (h b : list string) (hs : list (option Q)) :
  let p' := snd (dispatchScroll w (mkScrollPage (Some h) last (Some b) hs)) in
  fst (dispatchScroll w (mkScrollPage (Some h) last (Some b) hs)) = []
  /\ exists h' b',
      header p' = Some h' /\ backToTopBtn p' = Some b'
      /\ (contains "scrolled" h' = true <-> (50 < scrollY w)%Q)
      /\ (contains "visible" b' = true <-> (300 < scrollY w)%Q).
Proof.
  unfold dispatchScroll, scrollListeners. simpl.
  match goal with |- context [dispatch (map heroListener ?ixs) w ?q] =>
    destruct (dispatch_heroes w ixs q) as [hs' E] end.
  simpl in E. rewrite E. simpl. split; [reflexivity|].
  eexists. eexists. split; [reflexivity|]. split; [reflexivity|]. split.
  - rewrite (gt_compat 50 (header_scrollTop w)).
    destruct (gt (scrollY w) 50) eqn:G.
    + rewrite contains_add_same. apply gt_spec in G. tauto.
    + rewrite contains_remove_same. split; [discriminate|].
      intros L. apply gt_spec in L. congruence.
  - unfold pageYOffset. destruct (gt (scrollY w) 300) eqn:G.
    + rewrite contains_add_same. apply gt_spec in G. tauto.
    + rewrite contains_remove_same. split; [discriminate|].
      intros L. apply gt_spec in L. congruence.
Qed.

(** ** Regular expressions: the matcher decides the language *)

Lemma Lang_void_inv s : Lang Void s -> False.
Proof. intros H. inversion H. Qed.

Lemma Lang_eps_inv s : Lang Eps s -> s = [].
Proof. intros H. now inversion H. Qed.

Lemma Lang_class p s : Lang (Class p) s <-> exists c, s = [c] /\ p c = true.
Proof.
  split.
  - intros H. inversion H; subst. eauto.
  - intros (c & -> & H). now constructor.
Qed.

Lemma Lang_seq_inv a b s :
  Lang (Seq a b) s -> exists s1 s2, s = s1 ++ s2 /\ Lang a s1 /\ Lang b s2.
Proof. intros H. inversion H; subst. eauto. Qed.

Lemma Lang_alt_inv a b s : Lang (Alt a b) s -> Lang a s \/ Lang b s.
Proof. intros H. inversion H; subst; tauto. Qed.

Lemma nullable_Lang r : nullable r = true <-> Lang r [].
Proof.
  induction r as [| |p|a IHa b IHb|a IHa b IHb|a IHa]; simpl.
  - split; [discriminate|]. intros H. destruct (Lang_void_inv H).
  - split; [constructor|reflexivity].
  - split; [discriminate|]. intros H.
    apply Lang_class in H as (c & E & _). discriminate.
  - rewrite andb_true_iff, IHa, IHb. split.
    + intros [Ha Hb]. exact (LSeq Ha Hb).
    + intros H. apply Lang_seq_inv in H as (s1 & s2 & E & Ha & Hb).
      symmetry in E. apply app_eq_nil in E as [-> ->]. now split.
  - rewrite orb_true_iff, IHa, IHb. split.
    + intros [H|H]; [now apply LAltL|now apply LAltR].
    + apply Lang_alt_inv.
  - split; [constructor|reflexivity].
Qed.

Lemma Lang_star_cons a c s :
  Lang (Star a) (c :: s) ->
  exists s1 s2, s = s1 ++ s2 /\ Lang a (c :: s1) /\ Lang (Star a) s2.
Proof.
  intros H. remember (Star a) as r eqn:Er. remember (c :: s) as w eqn:Ew.
  induction H as [| | | | | |a' s1 s2 H1 _ H2 IH2]; try discriminate.
  injection Er as ->. destruct s1 as [|c1 s1]; simpl in Ew.
  - now apply IH2.
  - injection Ew as -> <-. now exists s1, s2.
Qed.

Lemma deriv_Lang c r : forall s, Lang (deriv c r) s <-> Lang r (c :: s).
Proof.
  induction r as [| |p|a IHa b IHb|a IHa b IHb|a IHa]; intros s; simpl.
  - split; intros H; destruct (Lang_void_inv H).
  - split; intros H; [destruct (Lang_void_inv H)|].
    apply Lang_eps_inv in H. discriminate.
  - destruct (p c) eqn:E; split; intros H.
    + apply Lang_eps_inv in H as ->. now constructor.
    + apply Lang_class in H as (x & Ex & _). injection Ex as _ ->. constructor.
    + destruct (Lang_void_inv H).
    + apply Lang_class in H as (x & Ex & Hx). injection Ex as <- _. congruence.
  - assert (Fwd : Lang (Seq (deriv c a) b) s -> Lang (Seq a b) (c :: s)).
    { intros H. apply Lang_seq_inv in H as (s1 & s2 & -> & Ha & Hb).
      apply IHa in Ha. exact (LSeq Ha Hb). }
    assert (Bwd : Lang (Seq a b) (c :: s) ->
                  Lang (Seq (deriv c a) b) s \/ (Lang a [] /\ Lang (deriv c b) s)).
    { intros H. apply Lang_seq_inv in H as (s1 & s2 & E & Ha & Hb).
      destruct s1 as [|c1 s1]; simpl in E.
      - subst s2. right. split; [exact Ha|]. now apply IHb.
      - injection E as <- ->. left. apply LSeq; [now apply IHa|exact Hb]. }
    destruct (nullable a) eqn:N.
    + split.
      * intros H. apply Lang_alt_inv in H as [H|H]; [now apply Fwd|].
        apply nullable_Lang in N.
        change (c :: s) with ([] ++ c :: s). apply LSeq; [exact N|now apply IHb].
      * intros H. destruct (Bwd H) as [H1|[_ H2]]; [now apply LAltL|now apply LAltR].
    + split; [exact Fwd|].
      intros H. destruct (Bwd H) as [H1|[H1 _]]; [exact H1|].
      apply nullable_Lang in H1. congruence.
  - split; intros H; apply Lang_alt_inv in H as [H|H];
      solve [apply LAltL; now apply IHa | apply LAltR; now apply IHb].
  - split.
    + intros H. apply Lang_seq_inv in H as (s1 & s2 & -> & Ha & Hb).
      apply IHa in Ha. exact (LStarS Ha Hb).
    + intros H. apply Lang_star_cons in H as (s1 & s2 & -> & H1 & H2).
      apply LSeq; [now apply IHa|exact H2].
Qed.

Lemma matches_Lang s : forall r, matches r s = true <-> Lang r s.
Proof.
  induction s as [|c s IH]; intros r; simpl.
  - apply nullable_Lang.
  - rewrite IH. apply deriv_Lang.
Qed.

Lemma test_Lang r s : test r s = true <-> Lang r s.
Proof. apply matches_Lang. Qed.

(** Languages of the pieces the two patterns are made of. *)

Lemma Lang_star_class p s : Lang (Star (Class p)) s <-> forallb p s = true.
Proof.
  split.
  - intros H. remember (Star (Class p)) as r eqn:Er.
    induction H as [| | | | | |a s1 s2 H1 _ H2 IH2]; try discriminate; [reflexivity|].
    injection Er as ->. apply Lang_class in H1 as (c & -> & Hc). simpl.
    rewrite Hc. now apply IH2.
  - induction s as [|c s IH]; simpl; intros H; [constructor|].
    apply andb_true_iff in H as [Hc Hs].
    change (c :: s) with ([c] ++ s). apply LStarS; [now constructor|now apply IH].
Qed.

Lemma Lang_plus_class p s :
  Lang (Plus (Class p)) s <-> s <> [] /\ forallb p s = true.
Proof.
  unfold Plus. split.
  - intros H. apply Lang_seq_inv in H as (s1 & s2 & -> & H1 & H2).
    apply Lang_class in H1 as (c & -> & Hc). apply Lang_star_class in H2. simpl.
    split; [discriminate|]. now rewrite Hc.
  - intros [Hn H]. destruct s as [|c s]; [contradiction|]. simpl in H.
    apply andb_true_iff in H as [Hc Hs].
    change (c :: s) with ([c] ++ s).
    apply LSeq; [now constructor|now apply Lang_star_class].
Qed.

Lemma Lang_upto_class p n : forall s,
  Lang (UpTo n (Class p)) s <-> forallb p s = true /\ List.length s <= n.
Proof.
  induction n as [|n IH]; intros s; simpl.
  - split.
    + intros H. apply Lang_eps_inv in H as ->. simpl. split; [reflexivity|lia].
    + intros [_ H]. destruct s; simpl in H; [constructor|lia].
  - unfold Opt. split.
    + intros H. apply Lang_alt_inv in H as [H|H].
      * apply Lang_eps_inv in H as ->. simpl. split; [reflexivity|lia].
      * apply Lang_seq_inv in H as (s1 & s2 & -> & Hc & Hr).
        apply Lang_class in Hc as (c & -> & Hc). apply IH in Hr as [Hr Hl]. simpl.
        split; [now rewrite Hc|lia].
    + intros [H Hl]. destruct s as [|c s]; [apply LAltL; constructor|].
      simpl in H, Hl. apply andb_true_iff in H as [Hc Hs].
      apply LAltR. change (c :: s) with ([c] ++ s).
      apply LSeq; [now constructor|]. apply IH. split; [exact Hs|lia].
Qed.

Lemma chr_spec a c : chr a c = true <-> c = N_of_ascii a.
Proof. unfold chr. apply N.eqb_eq. Qed.

(** X12: the e-mail pattern accepts exactly the strings local@domain.tld
    whose three parts are non-empty and hold neither white space nor
    "@": one "@" only, and a dot somewhere behind it that is neither the
    first character after the "@" nor the last character. *)
Lemma emailRegex_shape s : test emailRegex s = true <-> emailShape s.
Proof.
  rewrite test_Lang. unfold emailRegex, emailShape. split.
  - intros H.
    apply Lang_seq_inv in H as (a & s2 & -> & Ha & H2).
    apply Lang_seq_inv in H2 as (at_ & s3 & -> & Hat & H3).
    apply Lang_seq_inv in H3 as (b & s4 & -> & Hb & H4).
    apply Lang_seq_inv in H4 as (dot & c & -> & Hdot & Hc).
    apply Lang_plus_class in Ha as [Na Fa].
    apply Lang_plus_class in Hb as [Nb Fb].
    apply Lang_plus_class in Hc as [Nc Fc].
    apply Lang_class in Hat as (x & -> & Hx). apply chr_spec in Hx. subst x.
    apply Lang_class in Hdot as (y & -> & Hy). apply chr_spec in Hy. subst y.
    exists a, b, c. simpl. repeat split; assumption.
  - intros (a & b & c & -> & Na & Nb & Nc & Fa & Fb & Fc).
    apply LSeq; [now apply Lang_plus_class|].
    change (64%N :: b ++ 46%N :: c) with ([64%N] ++ b ++ [46%N] ++ c).
    apply LSeq; [now constructor|].
    apply LSeq; [now apply Lang_plus_class|].
    apply LSeq; [now constructor|now apply Lang_plus_class].
Qed.

(** X13: the phone pattern accepts exactly an optional "+", a digit from
    1 to 9, and at most fifteen further digits. *)
Lemma phoneRegex_shape s : test phoneRegex s = true <-> phoneShape s.
Proof.
  rewrite test_Lang. unfold phoneRegex, phoneShape, Opt. split.
  - intros H.
    apply Lang_seq_inv in H as (sg & s2 & -> & Hsg & H2).
    apply Lang_seq_inv in H2 as (d0 & rest & -> & Hd & Hrest).
    apply Lang_class in Hd as (d & -> & Hd).
    apply Lang_upto_class in Hrest as [Hrest Hlen].
    exists d, rest. split; [|now repeat split].
    apply Lang_alt_inv in Hsg as [H1|H1].
    + apply Lang_eps_inv in H1 as ->. now left.
    + apply Lang_class in H1 as (x & -> & Hx). apply chr_spec in Hx. subst x.
      now right.
  - intros (d & rest & [-> | ->] & Hd & Hrest & Hlen).
    + change (d :: rest) with ([] ++ [d] ++ rest).
      apply LSeq; [apply LAltL; constructor|].
      apply LSeq; [now constructor|]. now apply Lang_upto_class.
    + change (43%N :: d :: rest) with ([43%N] ++ [d] ++ rest).
      apply LSeq; [apply LAltR; now constructor|].
      apply LSeq; [now constructor|]. now apply Lang_upto_class.
Qed.

Unset Implicit Arguments.

(** ** Trees *)

Lemma Node_ind' (P : Node -> Prop) :
  (forall e ks, Forall P ks -> P (El e ks)) -> forall n, P n.
Proof.
  intros H. fix IH 1. intros [e ks]. apply H.
  induction ks as [|k ks IHks]; constructor; [apply IH|exact IHks].
Qed.

Lemma updateNth_split (A : Type) (f : A -> A) (l1 : list A) x l2 :
  updateNth (List.length l1) f (l1 ++ x :: l2) = l1 ++ f x :: l2.
Proof. induction l1 as [|y l1 IH]; simpl; [reflexivity|now rewrite IH]. Qed.

Lemma dropNth_split (A : Type) (l1 : list A) x l2 :
  dropNth (List.length l1) (l1 ++ x :: l2) = l1 ++ l2.
Proof. induction l1 as [|y l1 IH]; simpl; [reflexivity|now rewrite IH]. Qed.

Lemma updateNth_ext (A : Type) (f g : A -> A) i (l : list A) :
  (forall x, f x = g x) -> updateNth i f l = updateNth i g l.
Proof.
  intros E. revert i. induction l as [|x l IH]; intros [|i]; simpl;
    try reflexivity; [now rewrite E|now rewrite IH].
Qed.

Lemma nth_error_updateNth_same (A : Type) (f : A -> A) i (l : list A) x :
  nth_error l i = Some x -> nth_error (updateNth i f l) i = Some (f x).
Proof.
  revert i. induction l as [|y l IH]; intros [|i]; simpl; try discriminate.
  - now intros [= ->].
  - apply IH.
Qed.

Lemma nth_error_updateNth_other (A : Type) (f : A -> A) i j (l : list A) :
  i <> j -> nth_error (updateNth i f l) j = nth_error l j.
Proof.
  revert i j. induction l as [|y l IH]; intros [|i] [|j] H; simpl;
    try reflexivity; [lia|]. apply IH. lia.
Qed.

Lemma nth_error_split_len (A : Type) (l : list A) i x :
  nth_error l i = Some x ->
  exists l1 l2, l = l1 ++ x :: l2 /\ List.length l1 = i.
Proof. apply nth_error_split. Qed.

Lemma elemOf_mapElems h n : elemOf (mapElems h n) = h (elemOf n).
Proof. now destruct n. Qed.

Lemma kidsOf_mapElems h n : kidsOf (mapElems h n) = map (mapElems h) (kidsOf n).
Proof. now destruct n. Qed.

Lemma elems_mapElems h : forall n, elems (mapElems h n) = map h (elems n).
Proof.
  induction n as [e ks IH] using Node_ind'. simpl. f_equal.
  induction IH as [|k ks Hk _ IHks]; simpl; [reflexivity|].
  now rewrite map_app, Hk, IHks.
Qed.

Lemma mapElems_id h : forall n,
  (forall e, In e (elems n) -> h e = e) -> mapElems h n = n.
Proof.
  induction n as [e ks IH] using Node_ind'. intros H. simpl. f_equal.
  - apply H. now left.
  - assert (Hk : forall k, In k ks -> forall x, In x (elems k) -> h x = x).
    { intros k Hin x Hx. apply H. right. apply in_flat_map. eauto. }
    clear H. induction IH as [|k ks H1 _ IHks]; simpl; [reflexivity|].
    rewrite H1, IHks; [reflexivity| |].
    + intros k' Hin. apply Hk. now right.
    + apply Hk. now left.
Qed.

Arguments removeAt : simpl never.

Lemma removeAt_single i n :
  removeAt [i] n = El (elemOf n) (dropNth i (kidsOf n)).
Proof. reflexivity. Qed.

Lemma removeAt_deeper i j p n :
  removeAt (i :: j :: p) n
  = El (elemOf n) (updateNth i (removeAt (j :: p)) (kidsOf n)).
Proof. reflexivity. Qed.

Lemma elems_El e ks : elems (El e ks) = e :: flat_map elems ks.
Proof. reflexivity. Qed.

Lemma elemOf_removeAt p n : elemOf (removeAt p n) = elemOf n.
Proof. destruct p as [|i [|j p]]; reflexivity. Qed.

Lemma subtree_app p q n :
  subtree (p ++ q) n
  = match subtree p n with Some m => subtree q m | None => None end.
Proof.
  revert n. induction p as [|i p IH]; intros n; simpl; [reflexivity|].
  destruct (nth_error (kidsOf n) i); [apply IH|reflexivity].
Qed.

Lemma subtree_mapElems h p : forall n,
  subtree p (mapElems h n) = option_map (mapElems h) (subtree p n).
Proof.
  induction p as [|i p IH]; intros n; simpl; [reflexivity|].
  rewrite kidsOf_mapElems, nth_error_map.
  destruct (nth_error (kidsOf n) i); simpl; [apply IH|reflexivity].
Qed.

Lemma subtree_modifyAt p g : forall n s,
  subtree p n = Some s -> subtree p (modifyAt p g n) = Some (g s).
Proof.
  induction p as [|i p IH]; intros n s; simpl.
  - now intros [= ->].
  - destruct (nth_error (kidsOf n) i) as [k|] eqn:E; [|discriminate].
    intros H. rewrite (nth_error_updateNth_same _ _ _ _ _ E). now apply IH.
Qed.

Lemma removeAt_app p q : forall n,
  q <> [] -> removeAt (p ++ q) n = modifyAt p (removeAt q) n.
Proof.
  induction p as [|i p IH]; intros n Hq; [reflexivity|].
  change ((i :: p) ++ q) with (i :: (p ++ q)).
  assert (E : removeAt (i :: (p ++ q)) n
              = El (elemOf n) (updateNth i (removeAt (p ++ q)) (kidsOf n))).
  { destruct (p ++ q) eqn:Epq; [|reflexivity].
    apply app_eq_nil in Epq as [_ ->]. contradiction. }
  rewrite E. simpl. f_equal. apply updateNth_ext. intros x. now apply IH.
Qed.

(** The elements before, inside and after the node at a path. *)
Lemma elems_at p : forall n s,
  subtree p n = Some s ->
  exists pre post,
    elems n = pre ++ elems s ++ post
    /\ (forall g, elems (modifyAt p g n) = pre ++ elems (g s) ++ post)
    /\ (p <> [] -> elems (removeAt p n) = pre ++ post)
    /\ (p <> [] -> exists pre', pre = elemOf n :: pre').
Proof.
  induction p as [|i p IH]; intros n s H.
  - simpl in H. injection H as ->. exists [], []. simpl.
    split; [now rewrite app_nil_r|]. split; [intros g; now rewrite app_nil_r|].
    split; intros C; now elim C.
  - simpl in H. destruct n as [e ks]. simpl in H.
    destruct (nth_error ks i) as [k|] eqn:E; [|discriminate].
    destruct (nth_error_split_len _ _ _ _ E) as (l1 & l2 & -> & Hlen).
    destruct (IH _ _ H) as (pre & post & E1 & E2 & E3 & E4).
    exists (e :: flat_map elems l1 ++ pre), (post ++ flat_map elems l2).
    repeat split.
    + simpl. rewrite flat_map_app. simpl. rewrite E1.
      now rewrite <- !app_assoc.
    + intros g. simpl. rewrite <- Hlen, updateNth_split, flat_map_app. simpl.
      rewrite E2. now rewrite <- !app_assoc.
    + intros _. destruct p as [|j p].
      * simpl in H. injection H as ->. simpl in E1.
        simpl. rewrite <- Hlen, dropNth_split, flat_map_app.
        assert (pre = [] /\ post = []) as [-> ->].
        { destruct pre; [|exfalso].
          - split; [reflexivity|]. simpl in E1.
            rewrite <- (app_nil_r (elems s)) in E1 at 1.
            now apply app_inv_head in E1.
          - apply (f_equal (@List.length _)) in E1. simpl in E1.
            rewrite !length_app in E1. simpl in E1. lia. }
        simpl. now rewrite app_nil_r.
      * rewrite removeAt_deeper. cbn [elemOf kidsOf].
        rewrite elems_El, <- Hlen, updateNth_split, flat_map_app.
        cbn [flat_map]. rewrite E3 by discriminate.
        cbn [app]. now rewrite <- !app_assoc.
    + intros _. eexists. reflexivity.
Qed.

(** ** First match *)

Lemma findInKids_cons find k r :
  findInKids find (k :: r)
  = match find k with
    | Some p => Some (0 :: p)
    | None => option_map bump (findInKids find r)
    end.
Proof. reflexivity. Qed.

Lemma findPath_eq sel e ks :
  findPath sel (El e ks)
  = if sel e then Some [] else findInKids (findPath sel) ks.
Proof. reflexivity. Qed.

Lemma findPath_none sel : forall n,
  findPath sel n = None <-> forallb (fun e => negb (sel e)) (elems n) = true.
Proof.
  induction n as [e ks IH] using Node_ind'.
  rewrite findPath_eq. simpl elems. simpl forallb.
  destruct (sel e); simpl; [split; discriminate|].
  induction IH as [|k ks Hk _ IHks].
  - simpl. tauto.
  - rewrite findInKids_cons. simpl. rewrite forallb_app, andb_true_iff.
    rewrite <- Hk, <- IHks.
    destruct (findPath sel k); [split; [discriminate|intros [? _]; discriminate]|].
    destruct (findInKids (findPath sel) ks); simpl;
      [split; [discriminate|intros [_ ?]; discriminate]|tauto].
Qed.

Lemma findInKids_none sel ks :
  findInKids (findPath sel) ks = None
  <-> forallb (fun e => negb (sel e)) (flat_map elems ks) = true.
Proof.
  induction ks as [|k ks IH]; simpl; [tauto|].
  rewrite forallb_app, andb_true_iff, <- IH, <- findPath_none.
  destruct (findPath sel k); [split; [discriminate|intros [? _]; discriminate]|].
  destruct (findInKids (findPath sel) ks); simpl;
    [split; [discriminate|intros [_ ?]; discriminate]|tauto].
Qed.

Lemma findBelow_none sel n :
  findBelow sel n = None
  <-> forallb (fun e => negb (sel e)) (descendants n) = true.
Proof. apply findInKids_none. Qed.

Lemma forest_first sel ks :
  Forall (fun k => forall p, findPath sel k = Some p -> firstAt sel k p) ks ->
  forall e p, findInKids (findPath sel) ks = Some p -> firstBelow sel (El e ks) p.
Proof.
  induction 1 as [|k ks Hk _ IHks]; intros e p; [discriminate|].
  rewrite findInKids_cons. destruct (findPath sel k) as [q|] eqn:Fk.
  - intros [= <-].
    destruct (Hk _ eq_refl) as (s & pre & post & S1 & S2 & S3 & S4 & S5 & S6).
    exists s, pre, (post ++ flat_map elems ks).
    split; [discriminate|]. split; [exact S1|]. split; [exact S2|].
    split; [unfold descendants; cbn [kidsOf flat_map]; rewrite S3;
            now rewrite <- !app_assoc|].
    split; [exact S4|].
    destruct q as [|j q].
    + destruct (S5 eq_refl) as [-> ->]. reflexivity.
    + rewrite removeAt_deeper. cbn [elemOf kidsOf updateNth].
      rewrite elems_El. cbn [flat_map]. rewrite S6 by discriminate.
      now rewrite <- app_assoc.
  - destruct (findInKids (findPath sel) ks) as [p0|] eqn:Fr; [|discriminate].
    intros [= <-].
    destruct (IHks e _ eq_refl) as (s & pre & post & S0 & S1 & S2 & S3 & S4 & S5).
    apply findPath_none in Fk.
    destruct p0 as [|i q]; [now elim S0|]. cbn [bump].
    exists s, (elems k ++ pre), post.
    split; [discriminate|]. split; [exact S1|]. split; [exact S2|].
    split; [unfold descendants in *; cbn [kidsOf flat_map] in *; rewrite S3;
            now rewrite <- !app_assoc|].
    split; [now rewrite forallb_app, Fk|].
    destruct q as [|j q].
    + rewrite removeAt_single in *. cbn [elemOf kidsOf dropNth] in *.
      rewrite elems_El in *. cbn [flat_map]. injection S5 as S5.
      rewrite S5. now rewrite <- app_assoc.
    + rewrite removeAt_deeper in *. cbn [elemOf kidsOf updateNth] in *.
      rewrite elems_El in *. cbn [flat_map]. injection S5 as S5.
      rewrite S5. now rewrite <- app_assoc.
Qed.

Lemma findPath_first sel : forall n p,
  findPath sel n = Some p -> firstAt sel n p.
Proof.
  induction n as [e ks IH] using Node_ind'. intros p.
  rewrite findPath_eq. destruct (sel e) eqn:Se.
  - intros [= <-]. exists (El e ks), [], [].
    split; [reflexivity|]. split; [exact Se|].
    split; [cbn [app]; now rewrite app_nil_r|]. split; [reflexivity|].
    split; [tauto|]. intros C; now elim C.
  - intros F.
    destruct (forest_first sel ks IH e p F) as (s & pre & post & S0 & S1 & S2 & S3 & S4 & S5).
    exists s, (e :: pre), post.
    split; [exact S1|]. split; [exact S2|].
    split; [rewrite elems_El; unfold descendants in S3; cbn [kidsOf] in S3;
            now rewrite S3|].
    split; [cbn [forallb]; now rewrite Se|].
    split; [intros C; now elim S0|]. intros _. exact S5.
Qed.

Lemma findBelow_first sel n p :
  findBelow sel n = Some p -> firstBelow sel n p.
Proof.
  destruct n as [e ks]. unfold findBelow. cbn [kidsOf]. apply forest_first.
  apply Forall_forall. intros k _ q. apply findPath_first.
Qed.


(** ** Node references *)

Lemma elems_head n : exists r, elems n = elemOf n :: r.
Proof. destruct n as [e ks]. now exists (flat_map elems ks). Qed.

Lemma subtree_In p n s : subtree p n = Some s -> In (elemOf s) (elems n).
Proof.
  intros H. destruct (elems_at _ _ _ H) as (pre & post & E & _).
  destruct (elems_head s) as [r Er]. rewrite E, Er.
  apply in_or_app. right. now left.
Qed.

Lemma hasId_spec r e : hasId r e = true <-> nid e = r.
Proof. unfold hasId. apply Nat.eqb_eq. Qed.

Lemma find_unique (l : list Elem) e :
  NoDup (map nid l) -> In e l -> find (hasId (nid e)) l = Some e.
Proof.
  induction l as [|x l IH]; simpl; intros N H; [contradiction|].
  inversion N as [|? ? Hx Nl]; subst.
  destruct H as [->|H].
  - unfold hasId. now rewrite Nat.eqb_refl.
  - destruct (hasId (nid e) x) eqn:E; [|now apply IH].
    apply hasId_spec in E. exfalso. apply Hx. rewrite E. now apply in_map.
Qed.

Lemma same_id_same_elem (l : list Elem) e e' :
  NoDup (map nid l) -> In e l -> In e' l -> nid e = nid e' -> e = e'.
Proof.
  intros N H H' E. pose proof (find_unique l e N H) as F.
  pose proof (find_unique l e' N H') as F'. rewrite E in F. congruence.
Qed.

Lemma NoDup_app_l (A : Type) (l1 l2 : list A) : NoDup (l1 ++ l2) -> NoDup l1.
Proof. intros H. now apply NoDup_app_remove_r in H. Qed.

Lemma NoDup_app_r (A : Type) (l1 l2 : list A) : NoDup (l1 ++ l2) -> NoDup l2.
Proof. intros H. now apply NoDup_app_remove_l in H. Qed.

Lemma NoDup_app_disjoint (A : Type) (l1 l2 : list A) x :
  NoDup (l1 ++ l2) -> In x l1 -> In x l2 -> False.
Proof.
  induction l1 as [|y l1 IH]; simpl; intros N H1 H2; [contradiction|].
  inversion N as [|? ? Hy Nl]; subst. destruct H1 as [->|H1].
  - apply Hy. apply in_or_app. now right.
  - now apply IH.
Qed.

(** In a tree whose identities are distinct, a reference resolves to the
    one node that carries the identity. *)
Lemma forest_resolve r ks :
  Forall (fun k => forall q s, NoDup (ids k) -> subtree q k = Some s ->
                   nid (elemOf s) = r -> findPath (hasId r) k = Some q) ks ->
  forall i k q s,
    NoDup (map nid (flat_map elems ks)) ->
    nth_error ks i = Some k -> subtree q k = Some s -> nid (elemOf s) = r ->
    findInKids (findPath (hasId r)) ks = Some (i :: q).
Proof.
  induction 1 as [|k0 ks H0 _ IHks]; intros i k q s N Hi Hs Hr.
  - destruct i; discriminate.
  - cbn [flat_map] in N. rewrite map_app in N. rewrite findInKids_cons.
    destruct i as [|i]; simpl in Hi.
    + injection Hi as ->.
      rewrite (H0 q s (NoDup_app_l _ _ _ N) Hs Hr). reflexivity.
    + assert (F0 : findPath (hasId r) k0 = None).
      { apply findPath_none. apply forallb_forall. intros x Hx.
        destruct (hasId r x) eqn:E; [|reflexivity]. exfalso.
        apply hasId_spec in E.
        apply (NoDup_app_disjoint _ _ _ r N).
        - rewrite <- E. now apply in_map.
        - rewrite <- Hr. apply in_map. apply in_flat_map. exists k.
          split; [now apply nth_error_In in Hi|]. exact (subtree_In _ _ _ Hs). }
      rewrite F0, (IHks i k q s (NoDup_app_r _ _ _ N) Hi Hs Hr). reflexivity.
Qed.

Lemma resolve r : forall n q s,
  NoDup (ids n) -> subtree q n = Some s -> nid (elemOf s) = r ->
  findPath (hasId r) n = Some q.
Proof.
  induction n as [e ks IH] using Node_ind'. intros q s N Hs Hr.
  rewrite findPath_eq. destruct q as [|i q].
  - simpl in Hs. injection Hs as <-. simpl in Hr.
    unfold hasId. rewrite Hr, Nat.eqb_refl. reflexivity.
  - simpl in Hs. destruct (nth_error ks i) as [k|] eqn:Ei; [|discriminate].
    unfold ids in N. rewrite elems_El in N. cbn [map] in N.
    inversion N as [|? ? He Nks]; subst.
    assert (Hin : In (nid (elemOf s)) (map nid (flat_map elems ks))).
    { apply in_map. apply in_flat_map. exists k.
      split; [now apply nth_error_In in Ei|]. exact (subtree_In _ _ _ Hs). }
    destruct (hasId (nid (elemOf s)) e) eqn:E.
    + apply hasId_spec in E. rewrite E in He. contradiction.
    + exact (forest_resolve _ ks IH i k q s Nks Ei Hs eq_refl).
Qed.

(** A child of the parent other than the removed node is still a child
    of the parent afterwards. *)
Lemma nth_error_dropNth (A : Type) (l : list A) i j x :
  nth_error l i = Some x -> i <> j ->
  exists i', nth_error (dropNth j l) i' = Some x.
Proof.
  revert i j. induction l as [|y l IH]; intros [|i] [|j] H Hn; simpl in *;
    try discriminate.
  - lia.
  - now exists 0.
  - now exists i.
  - destruct (IH i j H ltac:(lia)) as [i' Hi']. now exists (S i').
Qed.

Lemma kid_survives (n : Node) i f p s :
  nth_error (kidsOf n) i = Some f ->
  p <> [] -> subtree p n = Some s -> elemOf s <> elemOf f ->
  exists i' f', nth_error (kidsOf (removeAt p n)) i' = Some f'
                /\ elemOf f' = elemOf f.
Proof.
  intros Hi Hp Hs Hne. destruct p as [|j [|j' p]]; [now elim Hp| |].
  - rewrite removeAt_single. cbn [kidsOf].
    assert (i <> j).
    { intros ->. simpl in Hs. rewrite Hi in Hs. injection Hs as ->. now elim Hne. }
    destruct (nth_error_dropNth _ _ i j f Hi H) as [i' Hi']. now exists i', f.
  - rewrite removeAt_deeper. cbn [kidsOf].
    destruct (Nat.eq_dec j i) as [->|Hji].
    + exists i, (removeAt (j' :: p) f).
      split; [now apply nth_error_updateNth_same|apply elemOf_removeAt].
    + exists i, f. split; [|reflexivity].
      rewrite nth_error_updateNth_other by exact Hji. exact Hi.
Qed.

(** ** [validateField], run *)

Lemma findPath_mapElems sel h :
  (forall e, sel (h e) = sel e) ->
  forall n, findPath sel (mapElems h n) = findPath sel n.
Proof.
  intros Hs. induction n as [e ks IH] using Node_ind'.
  cbn [mapElems]. rewrite !findPath_eq, Hs. destruct (sel e); [reflexivity|].
  induction IH as [|k ks Hk _ IHks]; [reflexivity|].
  cbn [map]. rewrite !findInKids_cons, Hk, IHks. reflexivity.
Qed.

Lemma nid_onElem r g e : (forall x, nid (g x) = nid x) -> nid (onElem r g e) = nid e.
Proof. intros H. unfold onElem. destruct (hasId r e); [apply H|reflexivity]. Qed.

Lemma ids_mapElems h n : (forall e, nid (h e) = nid e) -> ids (mapElems h n) = ids n.
Proof.
  intros H. unfold ids. rewrite elems_mapElems, map_map.
  apply map_ext. exact H.
Qed.

Lemma sel_onElem (sel : selector) r g e :
  (forall x, sel (g x) = sel x) -> sel (onElem r g e) = sel e.
Proof. intros H. unfold onElem. destruct (hasId r e); [apply H|reflexivity]. Qed.

Lemma isErrorMessage_remove e :
  isErrorMessage (withClassList (remove "error") e) = isErrorMessage e.
Proof.
  unfold isErrorMessage, selClass. cbn [classList withClassList].
  apply contains_remove_other. discriminate.
Qed.

Lemma isErrorMessage_add e :
  isErrorMessage (withClassList (add "error") e) = isErrorMessage e.
Proof.
  unfold isErrorMessage, selClass. cbn [classList withClassList].
  apply contains_add_other. discriminate.
Qed.

Lemma NoDup_drop_middle (A : Type) (l1 l2 l3 : list A) :
  NoDup (l1 ++ l2 ++ l3) -> NoDup (l1 ++ l3).
Proof.
  induction l2 as [|x l2 IH]; [trivial|].
  intros H. apply IH. now apply NoDup_remove_1 in H.
Qed.

Lemma NoDup_drop_inner (A : Type) (a : list A) x b c d e :
  NoDup (a ++ (x :: b ++ c ++ d) ++ e) -> NoDup (a ++ (x :: b ++ d) ++ e).
Proof.
  intros H.
  replace (a ++ (x :: b ++ d) ++ e) with ((a ++ x :: b) ++ (d ++ e))
    by (rewrite <- !app_assoc; cbn [app]; now rewrite <- !app_assoc).
  apply (NoDup_drop_middle _ _ c).
  replace ((a ++ x :: b) ++ c ++ d ++ e) with (a ++ (x :: b ++ c ++ d) ++ e)
    by (rewrite <- !app_assoc; cbn [app]; now rewrite <- !app_assoc).
  exact H.
Qed.

Lemma removelast_snoc (A : Type) (l : list A) x : removelast (l ++ [x]) = l.
Proof. apply removelast_last. Qed.

Lemma parentElement_run t n r parent i fn :
  NoDup (ids t) -> subtree (parent ++ [i]) t = Some fn -> nid (elemOf fn) = r ->
  parentElement r (mkDoc t n) = (Ok parent, mkDoc t n).
Proof.
  intros N Hs Hr. unfold parentElement. cbn [tree].
  rewrite (resolve r t _ fn N Hs Hr).
  destruct (parent ++ [i]) as [|j q] eqn:E.
  - now apply app_eq_nil in E as [_ ?].
  - rewrite <- E, removelast_snoc. reflexivity.
Qed.

(** What clearing the prior error state leaves in place. *)
Lemma cleared_keeps t field parent f :
  FieldIn t field parent f ->
  NoDup (ids (cleared field parent t))
  /\ exists i fn,
      subtree (parent ++ [i]) (cleared field parent t) = Some fn
      /\ nid (elemOf fn) = field.
Proof.
  intros (N & Hid & Hne & pn & i & fn & Hp & Hi & Hf).
  unfold cleared.
  set (h := onElem field (withClassList (remove "error"))).
  assert (Hh : forall e, nid (h e) = nid e)
    by (intros e; apply nid_onElem; reflexivity).
  assert (N1 : NoDup (ids (mapElems h t))) by (now rewrite ids_mapElems).
  rewrite subtree_mapElems, Hp. cbn [option_map].
  assert (Hi1 : nth_error (kidsOf (mapElems h pn)) i = Some (mapElems h fn)).
  { rewrite kidsOf_mapElems, nth_error_map, Hi. reflexivity. }
  assert (Hp1 : subtree parent (mapElems h t) = Some (mapElems h pn)).
  { rewrite subtree_mapElems, Hp. reflexivity. }
  destruct (findBelow isErrorMessage (mapElems h pn)) as [q|] eqn:Fq.
  - destruct (findBelow_first _ _ _ Fq)
      as (s & pre & post & Q0 & Q1 & Q2 & Q3 & Q4 & Q5).
    rewrite removeAt_app by exact Q0.
    destruct (elems_at _ _ _ Hp1) as (pre0 & post0 & E1 & E2 & _).
    split.
    + unfold ids. rewrite E2, Q5.
      unfold ids in N1. rewrite E1 in N1.
      destruct (mapElems h pn) as [ep kp] eqn:Epn. cbn [elemOf].
      rewrite elems_El in N1. unfold descendants in Q3. cbn [kidsOf] in Q3.
      rewrite Q3 in N1.
      rewrite !map_app in *. cbn [map] in *. rewrite !map_app in *.
      exact (NoDup_drop_inner _ _ _ _ _ _ _ N1).
    + destruct (kid_survives (mapElems h pn) i (mapElems h fn) q s Hi1 Q0 Q1)
        as (i' & fn' & K1 & K2).
      { intros C. rewrite elemOf_mapElems, Hf in C.
        assert (X : isErrorMessage (h f) = true) by (now rewrite <- C).
        unfold h in X. rewrite sel_onElem in X by apply isErrorMessage_remove.
        congruence. }
      exists i', fn'. split.
      * rewrite subtree_app, (subtree_modifyAt _ _ _ _ Hp1). cbn [subtree].
        now rewrite K1.
      * rewrite K2, elemOf_mapElems, Hf, Hh. exact Hid.
  - split; [exact N1|]. exists i, (mapElems h fn). split.
    + rewrite subtree_app, Hp1. cbn [subtree]. now rewrite Hi1.
    + rewrite elemOf_mapElems, Hf, Hh. exact Hid.
Qed.

Lemma bind_ok (A B : Type) (m : M A) (k : A -> M B) d a d' :
  m d = (Ok a, d') -> bind m k d = k a d'.
Proof. intros H. unfold bind. now rewrite H. Qed.

Lemma showFieldError_run t n field parent message :
  NoDup (ids t) ->
  (exists i fn, subtree (parent ++ [i]) t = Some fn /\ nid (elemOf fn) = field) ->
  showFieldError field message (mkDoc t n)
  = (Ok tt, mkDoc (decorated field parent n message t) (S n)).
Proof.
  intros N (i & fn & Hs & Hr).
  set (h := onElem field (withClassList (add "error"))).
  assert (Hh : forall e, nid (h e) = nid e)
    by (intros e; apply nid_onElem; reflexivity).
  unfold showFieldError.
  erewrite bind_ok by reflexivity.
  erewrite bind_ok by reflexivity.
  erewrite bind_ok.
  2:{ apply (parentElement_run (mapElems h t) (S n) field parent i (mapElems h fn)).
      - now rewrite ids_mapElems.
      - rewrite subtree_mapElems, Hs. reflexivity.
      - now rewrite elemOf_mapElems, Hh. }
  reflexivity.
Qed.

Lemma fail_run t n field parent message :
  NoDup (ids t) ->
  (exists i fn, subtree (parent ++ [i]) t = Some fn /\ nid (elemOf fn) = field) ->
  (showFieldError field message ;; ret false)%dom (mkDoc t n)
  = (Ok false, mkDoc (decorated field parent n message t) (S n)).
Proof.
  intros N K.
  rewrite (bind_ok _ _ _ _ _ _ _ (showFieldError_run t n field parent message N K)).
  reflexivity.
Qed.

Lemma validateField_run t n field parent f :
  FieldIn t field parent f ->
  validateField field (mkDoc t n)
  = (Ok (isValid f), validated field parent f (mkDoc t n)).
Proof.
  intros HF. pose proof (cleared_keeps _ _ _ _ HF) as (N2 & K).
  destruct HF as (N & Hid & Hne & pn & i & fn & Hp & Hi & Hf).
  assert (Hs : subtree (parent ++ [i]) t = Some fn).
  { rewrite subtree_app, Hp. cbn [subtree]. now rewrite Hi. }
  set (h := onElem field (withClassList (remove "error"))).
  assert (Hh : forall e, nid (h e) = nid e)
    by (intros e; apply nid_onElem; reflexivity).
  assert (Hp1 : subtree parent (mapElems h t) = Some (mapElems h pn))
    by (rewrite subtree_mapElems, Hp; reflexivity).
  unfold validateField.
  (* the properties read first *)
  erewrite bind_ok.
  2:{ unfold getElem. cbn [tree]. rewrite <- Hid.
      rewrite (find_unique (elems t) f N); [reflexivity|].
      rewrite <- Hf. exact (subtree_In _ _ _ Hs). }
  cbv zeta.
  (* the prior error state is removed *)
  erewrite bind_ok by reflexivity.
  erewrite bind_ok.
  2:{ apply (parentElement_run (mapElems h t) n field parent i (mapElems h fn)).
      - now rewrite ids_mapElems.
      - rewrite subtree_mapElems, Hs. reflexivity.
      - rewrite elemOf_mapElems, Hh, Hf. exact Hid. }
  erewrite bind_ok.
  2:{ unfold querySelector. cbn [tree]. rewrite Hp1. reflexivity. }
  erewrite bind_ok with (d' := mkDoc (cleared field parent t) n) (a := tt).
  2:{ unfold cleared. fold h. rewrite Hp1. fold isErrorMessage.
      destruct (findBelow isErrorMessage (mapElems h pn)); reflexivity. }
  (* the rules, in order *)
  unfold validated, isValid, firstFailure. cbn [tree nextId].
  destruct (required f && negb (truthy (trim (value f)))).
  { now apply fail_run. }
  destruct ((type_ f =? "email")%string && truthy (trim (value f))) eqn:Em.
  - cbn [andb]. destruct (negb (test emailRegex (trim (value f)))).
    { now apply fail_run. }
    destruct ((type_ f =? "tel")%string && truthy (trim (value f))).
    + cbn [andb].
      destruct (negb (test phoneRegex (replaceAllClass phoneSeparator (trim (value f))))).
      { now apply fail_run. }
      reflexivity.
    + reflexivity.
  - cbn [andb]. destruct ((type_ f =? "tel")%string && truthy (trim (value f))).
    + cbn [andb].
      destruct (negb (test phoneRegex (replaceAllClass phoneSeparator (trim (value f))))).
      { now apply fail_run. }
      reflexivity.
    + reflexivity.
Qed.

(** ** Counting elements *)

Lemma count_app sel l1 l2 : count sel (l1 ++ l2) = count sel l1 + count sel l2.
Proof. unfold count. now rewrite filter_app, length_app. Qed.

Lemma count_map sel h l :
  (forall e, sel (h e) = sel e) -> count sel (map h l) = count sel l.
Proof.
  intros H. unfold count. induction l as [|x l IH]; [reflexivity|].
  cbn [map filter]. rewrite H. destruct (sel x); cbn [List.length]; now rewrite IH.
Qed.

Lemma count_none sel l :
  forallb (fun e => negb (sel e)) l = true -> count sel l = 0.
Proof.
  unfold count. induction l as [|x l IH]; [reflexivity|].
  cbn [forallb filter]. intros H. apply andb_true_iff in H as [H1 H2].
  apply negb_true_iff in H1. rewrite H1. now apply IH.
Qed.

Lemma count_cons sel e l :
  count sel (e :: l) = (if sel e then 1 else 0) + count sel l.
Proof. unfold count. cbn [filter]. now destruct (sel e). Qed.

Lemma elems_descendants n : elems n = elemOf n :: descendants n.
Proof. now destruct n. Qed.

Lemma descendants_mapElems h n :
  descendants (mapElems h n) = map h (descendants n).
Proof.
  pose proof (elems_mapElems h n) as E.
  rewrite (elems_descendants (mapElems h n)), (elems_descendants n) in E.
  cbn [map] in E. now injection E.
Qed.

(** ** What [validateField] leaves below the parent *)

Lemma isErrorMessage_hRemove field e :
  isErrorMessage (onElem field (withClassList (remove "error")) e)
  = isErrorMessage e.
Proof. apply sel_onElem. apply isErrorMessage_remove. Qed.

Lemma isErrorMessage_hAdd field e :
  isErrorMessage (onElem field (withClassList (add "error")) e)
  = isErrorMessage e.
Proof. apply sel_onElem. apply isErrorMessage_add. Qed.

Lemma cleared_parent t field parent pn :
  subtree parent t = Some pn ->
  exists pc,
    subtree parent (cleared field parent t) = Some pc
    /\ count isErrorMessage (descendants pc)
       <= count isErrorMessage (descendants pn)
    /\ (count isErrorMessage (descendants pn) <= 1 ->
        count isErrorMessage (descendants pc) = 0)
    /\ count isErrorMessage (elems (cleared field parent t))
       <= count isErrorMessage (elems t).
Proof.
  intros Hp. unfold cleared.
  set (h := onElem field (withClassList (remove "error"))).
  assert (Hp1 : subtree parent (mapElems h t) = Some (mapElems h pn))
    by (rewrite subtree_mapElems, Hp; reflexivity).
  assert (Hc : forall l, count isErrorMessage (map h l) = count isErrorMessage l)
    by (intros l; apply count_map; apply isErrorMessage_hRemove).
  rewrite Hp1.
  destruct (findBelow isErrorMessage (mapElems h pn)) as [q|] eqn:Fq.
  - destruct (findBelow_first _ _ _ Fq)
      as (s & pre & post & Q0 & Q1 & Q2 & Q3 & Q4 & Q5).
    rewrite removeAt_app by exact Q0.
    exists (removeAt q (mapElems h pn)).
    destruct (elems_at _ _ _ Hp1) as (pre0 & post0 & E1 & E2 & _).
    assert (D : descendants (removeAt q (mapElems h pn)) = pre ++ post).
    { rewrite elems_descendants in Q5. now injection Q5. }
    rewrite descendants_mapElems in Q3.
    assert (Cs : 1 <= count isErrorMessage (elems s)).
    { rewrite elems_descendants, count_cons, Q2. lia. }
    assert (Cd : count isErrorMessage (descendants pn)
                 = count isErrorMessage (elems s) + count isErrorMessage post).
    { rewrite <- Hc, Q3, !count_app, (count_none _ _ Q4). lia. }
    split; [now apply subtree_modifyAt|].
    rewrite D, count_app, (count_none _ _ Q4).
    split; [lia|]. split; [lia|].
    rewrite E2, <- (Hc (elems t)), <- elems_mapElems, E1, !count_app.
    rewrite (elems_descendants (removeAt _ _)), D, elemOf_removeAt.
    rewrite (elems_descendants (mapElems h pn)), descendants_mapElems, Q3.
    rewrite !count_cons, !count_app. lia.
  - exists (mapElems h pn). split; [exact Hp1|].
    apply findBelow_none in Fq. rewrite (count_none _ _ Fq).
    split; [lia|]. split; [reflexivity|].
    rewrite elems_mapElems, Hc. lia.
Qed.

Lemma decorated_parent t field parent n message pc :
  subtree parent t = Some pc ->
  subtree parent (decorated field parent n message t)
  = Some (appendKid (errorNode n message)
            (mapElems (onElem field (withClassList (add "error"))) pc))
  /\ count isErrorMessage (elems (decorated field parent n message t))
     = count isErrorMessage (elems t) + 1
  /\ count isErrorMessage
       (descendants (appendKid (errorNode n message)
          (mapElems (onElem field (withClassList (add "error"))) pc)))
     = count isErrorMessage (descendants pc) + 1.
Proof.
  intros Hp. unfold decorated.
  set (h := onElem field (withClassList (add "error"))).
  assert (Hp1 : subtree parent (mapElems h t) = Some (mapElems h pc))
    by (rewrite subtree_mapElems, Hp; reflexivity).
  assert (Hc : forall l, count isErrorMessage (map h l) = count isErrorMessage l)
    by (intros l; apply count_map; apply isErrorMessage_hAdd).
  assert (A : forall m, descendants (appendKid (errorNode n message) m)
                        = descendants m ++ [errorDiv (newDiv n) message]).
  { intros m. unfold descendants, appendKid. cbn [kidsOf].
    rewrite flat_map_app. cbn [flat_map errorNode elems]. reflexivity. }
  split; [now apply subtree_modifyAt|].
  destruct (elems_at _ _ _ Hp1) as (pre0 & post0 & E1 & E2 & _).
  split.
  - rewrite E2, <- (Hc (elems t)), <- elems_mapElems, E1, !count_app.
    rewrite (elems_descendants (appendKid _ _)), A,
      (elems_descendants (mapElems h pc)).
    cbn [appendKid elemOf]. rewrite !count_cons, !count_app.
    cbn. lia.
  - rewrite A, count_app, descendants_mapElems, Hc. reflexivity.
Qed.

(** Clearing leaves the field where it is: a child of the same parent,
    without the class "error". *)
Lemma cleared_FieldIn t field parent f :
  FieldIn t field parent f ->
  FieldIn (cleared field parent t) field parent (hRemove field f).
Proof.
  intros HF. destruct (cleared_keeps t field parent f HF) as (N2 & _).
  destruct HF as (N & Hid & Hne & pn & i & fn & Hp & Hi & Hf).
  split; [exact N2|]. unfold hRemove.
  set (h := onElem field (withClassList (remove "error"))).
  assert (Hh : forall e, nid (h e) = nid e)
    by (intros e; apply nid_onElem; reflexivity).
  split; [now rewrite Hh|].
  split; [unfold h; now rewrite isErrorMessage_hRemove|].
  assert (Hi1 : nth_error (kidsOf (mapElems h pn)) i = Some (mapElems h fn)).
  { rewrite kidsOf_mapElems, nth_error_map, Hi. reflexivity. }
  assert (Hp1 : subtree parent (mapElems h t) = Some (mapElems h pn)).
  { rewrite subtree_mapElems, Hp. reflexivity. }
  unfold cleared. fold h. rewrite Hp1.
  destruct (findBelow isErrorMessage (mapElems h pn)) as [q|] eqn:Fq.
  - destruct (findBelow_first _ _ _ Fq)
      as (s & pre & post & Q0 & Q1 & Q2 & Q3 & Q4 & Q5).
    rewrite removeAt_app by exact Q0.
    destruct (kid_survives (mapElems h pn) i (mapElems h fn) q s Hi1 Q0 Q1)
      as (i' & fn' & K1 & K2).
    { intros C. rewrite elemOf_mapElems, Hf in C.
      assert (X : isErrorMessage (h f) = true) by (now rewrite <- C).
      unfold h in X. rewrite isErrorMessage_hRemove in X. congruence. }
    exists (removeAt q (mapElems h pn)), i', fn'.
    split; [now apply subtree_modifyAt|]. split; [exact K1|].
    now rewrite K2, elemOf_mapElems, Hf.
  - exists (mapElems h pn), i, (mapElems h fn).
    split; [exact Hp1|]. split; [exact Hi1|].
    now rewrite elemOf_mapElems, Hf.
Qed.

(** No error message below a node: [querySelector] finds none. *)
Lemma count_zero_findBelow (sel : selector) n :
  count sel (descendants n) = 0 -> findBelow sel n = None.
Proof.
  intros H. destruct (findBelow sel n) as [q|] eqn:Fq; [|reflexivity].
  destruct (findBelow_first _ _ _ Fq)
    as (s & pre & post & Q0 & Q1 & Q2 & Q3 & Q4 & Q5).
  rewrite Q3, !count_app, (elems_descendants s), count_cons, Q2 in H. lia.
Qed.

(** ** The rules of [validateField] *)

Lemma nodupb_NoDup l : nodupb l = true -> NoDup l.
Proof.
  induction l as [|x l IH]; cbn [nodupb]; intros H; [constructor|].
  apply andb_true_iff in H as [H1 H2]. constructor; [|now apply IH].
  intros Hin. apply negb_true_iff in H1.
  assert (existsb (Nat.eqb x) l = true); [|congruence].
  apply existsb_exists. exists x. split; [exact Hin|apply Nat.eqb_refl].
Qed.

Lemma truthy_spec v : truthy v = true <-> v <> [].
Proof. destruct v; cbn; split; congruence. Qed.

Lemma firstFailure_required f :
  required f = true -> trim (value f) = [] ->
  firstFailure f = Some msgRequired.
Proof. intros R E. unfold firstFailure. now rewrite R, E. Qed.

Lemma firstFailure_optional_empty f :
  required f = false -> trim (value f) = [] -> firstFailure f = None.
Proof.
  intros R E. unfold firstFailure. rewrite R, E. cbn.
  now rewrite !andb_false_r.
Qed.

Lemma firstFailure_email f :
  type_ f = "email"%string -> trim (value f) <> [] ->
  firstFailure f
  = if test emailRegex (trim (value f)) then None else Some msgEmail.
Proof.
  intros T E. apply truthy_spec in E. unfold firstFailure.
  rewrite T, E. cbn. rewrite andb_false_r. cbn.
  now destruct (test emailRegex (trim (value f))).
Qed.

Lemma firstFailure_tel f :
  type_ f = "tel"%string -> trim (value f) <> [] ->
  firstFailure f
  = if test phoneRegex (replaceAllClass phoneSeparator (trim (value f)))
    then None else Some msgPhone.
Proof.
  intros T E. apply truthy_spec in E. unfold firstFailure.
  rewrite T, E. cbn. rewrite andb_false_r. cbn.
  now destruct (test phoneRegex _).
Qed.

Lemma kidsOf_appendKid c n : kidsOf (appendKid c n) = kidsOf n ++ [c].
Proof. reflexivity. Qed.

Lemma FieldIn_parent t field parent f :
  FieldIn t field parent f -> exists pn, subtree parent t = Some pn.
Proof. intros (_ & _ & _ & pn & _ & _ & H & _). eauto. Qed.

Lemma firstFailure_onClass field g f :
  firstFailure (onElem field (withClassList g) f) = firstFailure f.
Proof. unfold onElem. now destruct (hasId field f). Qed.

Lemma hRemove_field field f :
  nid f = field -> hRemove field f = withClassList (remove "error") f.
Proof.
  intros H. unfold hRemove, onElem.
  now rewrite (proj2 (hasId_spec field f) H).
Qed.

(** A field that fails a rule is reported with the message of the first
    rule it fails. *)
Lemma validateField_reports t n field parent f message :
  FieldIn t field parent f -> firstFailure f = Some message ->
  Reports (validateField field (mkDoc t n)) field parent message.
Proof.
  intros HF Hm. rewrite (validateField_run t n field parent f HF).
  unfold Reports, isValid, validated. rewrite Hm. cbn [fst snd tree nextId].
  split; [reflexivity|].
  destruct (cleared_FieldIn t field parent f HF)
    as (_ & Hid & _ & pc & i & fn & Hc & Hi & Hf).
  destruct (decorated_parent _ field parent n message pc Hc) as (Hd & _).
  set (h := onElem field (withClassList (add "error"))) in *.
  exists (appendKid (errorNode n message) (mapElems h pc)),
    (map (mapElems h) (kidsOf pc)), (errorDiv (newDiv n) message).
  split; [exact Hd|].
  split; [now rewrite kidsOf_appendKid, kidsOf_mapElems|].
  split; [reflexivity|]. split; [reflexivity|]. split; [reflexivity|].
  split; [reflexivity|].
  exists i, (mapElems h fn).
  split; [now rewrite nth_error_map, Hi|].
  rewrite elemOf_mapElems, Hf. unfold h, onElem.
  rewrite (proj2 (hasId_spec field _) Hid). cbn [nid withClassList classList].
  split; [exact Hid|apply contains_add_same].
Qed.

Lemma validateField_passes t n field parent f :
  FieldIn t field parent f -> firstFailure f = None ->
  validateField field (mkDoc t n)
  = (Ok true, mkDoc (cleared field parent t) n).
Proof.
  intros HF Hm. rewrite (validateField_run t n field parent f HF).
  unfold isValid, validated. now rewrite Hm.
Qed.

Lemma Reports_false out field parent message :
  Reports out field parent message -> fst out = Ok false.
Proof. now intros [H _]. Qed.

(** C5: for a field of declared type "email" with a non-empty trimmed
    value v, validateField reports the field invalid, appending an
    element whose text is "Please enter a valid email address", iff v does
    not match the e-mail pattern; an empty non-required email field is
    valid. *)
Theorem email_rule (t : Node) (n field : nat) (parent : path) (f : Elem) :
  FieldIn t field parent f ->
  type_ f = "email"%string ->
  let v := trim (value f) in
  let out := validateField field (mkDoc t n) in
  (v <> [] ->
     (Reports out field parent "Please enter a valid email address"
      <-> test emailRegex v = false)
     /\ (fst out = Ok false <-> test emailRegex v = false)
     /\ (fst out = Ok true <-> test emailRegex v = true))
  /\ (v = [] -> required f = false -> fst out = Ok true).
Proof.
  intros HF T v out. split.
  - intros Hv. pose proof (firstFailure_email f T Hv) as FF. fold v in FF.
    assert (R : fst out = Ok (test emailRegex v)).
    { unfold out. rewrite (validateField_run t n field parent f HF).
      unfold isValid. rewrite FF. now destruct (test emailRegex v). }
    split; [|split].
    + split.
      * intros H. apply Reports_false in H. rewrite R in H.
        now injection H.
      * intros H. rewrite H in FF.
        exact (validateField_reports t n field parent f msgEmail HF FF).
    + rewrite R. split; [now intros [= ->]|now intros ->].
    + rewrite R. split; [now intros [= ->]|now intros ->].
  - intros Hv Rq. unfold out.
    rewrite (validateField_passes t n field parent f HF
               (firstFailure_optional_empty f Rq Hv)).
    reflexivity.
Qed.

(** C6: for a field of declared type "tel" with a non-empty trimmed value
    v, validateField reports the field invalid, appending an element whose
    text is "Please enter a valid phone number", iff v without white
    space, hyphens and parentheses does not match the phone pattern. *)
Theorem phone_rule (t : Node) (n field : nat) (parent : path) (f : Elem) :
  FieldIn t field parent f ->
  type_ f = "tel"%string ->
  trim (value f) <> [] ->
  let stripped := replaceAllClass phoneSeparator (trim (value f)) in
  let out := validateField field (mkDoc t n) in
  (Reports out field parent "Please enter a valid phone number"
   <-> test phoneRegex stripped = false)
  /\ (fst out = Ok false <-> test phoneRegex stripped = false)
  /\ (fst out = Ok true <-> test phoneRegex stripped = true).
Proof.
  intros HF T Hv stripped out.
  pose proof (firstFailure_tel f T Hv) as FF. fold stripped in FF.
  assert (R : fst out = Ok (test phoneRegex stripped)).
  { unfold out. rewrite (validateField_run t n field parent f HF).
    unfold isValid. rewrite FF. now destruct (test phoneRegex stripped). }
  split; [|split].
  - split.
    + intros H. apply Reports_false in H. rewrite R in H. now injection H.
    + intros H. rewrite H in FF.
      exact (validateField_reports t n field parent f msgPhone HF FF).
  - rewrite R. split; [now intros [= ->]|now intros ->].
  - rewrite R. split; [now intros [= ->]|now intros ->].
Qed.

Lemma emailForm_field req v :
  FieldIn (emailForm req v) 2 [0] (inputEl 2 "email" req v).
Proof.
  split; [apply nodupb_NoDup; reflexivity|].
  split; [reflexivity|]. split; [reflexivity|].
  exists (plain 1 "div" [input 2 "email" req v]), 0, (input 2 "email" req v).
  repeat split.
Qed.

Lemma telForm_field req v :
  FieldIn (telForm req v) 2 [0] (inputEl 2 "tel" req v).
Proof.
  split; [apply nodupb_NoDup; reflexivity|].
  split; [reflexivity|]. split; [reflexivity|].
  exists (plain 1 "div" [input 2 "tel" req v]), 0, (input 2 "tel" req v).
  repeat split.
Qed.

Lemma email_rule_witness :
  Reports (validateField 2 (mkDoc (emailForm false "a@b") 10)) 2 [0]
    "Please enter a valid email address"
  /\ fst (validateField 2 (mkDoc (emailForm false "a@b.co") 10)) = Ok true
  /\ fst (validateField 2 (mkDoc (emailForm false EmptyString) 10)) = Ok true.
Proof.
  split; [|split].
  - destruct (email_rule (emailForm false "a@b") 10 2 [0] _
                (emailForm_field false "a@b") eq_refl) as [H _].
    destruct H as [[_ H] _]; [discriminate|]. apply H. reflexivity.
  - destruct (email_rule (emailForm false "a@b.co") 10 2 [0] _
                (emailForm_field false "a@b.co") eq_refl) as [H _].
    destruct H as [_ [_ [_ H]]]; [discriminate|]. apply H. reflexivity.
  - destruct (email_rule (emailForm false EmptyString) 10 2 [0] _
                (emailForm_field false EmptyString) eq_refl) as [_ H].
    apply H; reflexivity.
Defined.

Lemma phone_rule_witness :
  Reports (validateField 2 (mkDoc (telForm false "0123") 10)) 2 [0]
    "Please enter a valid phone number"
  /\ fst (validateField 2 (mkDoc (telForm false "+1 (555) 123-4567") 10)) = Ok true.
Proof.
  split.
  - destruct (phone_rule (telForm false "0123") 10 2 [0] _
                (telForm_field false "0123") eq_refl) as [[_ H] _];
      [discriminate|]. apply H. reflexivity.
  - destruct (phone_rule (telForm false "+1 (555) 123-4567") 10 2 [0] _
                (telForm_field false "+1 (555) 123-4567") eq_refl)
      as [_ [_ [_ H]]]; [discriminate|]. apply H. reflexivity.
Defined.

(** C10: one call of validateField creates and inserts at most one
    error-message element; a required field with an empty trimmed value
    gets "This field is required" whatever its declared type, and an empty
    value reaches neither the e-mail nor the phone rule; the call returns
    false exactly when a rule fails, with the message of the first one. *)
Theorem validateField_precedence (t : Node) (n field : nat) (parent : path)
    (f : Elem) :
  FieldIn t field parent f ->
  let out := validateField field (mkDoc t n) in
  nextId (snd out) <= S n
  /\ count isErrorMessage (elems (tree (snd out)))
     <= count isErrorMessage (elems t) + 1
  /\ (required f = true -> trim (value f) = [] ->
      Reports out field parent "This field is required")
  /\ (required f = false -> trim (value f) = [] -> fst out = Ok true)
  /\ (forall message, firstFailure f = Some message ->
      Reports out field parent message)
  /\ (firstFailure f = None -> fst out = Ok true).
Proof.
  intros HF out.
  destruct (FieldIn_parent _ _ _ _ HF) as [pn Hp].
  destruct (cleared_parent t field parent pn Hp) as (pc & Hc & _ & _ & Cc).
  assert (R : out = (Ok (isValid f), validated field parent f (mkDoc t n)))
    by (apply validateField_run; exact HF).
  split; [|split; [|split; [|split; [|split]]]].
  - rewrite R. unfold validated. cbn [snd nextId].
    destruct (firstFailure f); cbn [nextId]; lia.
  - rewrite R. unfold validated. cbn [snd tree nextId].
    destruct (firstFailure f) as [m|]; cbn [tree].
    + destruct (decorated_parent _ field parent n m pc Hc) as (_ & D & _).
      rewrite D. lia.
    + lia.
  - intros Rq E. apply (validateField_reports t n field parent f); [exact HF|].
    now apply firstFailure_required.
  - intros Rq E. rewrite R. unfold isValid.
    now rewrite (firstFailure_optional_empty f Rq E).
  - intros m Hm. now apply (validateField_reports t n field parent f).
  - intros Hm. rewrite R. unfold isValid. now rewrite Hm.
Qed.

Lemma validateField_precedence_witness :
  Reports (validateField 2 (mkDoc (emailForm true "   ") 10)) 2 [0]
    "This field is required"
  /\ Reports (validateField 2 (mkDoc (telForm true EmptyString) 10)) 2 [0]
       "This field is required".
Proof.
  split.
  - apply (validateField_precedence (emailForm true "   ") 10 2 [0] _
             (emailForm_field true "   ")); reflexivity.
  - apply (validateField_precedence (telForm true EmptyString) 10 2 [0] _
             (telForm_field true EmptyString)); reflexivity.
Defined.

(** C7, as the code does it: the message element of a field that fails
    validation is appended as the last child of the field's parent; when
    the subtree of the parent held at most one error-message element
    before the call, it holds exactly one after it. *)
Theorem error_message_appended (t : Node) (n field : nat) (parent : path)
    (f : Elem) (pn : Node) (message : string) :
  FieldIn t field parent f ->
  subtree parent t = Some pn ->
  firstFailure f = Some message ->
  let out := validateField field (mkDoc t n) in
  exists pc ks,
    subtree parent (tree (snd out)) = Some pc
    /\ kidsOf pc = ks ++ [errorNode n message]
    /\ (count isErrorMessage (descendants pn) <= 1 ->
        count isErrorMessage (descendants pc) = 1).
Proof.
  intros HF Hp Hm out. unfold out.
  rewrite (validateField_run t n field parent f HF).
  unfold validated. rewrite Hm. cbn [snd tree nextId].
  destruct (cleared_parent t field parent pn Hp) as (pc & Hc & _ & Z & _).
  destruct (decorated_parent _ field parent n message pc Hc) as (Hd & _ & D).
  eexists. eexists. split; [exact Hd|]. split; [apply kidsOf_appendKid|].
  intros H1. rewrite D, (Z H1). reflexivity.
Qed.

Lemma error_message_appended_witness :
  exists pc ks,
    subtree [0] (tree (snd (validateField 2 (mkDoc (emailForm true "x") 10))))
    = Some pc
    /\ kidsOf pc = ks ++ [errorNode 10 msgEmail]
    /\ count isErrorMessage (descendants pc) = 1.
Proof.
  destruct (error_message_appended (emailForm true "x") 10 2 [0] _
              (plain 1 "div" [input 2 "email" true "x"]) msgEmail
              (emailForm_field true "x") eq_refl eq_refl)
    as (pc & ks & H1 & H2 & H3).
  exists pc, ks. split; [exact H1|]. split; [exact H2|].
  apply H3. cbn. lia.
Defined.

(** C7 fails as stated: in a group that holds two required empty fields
    and a hint, a validation pass leaves both fields marked but one
    message only, the second field's; it is the last child of the group,
    behind the hint, and the first field's message was removed when the
    second field was validated. *)
Lemma shared_parent_loses_message :
  let out := validateForm (mkDoc sharedGroupForm 10) in
  fst out = Ok false
  /\ option_map kidsOf (subtree [0] (tree (snd out)))
     = Some [El (withClassList (add "error") (inputEl 2 "text" true EmptyString)) [];
             El (withClassList (add "error") (inputEl 3 "text" true EmptyString)) [];
             plain 4 "small" [];
             errorNode 11 msgRequired]
  /\ count (selClass "error") (elems (tree (snd out))) = 2
  /\ count isErrorMessage (elems (tree (snd out))) = 1.
Proof. vm_compute. repeat split. Qed.

Lemma withClassList_id g e :
  g (classList e) = classList e -> withClassList g e = e.
Proof. destruct e. unfold withClassList. cbn. now intros ->. Qed.

Lemma cleared_undecorated t field parent f pn :
  FieldIn t field parent f ->
  subtree parent t = Some pn ->
  contains "error" (classList f) = false ->
  findBelow isErrorMessage pn = None ->
  cleared field parent t = t.
Proof.
  intros (N & Hid & Hne & pn' & i & fn & Hp' & Hi & Hf) Hp Hc Hb.
  rewrite Hp in Hp'. injection Hp' as <-.
  assert (Hin : In f (elems t)).
  { rewrite <- Hf. apply (subtree_In (parent ++ [i])).
    rewrite subtree_app, Hp. cbn [subtree]. now rewrite Hi. }
  assert (E : mapElems (onElem field (withClassList (remove "error"))) t = t).
  { apply mapElems_id. intros e He. unfold onElem.
    destruct (hasId field e) eqn:Hh; [|reflexivity].
    apply hasId_spec in Hh.
    assert (e = f) as ->.
    { apply (same_id_same_elem (elems t)); [exact N|exact He|exact Hin|congruence]. }
    apply withClassList_id. now apply remove_absent. }
  unfold cleared. rewrite E, Hp, Hb. reflexivity.
Qed.

(** C8, as the code does it: for a valid field whose parent holds at
    most one error-message element in its subtree, validating twice gives
    what validating once gives: true, no element created, no
    error-message element below the parent, and the field, still a child
    of the parent, without the class "error"; a field that carried
    neither decoration is left as it was. *)
Theorem validate_valid_twice (t : Node) (n field : nat) (parent : path)
    (f : Elem) (pn : Node) :
  FieldIn t field parent f ->
  subtree parent t = Some pn ->
  firstFailure f = None ->
  count isErrorMessage (descendants pn) <= 1 ->
  let once := validateField field (mkDoc t n) in
  let twice := (validateField field ;; validateField field)%dom (mkDoc t n) in
  fst once = Ok true
  /\ twice = once
  /\ nextId (snd twice) = n
  /\ (exists pc i fn,
        subtree parent (tree (snd twice)) = Some pc
        /\ count isErrorMessage (descendants pc) = 0
        /\ nth_error (kidsOf pc) i = Some fn
        /\ elemOf fn = withClassList (remove "error") f)
  /\ (contains "error" (classList f) = false ->
      count isErrorMessage (descendants pn) = 0 ->
      snd twice = mkDoc t n).
Proof.
  intros HF Hp Hv Hc once twice.
  pose proof (cleared_FieldIn t field parent f HF) as HF1.
  assert (Hid : nid f = field) by (now destruct HF as (_ & H & _)).
  destruct (cleared_parent t field parent pn Hp) as (pc & Hpc & _ & Z & _).
  specialize (Z Hc).
  assert (E1 : once = (Ok true, mkDoc (cleared field parent t) n)).
  { unfold once. exact (validateField_passes t n field parent f HF Hv). }
  assert (Hv1 : firstFailure (hRemove field f) = None).
  { unfold hRemove. now rewrite firstFailure_onClass. }
  assert (Hc1 : contains "error" (classList (hRemove field f)) = false).
  { rewrite (hRemove_field field f Hid). cbn [classList withClassList].
    apply contains_remove_same. }
  assert (E2 : twice = once).
  { unfold twice. rewrite (bind_ok _ _ _ _ _ _ _ E1).
    rewrite (validateField_passes _ n field parent _ HF1 Hv1).
    rewrite (cleared_undecorated _ field parent _ pc HF1 Hpc Hc1
               (count_zero_findBelow _ _ Z)).
    now rewrite E1. }
  split; [now rewrite E1|]. split; [exact E2|].
  rewrite E2, E1. cbn [snd nextId tree]. split; [reflexivity|]. split.
  - destruct HF1 as (_ & _ & _ & pc' & i & fn & Hp' & Hi & Hf).
    rewrite Hpc in Hp'. injection Hp' as <-.
    exists pc, i, fn. split; [exact Hpc|]. split; [exact Z|].
    split; [exact Hi|]. now rewrite Hf, (hRemove_field field f Hid).
  - intros He H0.
    now rewrite (cleared_undecorated t field parent f pn HF Hp He
                   (count_zero_findBelow _ _ H0)).
Qed.

Lemma staleForm_field :
  FieldIn staleForm 2 [0]
    (withClassList (add "error") (inputEl 2 "email" true "a@b.co")).
Proof.
  split; [apply nodupb_NoDup; reflexivity|].
  split; [reflexivity|]. split; [reflexivity|].
  eexists. exists 0. eexists. repeat split.
Qed.

Lemma validate_valid_twice_witness :
  (validateField 2 ;; validateField 2)%dom (mkDoc staleForm 10)
  = validateField 2 (mkDoc staleForm 10)
  /\ fst (validateField 2 (mkDoc staleForm 10)) = Ok true.
Proof.
  destruct (validate_valid_twice staleForm 10 2 [0] _
              (plain 1 "div"
                 [El (withClassList (add "error")
                        (inputEl 2 "email" true "a@b.co")) [];
                  errorNode 5 msgEmail])
              staleForm_field eq_refl eq_refl) as (H1 & H2 & _).
  - cbn. lia.
  - split; [exact H2|exact H1].
Defined.

(** C8 fails as stated: the group of field 2 holds two nested groups,
    each with a required empty field.  Once those two fields were
    validated, each nested group holds a message.  Field 2 is valid and
    carries no decoration, but every validation of it removes the first
    message found below its parent: one call leaves one message, two
    calls leave none. *)
Lemma nested_messages_not_idempotent :
  let d0 := snd ((validateField 4 ;; validateField 6)%dom
                   (mkDoc nestedGroupsForm 10)) in
  let once := validateField 2 d0 in
  let twice := (validateField 2 ;; validateField 2)%dom d0 in
  wellFormedb (tree d0) (nextId d0) = true
  /\ find (hasId 2) (elems (tree d0)) = Some (inputEl 2 "text" false "a")
  /\ isValid (inputEl 2 "text" false "a") = true
  /\ fst once = Ok true /\ fst twice = Ok true
  /\ count isErrorMessage (elems (tree d0)) = 2
  /\ count isErrorMessage (elems (tree (snd once))) = 1
  /\ count isErrorMessage (elems (tree (snd twice))) = 0
  /\ twice <> once.
Proof.
  vm_compute. repeat split. intros H. discriminate H.
Qed.

(** ** Well-formed forms are preserved *)

Lemma wellFormedb_WellFormed t n : wellFormedb t n = true -> WellFormed t n.
Proof.
  unfold wellFormedb, WellFormed. rewrite !andb_true_iff, !negb_true_iff.
  intros (((((H1 & H2) & H3) & H4) & H5) & H6).
  split; [now apply nodupb_NoDup|]. split; [|now repeat split].
  apply Forall_forall. intros i Hi.
  rewrite forallb_forall in H2. apply Nat.ltb_lt. now apply H2.
Qed.

Lemma In_subtree e : forall n,
  In e (elems n) -> exists p s, subtree p n = Some s /\ elemOf s = e.
Proof.
  induction n as [e0 ks IH] using Node_ind'. rewrite elems_El.
  intros [->|H].
  - exists [], (El e ks). now split.
  - apply in_flat_map in H as (k & Hk & He).
    rewrite Forall_forall in IH. destruct (IH k Hk He) as (p & s & Hs & Es).
    apply In_nth_error in Hk as [i Hi].
    exists (i :: p), s. cbn [subtree kidsOf]. now rewrite Hi.
Qed.

Lemma guardedb_El outer okSelf okBelow e ks :
  guardedb outer okSelf okBelow (El e ks)
  = (negb (outer e) || okSelf e && forallb okBelow (flat_map elems ks))
    && forallb (guardedb outer okSelf okBelow) ks.
Proof. reflexivity. Qed.


Lemma guardedb_subtree outer okSelf okBelow p : forall n s,
  guardedb outer okSelf okBelow n = true -> subtree p n = Some s ->
  guardedb outer okSelf okBelow s = true.
Proof.
  induction p as [|i p IH]; intros n s C H; cbn [subtree] in H.
  - now injection H as <-.
  - destruct n as [e ks]. cbn [kidsOf] in H.
    destruct (nth_error ks i) as [k|] eqn:E; [|discriminate].
    rewrite guardedb_El in C. apply andb_true_iff in C as [_ C].
    rewrite forallb_forall in C. apply (IH k s); [|exact H].
    apply C. exact (nth_error_In _ _ E).
Qed.

Lemma cleanb_subtree p : forall n s,
  cleanb n = true -> subtree p n = Some s -> cleanb s = true.
Proof. apply guardedb_subtree. Qed.

Lemma guardedb_root outer okSelf okBelow n :
  guardedb outer okSelf okBelow n = true -> outer (elemOf n) = true ->
  okSelf (elemOf n) = true /\ forallb okBelow (descendants n) = true.
Proof.
  destruct n as [e ks]. rewrite guardedb_El. cbn [elemOf]. intros C H.
  apply andb_true_iff in C as [C _]. rewrite H in C.
  now apply andb_true_iff in C.
Qed.

Lemma cleanb_root_inert n :
  cleanb n = true -> isErrorMessage (elemOf n) = true ->
  forallb inert (elems n) = true.
Proof.
  intros C H. destruct (guardedb_root _ _ _ n C H) as [H1 H2].
  rewrite elems_descendants. cbn [forallb]. now rewrite H1, H2.
Qed.

(** In a well-formed form every field is a field in the sense of
    [FieldIn]. *)
Lemma WellFormed_field t n f :
  WellFormed t n -> In f (elems t) -> selFields f = true ->
  exists parent, FieldIn t (nid f) parent f.
Proof.
  intros (N & _ & Rf & _ & _ & C) Hin Hf.
  destruct (In_subtree f t Hin) as (p & s & Hs & Es).
  destruct (exists_last (l := p)) as (parent & i & ->).
  { intros ->. cbn in Hs. injection Hs as <-. congruence. }
  exists parent. split; [exact N|]. split; [reflexivity|].
  rewrite subtree_app in Hs.
  destruct (subtree parent t) as [pn|] eqn:Hp; [|discriminate].
  cbn [subtree] in Hs.
  destruct (nth_error (kidsOf pn) i) as [fn|] eqn:Hi; [|discriminate].
  injection Hs as ->. split.
  - destruct (isErrorMessage f) eqn:E; [|reflexivity]. exfalso.
    assert (Cs : cleanb s = true).
    { apply (cleanb_subtree (parent ++ [i]) t); [exact C|].
      rewrite subtree_app, Hp. cbn [subtree]. now rewrite Hi. }
    rewrite <- Es in E. pose proof (cleanb_root_inert s Cs E) as I.
    rewrite elems_descendants in I. cbn [forallb] in I.
    apply andb_true_iff in I as [I _]. unfold inert in I.
    rewrite Es, Hf in I. discriminate.
  - exists pn, i, s. now repeat split.
Qed.

(** Removing nodes and appending an inert leaf keep a tree clean. *)

Lemma incl_flat_map_dropNth (A B : Type) (g : A -> list B) i : forall l,
  incl (flat_map g (dropNth i l)) (flat_map g l).
Proof.
  induction i as [|i IH]; intros [|x l]; cbn [dropNth flat_map];
    try apply incl_refl.
  - apply incl_appr, incl_refl.
  - apply incl_app; [apply incl_appl, incl_refl|apply incl_appr, IH].
Qed.

Lemma incl_flat_map_updateNth (A B : Type) (g : A -> list B) (u : A -> A)
    (extra : list B) i :
  (forall x, incl (g (u x)) (g x ++ extra)) ->
  forall l, incl (flat_map g (updateNth i u l)) (flat_map g l ++ extra).
Proof.
  intros H. induction i as [|i IH]; intros [|x l]; cbn [updateNth flat_map];
    try (apply incl_appl, incl_refl).
  - intros y Hy. apply in_app_or in Hy as [Hy|Hy].
    + apply H in Hy. apply in_app_or in Hy as [Hy|Hy];
        [apply in_or_app; left; apply in_or_app; now left|apply in_or_app; now right].
    + apply in_or_app; left; apply in_or_app; now right.
  - intros y Hy. apply in_app_or in Hy as [Hy|Hy].
    + apply in_or_app; left; apply in_or_app; now left.
    + apply IH in Hy. apply in_app_or in Hy as [Hy|Hy];
        [apply in_or_app; left; apply in_or_app; now right|apply in_or_app; now right].
Qed.

Lemma forallb_dropNth (A : Type) (g : A -> bool) i : forall l,
  forallb g l = true -> forallb g (dropNth i l) = true.
Proof.
  induction i as [|i IH]; intros [|x l]; cbn [dropNth forallb]; trivial.
  - intros H. now apply andb_true_iff in H as [_ H].
  - intros H. apply andb_true_iff in H as [H1 H2]. rewrite H1. now apply IH.
Qed.

Lemma forallb_updateNth (A : Type) (g : A -> bool) (u : A -> A) i :
  (forall x, g x = true -> g (u x) = true) ->
  forall l, forallb g l = true -> forallb g (updateNth i u l) = true.
Proof.
  intros Hu. induction i as [|i IH]; intros [|x l]; cbn [updateNth forallb]; trivial.
  - intros H. apply andb_true_iff in H as [H1 H2]. now rewrite (Hu x H1).
  - intros H. apply andb_true_iff in H as [H1 H2]. rewrite H1. now apply IH.
Qed.

Lemma forallb_incl (A : Type) (g : A -> bool) (l l' : list A) :
  incl l l' -> forallb g l' = true -> forallb g l = true.
Proof.
  intros Hi H. rewrite forallb_forall in *. intros x Hx. apply H, Hi, Hx.
Qed.

Lemma elems_removeAt_incl p : forall n, incl (elems (removeAt p n)) (elems n).
Proof.
  induction p as [|i p IH]; intros n; [apply incl_refl|].
  destruct n as [e ks]. destruct p as [|j p].
  - rewrite removeAt_single, !elems_El. cbn [elemOf kidsOf].
    apply incl_cons; [now left|]. apply incl_tl, incl_flat_map_dropNth.
  - rewrite removeAt_deeper, !elems_El. cbn [elemOf kidsOf].
    apply incl_cons; [now left|]. apply incl_tl.
    rewrite <- (app_nil_r (flat_map elems ks)).
    apply incl_flat_map_updateNth. intros x. rewrite app_nil_r. apply IH.
Qed.

Lemma descendants_removeAt_incl p : forall n,
  incl (descendants (removeAt p n)) (descendants n).
Proof.
  intros n. destruct p as [|i p]; [apply incl_refl|].
  destruct n as [e ks]. destruct p as [|j p].
  - rewrite removeAt_single. apply incl_flat_map_dropNth.
  - rewrite removeAt_deeper. unfold descendants. cbn [elemOf kidsOf].
    rewrite <- (app_nil_r (flat_map elems ks)).
    apply incl_flat_map_updateNth. intros x. rewrite app_nil_r.
    apply elems_removeAt_incl.
Qed.

Lemma guardedb_removeAt outer okSelf okBelow p : forall n,
  guardedb outer okSelf okBelow n = true ->
  guardedb outer okSelf okBelow (removeAt p n) = true.
Proof.
  induction p as [|i p IH]; intros n C; [exact C|].
  assert (I : outer (elemOf n) = true ->
              okSelf (elemOf n)
              && forallb okBelow (descendants (removeAt (i :: p) n)) = true).
  { intros E. destruct (guardedb_root outer okSelf okBelow n C E) as [H1 H2].
    rewrite H1. cbn [andb].
    exact (forallb_incl _ _ _ _ (descendants_removeAt_incl (i :: p) n) H2). }
  destruct n as [e ks]. cbn [elemOf] in I.
  rewrite guardedb_El in C. apply andb_true_iff in C as [_ C].
  destruct p as [|j p].
  - rewrite removeAt_single in *. cbn [elemOf kidsOf descendants] in *.
    rewrite guardedb_El. apply andb_true_iff. split.
    + destruct (outer e); [cbn [negb orb]; now apply I|reflexivity].
    + now apply forallb_dropNth.
  - rewrite removeAt_deeper in *. cbn [elemOf kidsOf descendants] in *.
    rewrite guardedb_El. apply andb_true_iff. split.
    + destruct (outer e); [cbn [negb orb]; now apply I|reflexivity].
    + apply forallb_updateNth; [apply IH|exact C].
Qed.

Lemma cleanb_removeAt p : forall n,
  cleanb n = true -> cleanb (removeAt p n) = true.
Proof. apply guardedb_removeAt. Qed.

Lemma elems_appendKid c n : elems (appendKid c n) = elems n ++ elems c.
Proof.
  destruct n as [e ks]. unfold appendKid. cbn [elemOf kidsOf].
  rewrite !elems_El, flat_map_app. cbn [flat_map]. now rewrite app_nil_r.
Qed.

Lemma elems_append_incl c p : forall n,
  incl (elems (modifyAt p (appendKid c) n)) (elems n ++ elems c).
Proof.
  induction p as [|i p IH]; intros n.
  - cbn [modifyAt]. rewrite elems_appendKid. apply incl_refl.
  - destruct n as [e ks]. cbn [modifyAt elemOf kidsOf]. rewrite !elems_El.
    cbn [app]. apply incl_cons; [now left|]. apply incl_tl.
    apply incl_flat_map_updateNth. exact IH.
Qed.

Lemma descendants_append_incl c p : forall n,
  incl (descendants (modifyAt p (appendKid c) n)) (descendants n ++ elems c).
Proof.
  intros n. destruct p as [|i p].
  - cbn [modifyAt]. unfold descendants, appendKid. cbn [kidsOf].
    rewrite flat_map_app. cbn [flat_map]. rewrite app_nil_r. apply incl_refl.
  - destruct n as [e ks]. unfold descendants. cbn [modifyAt elemOf kidsOf].
    apply incl_flat_map_updateNth. apply elems_append_incl.
Qed.

Lemma guardedb_append outer okSelf okBelow c p : forall n,
  guardedb outer okSelf okBelow c = true ->
  forallb okBelow (elems c) = true ->
  guardedb outer okSelf okBelow n = true ->
  guardedb outer okSelf okBelow (modifyAt p (appendKid c) n) = true.
Proof.
  intros n Cc Ic. revert n.
  induction p as [|i p IH]; intros n C.
  - destruct n as [e ks]. cbn [modifyAt]. unfold appendKid. cbn [elemOf kidsOf].
    rewrite guardedb_El in *. apply andb_true_iff in C as [C1 C2].
    apply andb_true_iff. split.
    + destruct (outer e); [|reflexivity]. cbn [negb orb] in *.
      apply andb_true_iff in C1 as [C0 C1]. rewrite C0. cbn [andb].
      rewrite flat_map_app. cbn [flat_map]. rewrite app_nil_r.
      rewrite forallb_app, C1, Ic. reflexivity.
    + rewrite forallb_app, C2. cbn [forallb]. now rewrite Cc.
  - assert (I : outer (elemOf n) = true ->
                okSelf (elemOf n)
                && forallb okBelow
                     (descendants (modifyAt (i :: p) (appendKid c) n)) = true).
    { intros E. destruct (guardedb_root outer okSelf okBelow n C E) as [H1 H2].
      rewrite H1. cbn [andb].
      apply (forallb_incl _ _ _ _ (descendants_append_incl c (i :: p) n)).
      now rewrite forallb_app, H2, Ic. }
    destruct n as [e ks]. cbn [modifyAt elemOf kidsOf descendants] in *.
    rewrite guardedb_El in C. apply andb_true_iff in C as [_ C].
    rewrite guardedb_El. apply andb_true_iff. split.
    + destruct (outer e); [cbn [negb orb]; now apply I|reflexivity].
    + apply forallb_updateNth; [apply IH|exact C].
Qed.

Lemma cleanb_append c p : forall n,
  cleanb c = true -> forallb inert (elems c) = true ->
  cleanb n = true -> cleanb (modifyAt p (appendKid c) n) = true.
Proof. apply guardedb_append. Qed.

Lemma forallb_map_ext (A : Type) (g : A -> bool) (h : A -> A) (l : list A) :
  (forall x, g (h x) = g x) -> forallb g (map h l) = forallb g l.
Proof.
  intros H. induction l as [|x l IH]; [reflexivity|].
  cbn [map forallb]. now rewrite H, IH.
Qed.

Lemma guardedb_mapElems outer okSelf okBelow h :
  (forall e, outer (h e) = outer e) ->
  (forall e, okSelf (h e) = okSelf e) ->
  (forall e, okBelow (h e) = okBelow e) ->
  forall n, guardedb outer okSelf okBelow (mapElems h n)
            = guardedb outer okSelf okBelow n.
Proof.
  intros H1 H2 H3. induction n as [e ks IH] using Node_ind'.
  cbn [mapElems]. rewrite !guardedb_El, H1, H2.
  assert (E : forallb okBelow (flat_map elems (map (mapElems h) ks))
              = forallb okBelow (flat_map elems ks)).
  { change (flat_map elems (map (mapElems h) ks))
      with (descendants (mapElems h (El e ks))).
    rewrite descendants_mapElems. now apply forallb_map_ext. }
  rewrite E. f_equal. clear E.
  induction IH as [|k ks Hk _ IHks]; [reflexivity|].
  cbn [map forallb]. now rewrite Hk, IHks.
Qed.

Lemma cleanb_mapElems h :
  (forall e, isErrorMessage (h e) = isErrorMessage e) ->
  (forall e, inert (h e) = inert e) ->
  forall n, cleanb (mapElems h n) = cleanb n.
Proof. intros H1 H2. now apply guardedb_mapElems. Qed.

(** ** The elements before and after [validateField] *)


Lemma isBanner_hRemove field e : isBanner (hRemove field e) = isBanner e.
Proof.
  apply sel_onElem. intros x. unfold isBanner, selClass.
  cbn [classList withClassList]. apply contains_remove_other. discriminate.
Qed.

Lemma isBanner_hAdd field e : isBanner (hAdd field e) = isBanner e.
Proof.
  apply sel_onElem. intros x. unfold isBanner, selClass.
  cbn [classList withClassList]. apply contains_add_other. discriminate.
Qed.

Lemma selFields_onClass field g e :
  selFields (onElem field (withClassList g) e) = selFields e.
Proof. apply sel_onElem. reflexivity. Qed.

Lemma core_onClass field g e : core (onElem field (withClassList g) e) = core e.
Proof. unfold onElem. now destruct (hasId field e). Qed.

Lemma nid_onClass field g e : nid (onElem field (withClassList g) e) = nid e.
Proof. apply nid_onElem. reflexivity. Qed.

Lemma inert_hRemove field e : inert (hRemove field e) = inert e.
Proof.
  unfold inert. now rewrite isBanner_hRemove; unfold hRemove;
    rewrite selFields_onClass.
Qed.

Lemma inert_hAdd field e : inert (hAdd field e) = inert e.
Proof.
  unfold inert. now rewrite isBanner_hAdd; unfold hAdd;
    rewrite selFields_onClass.
Qed.

(** Clearing deletes at most one run of elements: the subtree of an
    error message. *)
Lemma cleared_elems t field parent pn :
  subtree parent t = Some pn ->
  exists l1 gone l2,
    map (hRemove field) (elems t) = l1 ++ gone ++ l2
    /\ elems (cleared field parent t) = l1 ++ l2
    /\ (gone = []
        \/ exists q s, subtree q (mapElems (hRemove field) t) = Some s
                       /\ isErrorMessage (elemOf s) = true /\ gone = elems s).
Proof.
  intros Hp. unfold cleared. fold (hRemove field).
  set (h := hRemove field).
  assert (Hp1 : subtree parent (mapElems h t) = Some (mapElems h pn))
    by (rewrite subtree_mapElems, Hp; reflexivity).
  rewrite Hp1. rewrite <- elems_mapElems.
  destruct (findBelow isErrorMessage (mapElems h pn)) as [q|] eqn:Fq.
  - destruct (findBelow_first _ _ _ Fq)
      as (s & pre & post & Q0 & Q1 & Q2 & Q3 & Q4 & Q5).
    rewrite removeAt_app by exact Q0.
    destruct (elems_at _ _ _ Hp1) as (pre0 & post0 & E1 & E2 & _).
    exists (pre0 ++ elemOf (mapElems h pn) :: pre), (elems s), (post ++ post0).
    split; [|split].
    + rewrite E1, (elems_descendants (mapElems h pn)), Q3.
      rewrite <- !app_assoc. cbn [app]. now rewrite <- !app_assoc.
    + rewrite E2, Q5. rewrite <- !app_assoc. cbn [app].
      now rewrite <- !app_assoc.
    + right. exists (parent ++ q), s. split; [|now split].
      rewrite subtree_app, Hp1. exact Q1.
  - exists (elems (mapElems h t)), [], []. rewrite !app_nil_r.
    split; [reflexivity|]. split; [reflexivity|now left].
Qed.

Lemma decorated_elems t field parent n message pc :
  subtree parent t = Some pc ->
  exists l1 l2,
    map (hAdd field) (elems t) = l1 ++ l2
    /\ elems (decorated field parent n message t)
       = l1 ++ errorDiv (newDiv n) message :: l2.
Proof.
  intros Hp. unfold decorated. fold (hAdd field). set (h := hAdd field).
  assert (Hp1 : subtree parent (mapElems h t) = Some (mapElems h pc))
    by (rewrite subtree_mapElems, Hp; reflexivity).
  destruct (elems_at _ _ _ Hp1) as (pre0 & post0 & E1 & E2 & _).
  exists (pre0 ++ elems (mapElems h pc)), post0. split.
  - rewrite <- elems_mapElems, E1. now rewrite <- app_assoc.
  - rewrite E2, elems_appendKid. cbn [errorNode elems flat_map].
    rewrite <- !app_assoc. reflexivity.
Qed.

Lemma elemOf_append c p n : elemOf (modifyAt p (appendKid c) n) = elemOf n.
Proof. destruct p; [now destruct n|reflexivity]. Qed.

Lemma filter_map_ext (sel : selector) h l :
  (forall e, sel (h e) = sel e) -> filter sel (map h l) = map h (filter sel l).
Proof.
  intros H. induction l as [|x l IH]; [reflexivity|].
  cbn [map filter]. rewrite H. destruct (sel x); cbn [map]; now rewrite IH.
Qed.

Lemma filter_inert_fields l :
  forallb inert l = true -> filter selFields l = [].
Proof.
  induction l as [|x l IH]; [reflexivity|]. cbn [forallb filter].
  intros H. apply andb_true_iff in H as [H1 H2]. unfold inert in H1.
  apply andb_true_iff in H1 as [H1 _]. apply negb_true_iff in H1.
  rewrite H1. now apply IH.
Qed.

Lemma count_inert_banner l :
  forallb inert l = true -> count isBanner l = 0.
Proof.
  intros H. apply count_none. rewrite forallb_forall in *. intros x Hx.
  specialize (H x Hx). unfold inert in H. now apply andb_true_iff in H as [_ H].
Qed.

Lemma NoDup_insert (A : Type) (x : A) (l1 l2 : list A) :
  NoDup (l1 ++ l2) -> ~ In x (l1 ++ l2) -> NoDup (l1 ++ x :: l2).
Proof.
  induction l1 as [|y l1 IH]; cbn [app]; intros N H.
  - now constructor.
  - inversion N as [|? ? Hy Nl]; subst. constructor.
    + intros C. apply in_app_or in C as [C|[C|C]].
      * apply Hy. apply in_or_app. now left.
      * subst. apply H. now left.
      * apply Hy. apply in_or_app. now right.
    + apply IH; [exact Nl|]. intros C. apply H. now right.
Qed.

(** One call of [validateField] keeps a form well formed, and keeps its
    fields and its banners. *)
Lemma validated_WellFormed t n field parent f :
  WellFormed t n -> FieldIn t field parent f ->
  let d := validated field parent f (mkDoc t n) in
  WellFormed (tree d) (nextId d)
  /\ map core (fields (tree d)) = map core (fields t)
  /\ count isBanner (elems (tree d)) = count isBanner (elems t)
  /\ n <= nextId d.
Proof.
  intros (N & Lt & Rf & Re & Rb & C) HF.
  destruct (cleared_keeps t field parent f HF) as (N2 & _).
  destruct (FieldIn_parent _ _ _ _ HF) as [pn Hp].
  destruct (cleared_elems t field parent pn Hp) as (l1 & gone & l2 & G1 & G2 & G3).
  destruct (cleared_parent t field parent pn Hp) as (pc & Hc & _).
  set (c := cleared field parent t) in *.
  (* what was deleted held no field and no banner *)
  assert (Gi : forallb inert gone = true).
  { destruct G3 as [->|(q & s & Hs & Es & ->)]; [reflexivity|].
    apply cleanb_root_inert; [|exact Es].
    apply (cleanb_subtree q (mapElems (hRemove field) t)); [|exact Hs].
    rewrite cleanb_mapElems; [exact C| |].
    - intros e. apply isErrorMessage_hRemove.
    - intros e. apply inert_hRemove. }
  assert (Ac : WellFormed c n
               /\ map core (fields c) = map core (fields t)
               /\ count isBanner (elems c) = count isBanner (elems t)).
  { split; [split; [exact N2|split; [|split; [|split; [|split]]]]|split].
    - unfold ids. rewrite G2. apply Forall_forall. intros i Hi.
      rewrite Forall_forall in Lt. apply Lt. unfold ids.
      assert (Hin : In i (map nid (map (hRemove field) (elems t)))).
      { rewrite G1, !map_app. rewrite map_app in Hi.
        apply in_app_or in Hi as [Hi|Hi]; apply in_or_app;
          [now left|right; apply in_or_app; now right]. }
      rewrite map_map in Hin. erewrite map_ext in Hin; [exact Hin|].
      intros e. apply nid_onClass.
    - assert (E : elemOf c = hRemove field (elemOf t)).
      { unfold c, cleared. fold (hRemove field).
        destruct (subtree parent (mapElems (hRemove field) t)) as [p1|];
          [destruct (findBelow isErrorMessage p1)|];
          rewrite ?elemOf_removeAt; apply elemOf_mapElems. }
      rewrite E. unfold hRemove. now rewrite selFields_onClass.
    - assert (E : elemOf c = hRemove field (elemOf t)).
      { unfold c, cleared. fold (hRemove field).
        destruct (subtree parent (mapElems (hRemove field) t)) as [p1|];
          [destruct (findBelow isErrorMessage p1)|];
          rewrite ?elemOf_removeAt; apply elemOf_mapElems. }
      rewrite E. unfold hRemove. now rewrite isErrorMessage_hRemove.
    - assert (E : elemOf c = hRemove field (elemOf t)).
      { unfold c, cleared. fold (hRemove field).
        destruct (subtree parent (mapElems (hRemove field) t)) as [p1|];
          [destruct (findBelow isErrorMessage p1)|];
          rewrite ?elemOf_removeAt; apply elemOf_mapElems. }
      rewrite E. now rewrite isBanner_hRemove.
    - unfold c, cleared. fold (hRemove field).
      assert (Cm : cleanb (mapElems (hRemove field) t) = true).
      { rewrite cleanb_mapElems; [exact C| |].
        - intros e. apply isErrorMessage_hRemove.
        - intros e. apply inert_hRemove. }
      destruct (subtree parent (mapElems (hRemove field) t)) as [p1|];
        [destruct (findBelow isErrorMessage p1)|]; try exact Cm.
      now apply cleanb_removeAt.
    - unfold fields. rewrite G2, filter_app.
      assert (E : filter selFields (map (hRemove field) (elems t))
                  = filter selFields l1 ++ filter selFields l2).
      { rewrite G1, !filter_app, (filter_inert_fields gone Gi). reflexivity. }
      rewrite <- E, filter_map_ext, map_map.
      + apply map_ext. intros e. apply core_onClass.
      + intros e. apply selFields_onClass.
    - rewrite G2, count_app.
      assert (E : count isBanner (map (hRemove field) (elems t))
                  = count isBanner l1 + count isBanner l2).
      { rewrite G1, !count_app, (count_inert_banner gone Gi). lia. }
      rewrite <- E. apply count_map. intros e. apply isBanner_hRemove. }
  destruct Ac as ((Nc & Ltc & Rfc & Rec & Rbc & Cc) & Fc & Bc).
  unfold validated. cbn [tree nextId]. fold c.
  destruct (firstFailure f) as [m|]; cbn [tree nextId].
  2:{ split; [now repeat split|]. split; [exact Fc|]. split; [exact Bc|lia]. }
  destruct (decorated_elems c field parent n m pc Hc) as (k1 & k2 & D1 & D2).
  assert (Hk : map nid k1 ++ map nid k2 = ids c).
  { unfold ids. rewrite <- map_app, <- D1, map_map.
    apply map_ext. intros e. apply nid_onClass. }
  split; [split; [|split; [|split; [|split; [|split]]]]|split; [|split]].
  - unfold ids. rewrite D2, map_app. cbn [map].
    apply NoDup_insert; rewrite Hk; [exact Nc|].
    intros Hin. rewrite Forall_forall in Ltc. specialize (Ltc _ Hin).
    cbn in Ltc. lia.
  - unfold ids. rewrite D2, map_app. cbn [map].
    apply Forall_forall. intros i Hi. rewrite Forall_forall in Ltc.
    apply in_app_or in Hi as [Hi|[Hi|Hi]].
    + assert (i < n); [|lia]. apply Ltc. rewrite <- Hk. apply in_or_app. now left.
    + subst i. cbn. lia.
    + assert (i < n); [|lia]. apply Ltc. rewrite <- Hk. apply in_or_app. now right.
  - unfold decorated. rewrite elemOf_append, elemOf_mapElems.
    now rewrite selFields_onClass.
  - unfold decorated. rewrite elemOf_append, elemOf_mapElems.
    now rewrite isErrorMessage_hAdd.
  - unfold decorated. rewrite elemOf_append, elemOf_mapElems.
    fold (hAdd field). now rewrite isBanner_hAdd.
  - unfold decorated. apply cleanb_append; [reflexivity|reflexivity|].
    rewrite cleanb_mapElems; [exact Cc| |].
    + intros e. apply isErrorMessage_hAdd.
    + intros e. apply inert_hAdd.
  - rewrite <- Fc. unfold fields. rewrite D2, filter_app. cbn [filter].
    change (selFields (errorDiv (newDiv n) m)) with false. cbv iota.
    rewrite <- filter_app, <- D1, filter_map_ext, map_map.
    + apply map_ext. intros e. apply core_onClass.
    + intros e. apply selFields_onClass.
  - rewrite <- Bc, D2, count_app, count_cons.
    change (isBanner (errorDiv (newDiv n) m)) with false. cbv iota.
    cbn [Nat.add]. rewrite <- count_app, <- D1.
    apply count_map. intros e. apply isBanner_hAdd.
  - lia.
Qed.

(** ** [validateForm] *)


Lemma fields_descendants t :
  selFields (elemOf t) = false -> filter selFields (descendants t) = fields t.
Proof.
  intros H. unfold fields. rewrite elems_descendants. cbn [filter].
  now rewrite H.
Qed.

(** A banner holds no field: [validateField] keeps it so. *)
Lemma notField_onClass field g e :
  notField (onElem field (withClassList g) e) = notField e.
Proof. unfold notField. now rewrite selFields_onClass. Qed.





(** ** The submit listener *)






(** ** Edits *)





(** ** Timers *)

Lemma insertTimer_In (Task : Type) due (t : Task) q x :
  In x (insertTimer due t q) <-> x = (due, t) \/ In x q.
Proof.
  induction q as [|[d t'] q IH]; cbn [insertTimer].
  - cbn. intuition congruence.
  - destruct (d <=? due)%Z; cbn [In]; [rewrite IH|]; intuition congruence.
Qed.





Lemma StronglySorted_app_r (A : Type) (R : A -> A -> Prop) (l1 l2 : list A) :
  StronglySorted R (l1 ++ l2) -> StronglySorted R l2.
Proof.
  induction l1 as [|x l1 IH]; [trivial|]. cbn [app]. intros S.
  inversion S; subst. now apply IH.
Qed.

(** ** The timer callback *)






(** ** The form in use *)
















(** ** Button loading state *)

Lemma nth_error_updateNth (A : Type) (f : A -> A) i : forall (l : list A),
  nth_error (updateNth i f l) i = option_map f (nth_error l i).
Proof.
  induction i as [|i IH]; intros [|x l]; cbn [updateNth nth_error option_map];
    try reflexivity. apply IH.
Qed.

Lemma insertTimer_sorted due t q :
  StronglySorted byDue q -> StronglySorted byDue (insertTimer due t q).
Proof.
  induction 1 as [|[d t'] q S IH F]; cbn [insertTimer].
  - constructor; constructor.
  - destruct (Z.leb_spec d due).
    + constructor; [exact IH|]. apply Forall_forall. intros x Hx.
      apply insertTimer_In in Hx as [->|Hx]; [exact H|].
      rewrite Forall_forall in F. now apply F.
    + constructor; [now constructor|]. constructor; [unfold byDue; cbn; lia|].
      eapply Forall_impl; [|exact F]. unfold byDue. cbn. intros; lia.
Qed.

Lemma pendingFor_insert_other i j due q :
  j <> i -> pendingFor i (insertTimer due (Restore j) q) = pendingFor i q.
Proof.
  intros H. unfold pendingFor. induction q as [|[d t] q IH]; cbn [insertTimer].
  - cbn. destruct (Nat.eqb_spec j i); [contradiction|reflexivity].
  - destruct (d <=? due)%Z; cbn [filter snd].
    + destruct t as [k]. destruct (k =? i); cbn [map]; now rewrite IH.
    + destruct (Nat.eqb_spec j i); [contradiction|reflexivity].
Qed.

Lemma pendingFor_insert_same i due q :
  pendingFor i q = [] -> pendingFor i (insertTimer due (Restore i) q) = [due].
Proof.
  unfold pendingFor. induction q as [|[d t] q IH]; cbn [insertTimer]; intros H.
  - cbn. now rewrite Nat.eqb_refl.
  - cbn [filter snd] in H. destruct t as [k].
    destruct (d <=? due)%Z; cbn [filter snd].
    + destruct (k =? i); [discriminate|]. now apply IH.
    + rewrite Nat.eqb_refl. destruct (k =? i); [discriminate|].
      cbn [map fst]. now rewrite H.
Qed.

Lemma pendingFor_In i q d :
  In d (pendingFor i q) -> In (d, Restore i) q.
Proof.
  unfold pendingFor. intros H. apply in_map_iff in H as ([d' [j]] & E & H).
  apply filter_In in H as [H1 H2]. cbn in *. apply Nat.eqb_eq in H2.
  now subst.
Qed.

(** Timers that are not due leave the button and its timers alone. *)
Lemma fire_keeps i target : forall q bs,
  StronglySorted byDue q ->
  Forall (fun d => (target < d)%Z) (pendingFor i q) ->
  nth_error (fst (fire runButtonTask target q bs)) i = nth_error bs i
  /\ pendingFor i (snd (fire runButtonTask target q bs)) = pendingFor i q
  /\ StronglySorted byDue (snd (fire runButtonTask target q bs)).
Proof.
  induction q as [|[due [j]] q IH]; intros bs S F; cbn [fire].
  - cbn. repeat split. constructor.
  - inversion S as [|? ? S' F']; subst.
    destruct (Z.leb_spec due target).
    + assert (Hj : j <> i).
      { intros ->. unfold pendingFor in F. cbn [filter snd] in F.
        rewrite Nat.eqb_refl in F. cbn [map fst] in F.
        inversion F; subst. lia. }
      assert (E : pendingFor i ((due, Restore j) :: q) = pendingFor i q).
      { unfold pendingFor. cbn [filter snd].
        destruct (Nat.eqb_spec j i); [contradiction|reflexivity]. }
      rewrite E in *. destruct (IH (runButtonTask (Restore j) bs) S' F)
        as (H1 & H2 & H3).
      split; [|now split]. rewrite H1. cbn [runButtonTask].
      now apply nth_error_updateNth_other.
    + cbn [fst snd]. now repeat split.
Qed.

(** The timer of the button, once due, restores it. *)
Lemma fire_restores i target d : forall q bs,
  StronglySorted byDue q ->
  pendingFor i q = [d] -> (d <= target)%Z ->
  nth_error (fst (fire runButtonTask target q bs)) i
  = option_map restore (nth_error bs i)
  /\ pendingFor i (snd (fire runButtonTask target q bs)) = []
  /\ StronglySorted byDue (snd (fire runButtonTask target q bs)).
Proof.
  induction q as [|[due [j]] q IH]; intros bs S P Hd; [discriminate|].
  inversion S as [|? ? S' F']; subst. cbn [fire].
  destruct (Nat.eq_dec j i) as [->|Hj].
  - unfold pendingFor in P. cbn [filter snd] in P. rewrite Nat.eqb_refl in P.
    cbn [map fst] in P. injection P as -> P. fold (pendingFor i q) in P.
    destruct (Z.leb_spec d target); [|lia].
    destruct (fire_keeps i target q (runButtonTask (Restore i) bs) S')
      as (H1 & H2 & H3); [rewrite P; constructor|].
    split; [|split; [congruence|exact H3]].
    rewrite H1. cbn [runButtonTask]. apply nth_error_updateNth.
  - assert (E : pendingFor i ((due, Restore j) :: q) = pendingFor i q).
    { unfold pendingFor. cbn [filter snd].
      destruct (Nat.eqb_spec j i); [contradiction|reflexivity]. }
    rewrite E in P.
    assert (Hdue : (due <= d)%Z).
    { assert (In (d, Restore i) q)
        by (apply pendingFor_In; rewrite P; now left).
      rewrite Forall_forall in F'. exact (F' _ H). }
    destruct (Z.leb_spec due target); [|lia].
    destruct (IH (runButtonTask (Restore j) bs) S' P Hd) as (H1 & H2 & H3).
    split; [|now split]. rewrite H1. cbn [runButtonTask].
    now rewrite nth_error_updateNth_other.
Qed.

Lemma click_idle i l b :
  nth_error (state l) i = Some b -> isLoading b = false ->
  click i l
  = mkLoop (updateNth i startLoading (state l)) (clock l)
           (insertTimer (clock l + 2000) (Restore i) (queue l)).
Proof.
  intros H L. unfold click. rewrite H. unfold isLoading in L. now rewrite L.
Qed.

Lemma click_loading i l b :
  nth_error (state l) i = Some b -> isLoading b = true -> click i l = l.
Proof.
  intros H L. unfold click. rewrite H. unfold isLoading in L. now rewrite L.
Qed.

Lemma click_other i j l :
  j <> i ->
  nth_error (state (click j l)) i = nth_error (state l) i
  /\ pendingFor i (queue (click j l)) = pendingFor i (queue l)
  /\ (StronglySorted byDue (queue l) -> StronglySorted byDue (queue (click j l)))
  /\ clock (click j l) = clock l.
Proof.
  intros H. unfold click. destruct (nth_error (state l) j) as [bj|];
    [|now repeat split].
  destruct (negb (contains "loading" (bClassList bj))); [|now repeat split].
  unfold setTimeout. cbn [state clock queue].
  split; [now apply nth_error_updateNth_other|].
  split; [now apply pendingFor_insert_other|].
  split; [apply insertTimer_sorted|reflexivity].
Qed.

Lemma isLoading_startLoading b : isLoading (startLoading b) = true.
Proof. apply contains_add_same. Qed.

Lemma isLoading_restore b : isLoading (restore b) = false.
Proof.
  unfold restore, isLoading.
  destruct (truthyStr (originalText b)); apply contains_remove_same.
Qed.

Lemma originalText_restore b : originalText (restore b) = originalText b.
Proof. unfold restore. now destruct (truthyStr (originalText b)). Qed.

Lemma Ready_start bs now i b0 :
  nth_error bs i = Some b0 -> Ready i (innerHTML b0) (buttonsReady bs now).
Proof.
  intros H. split; [constructor|]. exists (storeOriginal b0).
  cbn [buttonsReady state queue]. rewrite nth_error_map, H.
  split; [reflexivity|]. split; [reflexivity|now left].
Qed.

Lemma Ready_step i orig l ev :
  Ready i orig l -> Ready i orig (buttonStep l ev).
Proof.
  intros (S & b & Hb & Ho & P). destruct ev as [j|d]; cbn [buttonStep].
  - destruct (Nat.eq_dec j i) as [->|Hj].
    + destruct (Bool.bool_dec (isLoading b) true) as [L|L].
      * rewrite (click_loading i l b Hb L). split; [exact S|]. exists b.
        split; [exact Hb|]. split; [exact Ho|exact P].
      * apply not_true_is_false in L.
        destruct P as [P|[P _]]; [|congruence].
        rewrite (click_idle i l b Hb L). unfold Ready. cbn [queue state].
        split; [now apply insertTimer_sorted|].
        exists (startLoading b). rewrite nth_error_updateNth, Hb.
        split; [reflexivity|]. split; [exact Ho|]. right.
        split; [apply isLoading_startLoading|].
        exists (clock l + 2000)%Z. now apply pendingFor_insert_same.
    + destruct (click_other i j l Hj) as (H1 & H2 & H3 & _).
      split; [now apply H3|]. exists b. rewrite H1, H2.
      split; [exact Hb|]. split; [exact Ho|exact P].
  - unfold elapse.
    destruct (fire runButtonTask (clock l + d) (queue l) (state l)) as [bs' q'] eqn:F.
    unfold Ready. cbn [queue state].
    assert (Keep : Forall (fun x => (clock l + d < x)%Z) (pendingFor i (queue l)) ->
                   Ready i orig (mkLoop bs' (clock l + d)%Z q')).
    { intros K.
      destruct (fire_keeps i (clock l + d) (queue l) (state l) S K) as (H1 & H2 & H3).
      rewrite F in *. cbn [fst snd] in *.
      split; [exact H3|]. exists b. cbn [state queue]. rewrite H1, H2.
      split; [exact Hb|]. split; [exact Ho|exact P]. }
    destruct P as [P|(L & d0 & P)].
    + apply Keep. rewrite P. constructor.
    + destruct (Z.leb_spec d0 (clock l + d)) as [Hd|Hd].
      * destruct (fire_restores i (clock l + d) d0 (queue l) (state l) S P Hd)
          as (H1 & H2 & H3).
        rewrite F in *. cbn [fst snd] in *.
        split; [exact H3|]. exists (restore b).
        rewrite H1, Hb. split; [reflexivity|].
        split; [now rewrite originalText_restore|now left].
      * apply Keep. rewrite P. constructor; [exact Hd|constructor].
Qed.

Lemma Ready_run i orig evs : forall l,
  Ready i orig l -> Ready i orig (buttonRun evs l).
Proof.
  induction evs as [|ev evs IH]; intros l R; [exact R|].
  apply (IH (buttonStep l ev)). now apply Ready_step.
Qed.

Lemma paused_nonneg evs : Forall steady evs -> (0 <= paused evs)%Z.
Proof.
  induction 1 as [|ev evs H _ IH]; cbn [paused]; [lia|].
  destruct ev; cbn [steady] in H; lia.
Qed.

Lemma Busy_run i b due : forall evs l,
  isLoading b = true ->
  Busy i b due l -> Forall steady evs -> (clock l + paused evs < due)%Z ->
  Busy i b due (buttonRun evs l)
  /\ clock (buttonRun evs l) = (clock l + paused evs)%Z.
Proof.
  induction evs as [|ev evs IH]; intros l L B St Hp.
  - cbn [buttonRun fold_left paused]. split; [exact B|lia].
  - inversion St as [|? ? Hev Hevs]; subst.
    pose proof (paused_nonneg evs Hevs) as Pn.
    change (buttonRun (ev :: evs) l) with (buttonRun evs (buttonStep l ev)).
    destruct B as (S & Hb & P & Hc).
    destruct ev as [j|d]; cbn [buttonStep paused steady] in *.
    + assert (B' : Busy i b due (click j l) /\ clock (click j l) = clock l).
      { destruct (Nat.eq_dec j i) as [->|Hj].
        - rewrite (click_loading i l b Hb L). now repeat split.
        - destruct (click_other i j l Hj) as (H1 & H2 & H3 & H4).
          split; [|exact H4]. split; [now apply H3|].
          split; [congruence|]. split; [congruence|lia]. }
      destruct B' as [B' C']. destruct (IH (click j l) L B' Hevs) as [H1 H2];
        [lia|]. split; [exact H1|lia].
    + assert (B' : Busy i b due (elapse runButtonTask d l)
                   /\ clock (elapse runButtonTask d l) = (clock l + d)%Z).
      { unfold elapse.
        destruct (fire_keeps i (clock l + d) (queue l) (state l) S)
          as (H1 & H2 & H3).
        { rewrite P. constructor; [lia|constructor]. }
        destruct (fire runButtonTask (clock l + d) (queue l) (state l))
          as [bs' q']. cbn [fst snd] in *. cbn [clock].
        split; [|reflexivity]. split; [exact H3|]. cbn [state queue clock].
        split; [congruence|]. split; [congruence|lia]. }
      destruct B' as [B' C']. destruct (IH _ L B' Hevs) as [H1 H2]; [lia|].
      split; [exact H1|lia].
Qed.

(** C4, as the code does it: a click on a button that is not loading puts
    it into the loading state (spinner and "Loading..."); clicks while it
    is loading change nothing; 2000 ms after the first click the loading
    state is left, and the label captured at page-ready time is back when
    it is not the empty string (a button captured with an empty label
    keeps the spinner markup). *)
Theorem button_loading_cycle (bs : list Button) (now : Z)
    (before during : list ButtonEvent) (i : nat) (b0 b : Button) :
  nth_error bs i = Some b0 ->
  let l := buttonRun before (buttonsReady bs now) in
  nth_error (state l) i = Some b ->
  isLoading b = false ->
  Forall steady during ->
  (paused during < 2000)%Z ->
  let l1 := click i l in
  let l2 := buttonRun during l1 in
  let l3 := elapse runButtonTask (2000 - paused during) l2 in
  nth_error (state l1) i = Some (startLoading b)
  /\ isLoading (startLoading b) = true
  /\ innerHTML (startLoading b) = spinnerMarkup
  /\ click i l1 = l1
  /\ nth_error (state l2) i = Some (startLoading b)
  /\ click i l2 = l2
  /\ clock l3 = (clock l + 2000)%Z
  /\ exists b3,
      nth_error (state l3) i = Some b3
      /\ isLoading b3 = false
      /\ (innerHTML b0 <> EmptyString -> innerHTML b3 = innerHTML b0)
      /\ (innerHTML b0 = EmptyString -> innerHTML b3 = spinnerMarkup).
Proof.
  intros H0 l Hb L St Hp l1 l2 l3.
  assert (R : Ready i (innerHTML b0) l).
  { unfold l. apply Ready_run. now apply Ready_start. }
  destruct R as (S & b' & Hb' & Ho & P).
  rewrite Hb in Hb'. injection Hb' as <-.
  destruct P as [P|[L' _]]; [|congruence].
  assert (E1 : l1 = mkLoop (updateNth i startLoading (state l)) (clock l)
                      (insertTimer (clock l + 2000) (Restore i) (queue l)))
    by (apply (click_idle i l b Hb L)).
  assert (S1 : nth_error (state l1) i = Some (startLoading b)).
  { rewrite E1. cbn [state]. now rewrite nth_error_updateNth, Hb. }
  assert (B1 : Busy i (startLoading b) (clock l + 2000) l1).
  { split; [rewrite E1; cbn [queue]; now apply insertTimer_sorted|].
    split; [exact S1|]. rewrite E1. cbn [queue clock].
    split; [now apply pendingFor_insert_same|lia]. }
  assert (C1 : clock l1 = clock l) by (now rewrite E1).
  destruct (Busy_run i (startLoading b) (clock l + 2000) during l1
              (isLoading_startLoading b) B1 St) as [B2 C2]; [lia|].
  fold l2 in B2, C2. destruct B2 as (S2 & Hb2 & P2 & Hc2).
  split; [exact S1|]. split; [apply isLoading_startLoading|].
  split; [reflexivity|].
  split; [apply (click_loading i l1 _ S1), isLoading_startLoading|].
  split; [exact Hb2|].
  split; [apply (click_loading i l2 _ Hb2), isLoading_startLoading|].
  unfold l3, elapse.
  destruct (fire_restores i (clock l2 + (2000 - paused during))
              (clock l + 2000) (queue l2) (state l2) S2 P2) as (F1 & _);
    [lia|].
  destruct (fire runButtonTask (clock l2 + (2000 - paused during)) (queue l2)
              (state l2)) as [bs' q'].
  cbn [fst] in F1. cbn [clock state].
  split; [lia|]. exists (restore (startLoading b)).
  rewrite F1, Hb2. split; [reflexivity|].
  split; [apply isLoading_restore|].
  unfold restore, startLoading. cbn [originalText innerHTML bClassList].
  rewrite Ho. destruct (innerHTML b0) eqn:E; cbn [truthyStr innerHTML].
  - split; [intros C; now elim C|reflexivity].
  - split; [reflexivity|discriminate].
Qed.

Lemma button_loading_cycle_witness :
  let l1 := click 0 (buttonsReady [goButton] 0) in
  let l3 := elapse runButtonTask (2000 - 500)
              (buttonRun [Click 0; Pause 500; Click 0] l1) in
  click 0 l1 = l1
  /\ exists b3, nth_error (state l3) 0 = Some b3
                /\ isLoading b3 = false /\ innerHTML b3 = "Go"%string.
Proof.
  destruct (button_loading_cycle [goButton] 0 [] [Click 0; Pause 500; Click 0]
              0 goButton (storeOriginal goButton))
    as (_ & _ & _ & H1 & _ & _ & _ & b3 & H2 & H3 & H4 & _).
  - reflexivity.
  - reflexivity.
  - reflexivity.
  - constructor; [exact I|]. constructor; [cbn; lia|].
    constructor; [exact I|constructor].
  - reflexivity.
  - split; [exact H1|]. exists b3. split; [exact H2|]. split; [exact H3|].
    apply H4. discriminate.
Defined.

(** C4 fails as stated for a button captured with the empty label: the
    guard of the timer callback takes the empty string for no stored
    label, and 2000 ms after the click the button still shows the spinner
    markup instead of its (empty) label. *)
Lemma empty_label_not_restored :
  let l := buttonRun [Click 0; Pause 2000] (buttonsReady [bareButton] 0) in
  option_map originalText (nth_error (state l) 0) = Some (Some EmptyString)
  /\ option_map isLoading (nth_error (state l) 0) = Some false
  /\ option_map innerHTML (nth_error (state l) 0) = Some spinnerMarkup
  /\ spinnerMarkup <> EmptyString.
Proof. vm_compute. repeat split. discriminate. Qed.
(** ** Rounding to double precision *)

Lemma pow2_pos e : (0 < pow2 e)%Q.
Proof. apply Qpower_0_lt. reflexivity. Qed.

Lemma pow2_plus a b : (pow2 (a + b) == pow2 a * pow2 b)%Q.
Proof. apply Qpower_plus. discriminate. Qed.

Lemma pow2_le a b : (a <= b)%Z -> (pow2 a <= pow2 b)%Q.
Proof. intros H. apply Qpower_le_compat_l; [exact H|discriminate]. Qed.

Lemma pow2_lt a b : (a < b)%Z -> (pow2 a < pow2 b)%Q.
Proof. intros H. apply Qpower_lt_compat_l; [exact H|reflexivity]. Qed.

Lemma pow2_lt_inv a b : (pow2 a < pow2 b)%Q -> (a < b)%Z.
Proof. intros H. apply (Qpower_lt_compat_l_inv 2); [exact H|reflexivity]. Qed.

Lemma pow2_Z n : (0 <= n)%Z -> (pow2 n == inject_Z (2 ^ n))%Q.
Proof. intros H. unfold pow2. now rewrite (Zpower_Qpower 2 n H). Qed.

(** The exponent of a positive rational. *)
Lemma floorLog2_spec q :
  (0 < q)%Q -> (pow2 (floorLog2 q) <= q /\ q < pow2 (floorLog2 q + 1))%Q.
Proof.
  intros Hq. destruct q as [n d]. unfold floorLog2. cbn [Qnum Qden].
  assert (Hn : (0 < n)%Z) by (unfold Qlt in Hq; cbn in Hq; lia).
  set (a := Z.log2 n). set (b := Z.log2 (Z.pos d)).
  destruct (Z.log2_spec n Hn) as [A1 A2]. fold a in A1, A2.
  destruct (Z.log2_spec (Z.pos d) eq_refl) as [B1 B2]. fold b in B1, B2.
  assert (Ha : (0 <= a)%Z) by apply Z.log2_nonneg.
  assert (Hb : (0 <= b)%Z) by apply Z.log2_nonneg.
  assert (Q1 : (inject_Z n == (n # d) * inject_Z (Z.pos d))%Q).
  { unfold Qeq, Qmult, inject_Z. cbn. lia. }
  assert (Pd : (0 < inject_Z (Z.pos d))%Q) by reflexivity.
  (* n / d < 2 ^ (a - b + 1) *)
  assert (Up : ((n # d) < pow2 (a - b + 1))%Q).
  { apply (Qmult_lt_r _ _ (inject_Z (Z.pos d)) Pd). rewrite <- Q1.
    apply Qlt_le_trans with (pow2 (a + 1)).
    - rewrite pow2_Z by lia. rewrite <- Zlt_Qlt. rewrite Z.add_1_r. exact A2.
    - replace (a + 1)%Z with ((a - b + 1) + b)%Z by lia. rewrite pow2_plus.
      apply Qmult_le_l; [apply pow2_pos|].
      rewrite pow2_Z by exact Hb. now rewrite <- Zle_Qle. }
  (* 2 ^ (a - b - 1) <= n / d *)
  assert (Lo : (pow2 (a - b - 1) <= (n # d))%Q).
  { apply (Qmult_le_r _ _ (inject_Z (Z.pos d)) Pd). rewrite <- Q1.
    apply Qle_trans with (pow2 a).
    - replace a with ((a - b - 1) + (b + 1))%Z at 2 by lia. rewrite pow2_plus.
      apply Qmult_le_l; [apply pow2_pos|].
      rewrite pow2_Z by lia. rewrite <- Zle_Qle. rewrite Z.add_1_r. lia.
    - rewrite pow2_Z by exact Ha. now rewrite <- Zle_Qle. }
  destruct (Qle_bool (pow2 (a - b)) (n # d)) eqn:E.
  - apply Qle_bool_iff in E. split; [exact E|exact Up].
  - split; [exact Lo|].
    replace (a - b - 1 + 1)%Z with (a - b)%Z by lia.
    apply Qnot_le_lt. intros C. apply Qle_bool_iff in C. congruence.
Qed.

Lemma floorLog2_unique q e :
  (pow2 e <= q)%Q -> (q < pow2 (e + 1))%Q -> floorLog2 q = e.
Proof.
  intros H1 H2.
  assert (Hq : (0 < q)%Q) by (eapply Qlt_le_trans; [apply pow2_pos|exact H1]).
  destruct (floorLog2_spec q Hq) as [S1 S2].
  assert (floorLog2 q < e + 1)%Z.
  { apply pow2_lt_inv. eapply Qle_lt_trans; [exact S1|exact H2]. }
  assert (e < floorLog2 q + 1)%Z.
  { apply pow2_lt_inv. eapply Qle_lt_trans; [exact H1|exact S2]. }
  lia.
Qed.

Lemma floorLog2_mono x y :
  (0 < x)%Q -> (x <= y)%Q -> (floorLog2 x <= floorLog2 y)%Z.
Proof.
  intros Hx H.
  assert (Hy : (0 < y)%Q) by (eapply Qlt_le_trans; [exact Hx|exact H]).
  destruct (floorLog2_spec x Hx) as [X1 _].
  destruct (floorLog2_spec y Hy) as [_ Y2].
  assert (floorLog2 x < floorLog2 y + 1)%Z; [|lia].
  apply pow2_lt_inv.
  eapply Qle_lt_trans; [exact X1|]. eapply Qle_lt_trans; [exact H|exact Y2].
Qed.

Lemma floorLog2_comp x y : (0 < x)%Q -> (x == y)%Q -> floorLog2 x = floorLog2 y.
Proof.
  intros Hx E. destruct (floorLog2_spec x Hx) as [X1 X2].
  symmetry. apply floorLog2_unique; now rewrite <- E.
Qed.

(** Rounding to the nearest integer. *)

Lemma roundEven_bounds y : (Qfloor y <= roundEven y <= Qfloor y + 1)%Z.
Proof.
  unfold roundEven. destruct (y - inject_Z (Qfloor y) ?= 1 # 2)%Q;
    [destruct (Z.even (Qfloor y))| |]; lia.
Qed.

Lemma roundEven_comp x y : (x == y)%Q -> roundEven x = roundEven y.
Proof.
  intros E. unfold roundEven. rewrite (Qfloor_comp _ _ E).
  assert (C : (x - inject_Z (Qfloor y) ?= 1 # 2)%Q = (y - inject_Z (Qfloor y) ?= 1 # 2)%Q).
  { apply Qcompare_comp; [now rewrite E|reflexivity]. }
  now rewrite C.
Qed.

Lemma roundEven_Z z : roundEven (inject_Z z) = z.
Proof.
  unfold roundEven. rewrite Qfloor_Z.
  assert (C : (inject_Z z - inject_Z z ?= 1 # 2)%Q = Lt).
  { rewrite <- Qlt_alt. unfold Qminus. rewrite Qplus_opp_r. reflexivity. }
  now rewrite C.
Qed.

Lemma roundEven_mono x y : (x <= y)%Q -> (roundEven x <= roundEven y)%Z.
Proof.
  intros H. pose proof (Qfloor_resp_le _ _ H) as F.
  pose proof (roundEven_bounds x) as Bx. pose proof (roundEven_bounds y) as By.
  destruct (Z.eq_dec (Qfloor x) (Qfloor y)) as [E|N]; [|lia].
  unfold roundEven in *. rewrite E in *.
  destruct (Qcompare_spec (x - inject_Z (Qfloor y)) (1 # 2)) as [C1|C1|C1];
    destruct (Qcompare_spec (y - inject_Z (Qfloor y)) (1 # 2)) as [C2|C2|C2];
    try lia; try (destruct (Z.even (Qfloor y)); lia); exfalso; lra.
Qed.

Lemma roundEven_nonneg y : (0 <= y)%Q -> (0 <= roundEven y)%Z.
Proof.
  intros H. rewrite <- (roundEven_Z 0). now apply roundEven_mono.
Qed.

(** ** Rounding *)

Lemma ulp_pos q : (0 < ulp q)%Q.
Proof. apply pow2_pos. Qed.

Lemma roundPos_nonneg q : (0 <= q)%Q -> (0 <= roundPos q)%Q.
Proof.
  intros H. unfold roundPos. apply Qmult_le_0_compat.
  - change 0%Q with (inject_Z 0). rewrite <- Zle_Qle. apply roundEven_nonneg.
    apply Qle_shift_div_l; [apply ulp_pos|]. lra.
  - apply Qlt_le_weak, ulp_pos.
Qed.

Lemma pow2_ratio a b : (pow2 a / pow2 b == pow2 (a - b))%Q.
Proof. symmetry. apply Qpower_minus. discriminate. Qed.

Lemma roundPos_mono x y : (0 < x)%Q -> (x <= y)%Q -> (roundPos x <= roundPos y)%Q.
Proof.
  intros Hx H.
  assert (Hy : (0 < y)%Q) by (eapply Qlt_le_trans; [exact Hx|exact H]).
  pose proof (floorLog2_mono x y Hx H) as M.
  destruct (floorLog2_spec x Hx) as [X1 X2].
  destruct (floorLog2_spec y Hy) as [Y1 Y2].
  unfold roundPos, ulp.
  set (ex := Z.max (floorLog2 x) (-1022)). set (ey := Z.max (floorLog2 y) (-1022)).
  assert (Le : (ex <= ey)%Z) by (unfold ex, ey; lia).
  destruct (Z.eq_dec ex ey) as [E|N].
  - rewrite <- E. apply Qmult_le_compat_r; [|apply Qlt_le_weak, pow2_pos].
    rewrite <- Zle_Qle. apply roundEven_mono.
    apply Qmult_le_compat_r; [exact H|]. apply Qinv_le_0_compat, Qlt_le_weak, pow2_pos.
  - assert (Ey : ey = floorLog2 y) by (unfold ex, ey in *; lia).
    apply Qle_trans with (pow2 (ex + 1)).
    + (* x rounds to at most the next power of two *)
      assert (R : (roundEven (x / pow2 (ex - 52)) <= 2 ^ 53)%Z).
      { rewrite <- (roundEven_Z (2 ^ 53)). apply roundEven_mono.
        apply Qle_shift_div_r; [apply pow2_pos|].
        rewrite <- (pow2_Z 53) by lia. rewrite <- pow2_plus.
        replace (53 + (ex - 52))%Z with (ex + 1)%Z by lia.
        apply Qlt_le_weak. eapply Qlt_le_trans; [exact X2|].
        apply pow2_le. unfold ex. lia. }
      rewrite Zle_Qle in R. rewrite <- (pow2_Z 53) in R by lia.
      replace (ex + 1)%Z with (53 + (ex - 52))%Z by lia. rewrite pow2_plus.
      apply Qmult_le_compat_r; [exact R|apply Qlt_le_weak, pow2_pos].
    + (* y rounds to at least the power of two below it *)
      apply Qle_trans with (pow2 ey); [apply pow2_le; lia|].
      assert (R : (2 ^ 52 <= roundEven (y / pow2 (ey - 52)))%Z).
      { rewrite <- (roundEven_Z (2 ^ 52)). apply roundEven_mono.
        apply Qle_shift_div_l; [apply pow2_pos|].
        rewrite <- (pow2_Z 52) by lia. rewrite <- pow2_plus.
        replace (52 + (ey - 52))%Z with ey by lia. now rewrite Ey. }
      rewrite Zle_Qle in R. rewrite <- (pow2_Z 52) in R by lia.
      replace ey with (52 + (ey - 52))%Z at 1 by lia. rewrite pow2_plus.
      apply Qmult_le_compat_r; [exact R|apply Qlt_le_weak, pow2_pos].
Qed.

Lemma roundPos_comp x y : (0 < x)%Q -> (x == y)%Q -> (roundPos x == roundPos y)%Q.
Proof.
  intros Hx E. unfold roundPos, ulp. rewrite (floorLog2_comp x y Hx E).
  rewrite (roundEven_comp (x / _) (y / pow2 (Z.max (floorLog2 y) (-1022) - 52))).
  - reflexivity.
  - now rewrite E.
Qed.

Lemma round64_comp x y : (x == y)%Q -> (round64 x == round64 y)%Q.
Proof.
  intros E. unfold round64.
  rewrite (Qcompare_comp x y E 0%Q 0%Q (Qeq_refl 0)).
  destruct (Qcompare_spec y 0) as [C|C|C]; [reflexivity| |].
  - apply Qopp_comp. apply roundPos_comp; [rewrite E; lra|now rewrite E].
  - apply roundPos_comp; [now rewrite E|exact E].
Qed.

Lemma round64_pos x : (0 < x)%Q -> round64 x = roundPos x.
Proof.
  intros H. unfold round64. now rewrite (proj1 (Qgt_alt x 0) H).
Qed.

Lemma round64_zero x : (x == 0)%Q -> round64 x = 0%Q.
Proof.
  intros H. unfold round64. now rewrite (proj1 (Qeq_alt x 0) H).
Qed.

Lemma round64_nonneg x : (0 <= x)%Q -> (0 <= round64 x)%Q.
Proof.
  intros H. unfold round64. destruct (Qcompare_spec x 0) as [C|C|C].
  - lra.
  - lra.
  - apply roundPos_nonneg. lra.
Qed.

(** Rounding keeps the order. *)
Lemma round64_mono x y :
  (0 <= x)%Q -> (x <= y)%Q -> (round64 x <= round64 y)%Q.
Proof.
  intros Hx H. destruct (Qcompare_spec x 0) as [C|C|C].
  - rewrite (round64_zero x C). apply round64_nonneg. lra.
  - lra.
  - rewrite (round64_pos x C), (round64_pos y) by lra.
    now apply roundPos_mono.
Qed.

(** The significand of the result has at most 53 bits, or is 2^53. *)
Lemma mantissa_le x :
  (0 < x)%Q ->
  (roundEven (x / pow2 (Z.max (floorLog2 x) (-1022) - 52)) <= 2 ^ 53)%Z.
Proof.
  intros Hx. destruct (floorLog2_spec x Hx) as [_ X2].
  set (ex := Z.max (floorLog2 x) (-1022)).
  rewrite <- (roundEven_Z (2 ^ 53)). apply roundEven_mono.
  apply Qle_shift_div_r; [apply pow2_pos|].
  rewrite <- (pow2_Z 53) by lia. rewrite <- pow2_plus.
  replace (53 + (ex - 52))%Z with (ex + 1)%Z by lia.
  apply Qlt_le_weak. eapply Qlt_le_trans; [exact X2|].
  apply pow2_le. unfold ex. lia.
Qed.

(** A double rounds to itself. *)
Lemma roundPos_idem x : (0 < x)%Q -> (round64 (roundPos x) == roundPos x)%Q.
Proof.
  intros Hx. pose proof (mantissa_le x Hx) as Mle.
  pose proof (roundPos_nonneg x (Qlt_le_weak _ _ Hx)) as Rn.
  unfold roundPos, ulp in *.
  set (E := Z.max (floorLog2 x) (-1022)) in *.
  set (m := roundEven (x / pow2 (E - 52))) in *.
  set (r := (inject_Z m * pow2 (E - 52))%Q) in *.
  assert (Hm : (0 <= m)%Z).
  { apply roundEven_nonneg. apply Qle_shift_div_l; [apply pow2_pos|]. lra. }
  destruct (Z.eq_dec m 0) as [M0|M0].
  { assert (Z0 : (r == 0)%Q) by (unfold r; rewrite M0; apply Qmult_0_l).
    rewrite (round64_zero r Z0). now rewrite Z0. }
  assert (Hr : (0 < r)%Q).
  { unfold r. apply Qmult_lt_0_compat; [|apply pow2_pos].
    change 0%Q with (inject_Z 0). rewrite <- Zlt_Qlt. lia. }
  rewrite (round64_pos r Hr). unfold roundPos, ulp.
  set (E' := Z.max (floorLog2 r) (-1022)).
  destruct (floorLog2_spec r Hr) as [R1 R2].
  destruct (Z.eq_dec m (2 ^ 53)) as [Mx|Mx].
  - (* the mantissa reached the next binade *)
    assert (Er : (r == pow2 (E + 1))%Q).
    { unfold r. rewrite Mx, <- (pow2_Z 53), <- pow2_plus by lia.
      now replace (53 + (E - 52))%Z with (E + 1)%Z by lia. }
    assert (Fr : floorLog2 r = (E + 1)%Z).
    { apply floorLog2_unique; rewrite Er; [apply Qle_refl|apply pow2_lt; lia]. }
    assert (E'e : E' = (E + 1)%Z) by (unfold E', E in *; lia).
    rewrite E'e.
    assert (Q : (r / pow2 (E + 1 - 52) == inject_Z (2 ^ 52))%Q).
    { rewrite Er, pow2_ratio, <- pow2_Z by lia.
      now replace (E + 1 - (E + 1 - 52))%Z with 52%Z by lia. }
    rewrite (roundEven_comp _ _ Q), roundEven_Z, Er.
    rewrite <- (pow2_Z 52), <- pow2_plus by lia.
    now replace (52 + (E + 1 - 52))%Z with (E + 1)%Z by lia.
  - assert (Lt : (r < pow2 (E + 1))%Q).
    { unfold r. replace (E + 1)%Z with (53 + (E - 52))%Z by lia.
      rewrite pow2_plus. apply Qmult_lt_r; [apply pow2_pos|].
      rewrite pow2_Z by lia. rewrite <- Zlt_Qlt. lia. }
    assert (Fr : (floorLog2 r <= E)%Z).
    { assert (floorLog2 r < E + 1)%Z; [|lia]. apply pow2_lt_inv.
      eapply Qle_lt_trans; [exact R1|exact Lt]. }
    assert (E'e : (E' <= E)%Z) by (unfold E', E in *; lia).
    assert (Q : (r / pow2 (E' - 52) == inject_Z (m * 2 ^ (E - E')))%Q).
    { unfold r, Qdiv. rewrite <- Qmult_assoc.
      change (pow2 (E - 52) * / pow2 (E' - 52))%Q
        with (pow2 (E - 52) / pow2 (E' - 52))%Q.
      rewrite pow2_ratio. replace (E - 52 - (E' - 52))%Z with (E - E')%Z by lia.
      rewrite pow2_Z by lia. now rewrite inject_Z_mult. }
    rewrite (roundEven_comp _ _ Q), roundEven_Z.
    rewrite inject_Z_mult, <- (pow2_Z (E - E')) by lia.
    unfold r. rewrite <- Qmult_assoc, <- pow2_plus.
    now replace (E - E' + (E' - 52))%Z with (E - 52)%Z by lia.
Qed.

Lemma round64_idem x : (0 <= x)%Q -> (round64 (round64 x) == round64 x)%Q.
Proof.
  intros H. destruct (Qcompare_spec x 0) as [C|C|C].
  - rewrite (round64_zero x C). reflexivity.
  - lra.
  - rewrite (round64_pos x C). now apply roundPos_idem.
Qed.

(** The model agrees with the formalisation of IEEE 754 of the standard
    library on the operations of one frame, 205 ms after the start: the
    quotient is below 0.1025, and the product below 123. *)
Lemma round64_SpecFloat_samples :
  SF2Q (SFdiv 53 1024 (Z2SF 205) (Z2SF 2000)) = Some (Qred (fdiv 205 2000))
  /\ SF2Q (SFmul 53 1024 (Z2SF 1200) (SFdiv 53 1024 (Z2SF 205) (Z2SF 2000)))
     = Some (Qred (fmul 1200 (fdiv 205 2000)))
  /\ SF2Q (SFdiv 53 1024 (Z2SF 1) (Z2SF 3)) = Some (Qred (fdiv 1 3))
  /\ SF2Q (SFdiv 53 1024 (Z2SF (-7)) (Z2SF 3)) = Some (Qred (fdiv (-7) 3))
  /\ SF2Q (Z2SF 9007199254740993) = Some (Qred (round64 9007199254740993))
  /\ SF2Q (SFdiv 53 1024 (binary_normalize 53 1024 3 (-1074) false) (Z2SF 2))
     = Some (Qred (fdiv (3 * pow2 (-1074)) 2))
  /\ (fdiv 205 2000 < 205 / 2000)%Q
  /\ Qfloor (fmul 1200 (fdiv 205 2000)) = 122%Z.
Proof. vm_compute. repeat split. Qed.

(** ** Counter animation *)

Lemma div2000 (e : Q) : (e / 2000 == e * (1 # 2000))%Q.
Proof. reflexivity. Qed.

Lemma Math_min_mono x y : (x <= y)%Q -> (Math_min x 1 <= Math_min y 1)%Q.
Proof.
  intros H. unfold Math_min.
  destruct (Qle_bool x 1) eqn:E1; destruct (Qle_bool y 1) eqn:E2; try lra.
  - now apply Qle_bool_iff in E1.
  - apply Qle_bool_iff in E2.
    assert (~ (x <= 1)%Q) by (rewrite <- Qle_bool_iff; congruence). lra.
Qed.

Lemma Math_min_le x : (Math_min x 1 <= 1)%Q.
Proof.
  unfold Math_min. destruct (Qle_bool x 1) eqn:E; [|lra].
  now apply Qle_bool_iff in E.
Qed.

Lemma Math_min_ge x : (1 <= x)%Q -> (Math_min x 1 == 1)%Q.
Proof.
  intros H. unfold Math_min. destruct (Qle_bool x 1) eqn:E; [|reflexivity].
  apply Qle_bool_iff in E. lra.
Qed.

(** The elapsed time and the progress, as the script computes them. *)
Lemma elapsed_nonneg t0 t : (t0 <= t)%Q -> (0 <= fsub t t0)%Q.
Proof. intros H. apply round64_nonneg. lra. Qed.

Lemma elapsed_mono t0 t1 t2 :
  (t0 <= t1)%Q -> (t1 <= t2)%Q -> (fsub t1 t0 <= fsub t2 t0)%Q.
Proof. intros H1 H2. apply round64_mono; lra. Qed.

Lemma progress_nonneg t0 t : (t0 <= t)%Q -> (0 <= progress1200 t0 t)%Q.
Proof.
  intros H. unfold progress1200, Math_min.
  destruct (Qle_bool _ 1); [|lra].
  apply round64_nonneg. pose proof (elapsed_nonneg t0 t H).
  rewrite div2000. lra.
Qed.

Lemma progress_mono t0 t1 t2 :
  (t0 <= t1)%Q -> (t1 <= t2)%Q -> (progress1200 t0 t1 <= progress1200 t0 t2)%Q.
Proof.
  intros H1 H2. unfold progress1200. apply Math_min_mono.
  pose proof (elapsed_nonneg t0 t1 H1). pose proof (elapsed_mono t0 t1 t2 H1 H2).
  apply round64_mono; rewrite !div2000; lra.
Qed.

Lemma progress_start t0 : progress1200 t0 t0 = 0%Q.
Proof.
  unfold progress1200, fsub, fdiv.
  rewrite (round64_zero (t0 - t0)) by lra. reflexivity.
Qed.

Lemma progress_end t0 t : (2000 <= t - t0)%Q -> (progress1200 t0 t == 1)%Q.
Proof.
  intros H. unfold progress1200. apply Math_min_ge.
  assert (E : (2000 <= fsub t t0)%Q).
  { apply Qle_trans with (round64 2000); [vm_compute; discriminate|].
    apply round64_mono; lra. }
  apply Qle_trans with (round64 (2000 / 2000)); [vm_compute; discriminate|].
  apply round64_mono; rewrite ?div2000; lra.
Qed.

(** The number a frame shows. *)
Lemma shownAt_mono t0 t1 t2 :
  (t0 <= t1)%Q -> (t1 <= t2)%Q -> (shownAt t0 t1 <= shownAt t0 t2)%Z.
Proof.
  intros H1 H2. unfold shownAt, fmul. apply Qfloor_resp_le.
  pose proof (progress_nonneg t0 t1 H1). pose proof (progress_mono t0 t1 t2 H1 H2).
  apply round64_mono; lra.
Qed.

Lemma shownAt_full t0 t : (1 <= progress1200 t0 t)%Q -> shownAt t0 t = 1200%Z.
Proof.
  intros H. pose proof (Math_min_le (fdiv (fsub t t0) 2000)) as L.
  fold (progress1200 t0 t) in L.
  assert (E : (progress1200 t0 t == 1)%Q) by lra.
  unfold shownAt, fmul.
  assert (E2 : (round64 (1200 * progress1200 t0 t) == inject_Z 1200)%Q).
  { rewrite (round64_comp _ (1200 * 1)) by (now rewrite E). reflexivity. }
  rewrite (Qfloor_comp _ _ E2). apply Qfloor_Z.
Qed.

Lemma shownAt_end t0 t : (2000 <= t - t0)%Q -> shownAt t0 t = 1200%Z.
Proof.
  intros H. apply shownAt_full. rewrite (progress_end t0 t H). lra.
Qed.

Lemma shownAt_start t0 : shownAt t0 t0 = 0%Z.
Proof. unfold shownAt. rewrite progress_start. reflexivity. Qed.

Lemma currentAt_1200 i t0 t :
  (t0 <= t)%Q -> currentAt (anim1200 i t0) t = Some (shownAt t0 t).
Proof.
  intros H. unfold currentAt, anim1200, progressAt, duration.
  cbn [end_ start startTime]. fold (progress1200 t0 t). f_equal.
  unfold shownAt. apply Qfloor_comp.
  pose proof (progress_nonneg t0 t H) as P.
  assert (A : (fsub (inject_Z 1200) (inject_Z 0) == 1200)%Q) by reflexivity.
  unfold fadd, fmul.
  rewrite (round64_comp (inject_Z 0 + _) (round64 (1200 * progress1200 t0 t))).
  - apply round64_idem. lra.
  - rewrite (round64_comp (_ * progress1200 t0 t) (1200 * progress1200 t0 t))
      by (now rewrite A).
    change (inject_Z 0) with 0%Q. lra.
Qed.

Lemma running_1200 i t0 t :
  lt (progressAt (anim1200 i t0) t) 1 = true <-> (progress1200 t0 t < 1)%Q.
Proof.
  unfold progressAt, anim1200, duration. cbn [startTime].
  fold (progress1200 t0 t). unfold lt. rewrite negb_true_iff. split.
  - intros H. apply Qnot_le_lt. intros C. apply Qle_bool_iff in C. congruence.
  - intros H. destruct (Qle_bool 1 (progress1200 t0 t)) eqn:E; [|reflexivity].
    apply Qle_bool_iff in E. lra.
Qed.

(** Callbacks of other elements leave element [i] alone. *)
Lemma frame_others i t : forall anims q,
  Forall (fun a => element a <> i) anims ->
  let r := fold_left (fun q a => updateCounter a t q) anims q in
  nth_error (stats r) i = nth_error (stats q) i
  /\ animsOf i (frames r) = animsOf i (frames q).
Proof.
  induction anims as [|a anims IH]; intros q F; cbv zeta; cbn [fold_left].
  - now split.
  - inversion F as [|? ? Ha Fa]; subst.
    destruct (IH (updateCounter a t q) Fa) as [H1 H2]. cbv zeta in H1, H2.
    rewrite H1, H2. unfold updateCounter.
    destruct (lt (progressAt a t) 1); cbn [stats frames].
    + split; [now apply nth_error_updateNth_other|].
      unfold animsOf. rewrite filter_app. cbn [filter].
      destruct (Nat.eqb_spec (element a) i); [contradiction|].
      now rewrite app_nil_r.
    + split; [now apply nth_error_updateNth_other|reflexivity].
Qed.

Lemma animsOf_split i a l :
  animsOf i l = [a] ->
  exists l1 l2, l = l1 ++ a :: l2
                /\ Forall (fun x => element x <> i) l1
                /\ Forall (fun x => element x <> i) l2
                /\ element a = i.
Proof.
  unfold animsOf. induction l as [|x l IH]; cbn [filter]; [discriminate|].
  destruct (Nat.eqb_spec (element x) i) as [E|E].
  - intros [= -> H]. exists [], l. split; [reflexivity|].
    split; [constructor|]. split; [|exact E].
    apply Forall_forall. intros y Hy Ey.
    assert (In y (filter (fun a => element a =? i) l)).
    { apply filter_In. split; [exact Hy|now apply Nat.eqb_eq]. }
    rewrite H in *. contradiction.
  - intros H. destruct (IH H) as (l1 & l2 & -> & F1 & F2 & Ea).
    exists (x :: l1), l2. split; [reflexivity|].
    split; [now constructor|now split].
Qed.

Lemma animsOf_none i l :
  animsOf i l = [] -> Forall (fun x => element x <> i) l.
Proof.
  intros H. apply Forall_forall. intros y Hy Ey.
  assert (In y (animsOf i l)).
  { apply filter_In. split; [exact Hy|now apply Nat.eqb_eq]. }
  rewrite H in *. contradiction.
Qed.

(** One animation frame, for an element with one animation pending. *)
Lemma frame_one i t0 t p s :
  (t0 <= t)%Q ->
  nth_error (stats p) i = Some s ->
  animsOf i (frames p) = [anim1200 i t0] ->
  let r := animationFrame t p in
  nth_error (stats r) i = Some (setText (shownText t0 t) s)
  /\ animsOf i (frames r)
     = if lt (progressAt (anim1200 i t0) t) 1 then [anim1200 i t0] else [].
Proof.
  intros Ht Hs Ha. destruct (animsOf_split _ _ _ Ha) as (l1 & l2 & E & F1 & F2 & _).
  cbv zeta. unfold animationFrame. rewrite E, fold_left_app. cbn [fold_left].
  set (q0 := mkStatPage (stats p) []).
  destruct (frame_others i t l1 q0 F1) as [A1 A2]. cbv zeta in A1, A2.
  set (q1 := fold_left (fun q a => updateCounter a t q) l1 q0) in *.
  destruct (frame_others i t l2 (updateCounter (anim1200 i t0) t q1) F2)
    as [B1 B2]. cbv zeta in B1, B2. rewrite B1, B2.
  unfold updateCounter. rewrite (currentAt_1200 i t0 t Ht).
  cbn [element anim1200 suffix]. fold (shownText t0 t).
  destruct (lt (progressAt _ t) 1); cbn [stats frames].
  - split.
    + rewrite nth_error_updateNth, A1. unfold q0. cbn [stats]. now rewrite Hs.
    + unfold animsOf in *. rewrite filter_app, A2. cbn [filter element].
      now rewrite Nat.eqb_refl.
  - split.
    + rewrite nth_error_updateNth, A1. unfold q0. cbn [stats]. now rewrite Hs.
    + rewrite A2. reflexivity.
Qed.

Lemma frame_none i t p :
  animsOf i (frames p) = [] ->
  let r := animationFrame t p in
  nth_error (stats r) i = nth_error (stats p) i
  /\ animsOf i (frames r) = [].
Proof.
  intros Ha. cbv zeta. unfold animationFrame.
  destruct (frame_others i t (frames p) (mkStatPage (stats p) [])
              (animsOf_none _ _ Ha)) as [A1 A2].
  cbv zeta in A1, A2. now rewrite A1, A2.
Qed.

Lemma last_cons (A : Type) (l : list A) : forall x d,
  last (x :: l) d = last l x.
Proof.
  induction l as [|y l IH]; intros x d; [reflexivity|].
  change (last (x :: y :: l) d) with (last (y :: l) d).
  now rewrite !IH.
Qed.

Lemma sorted_tail_le : forall ts t,
  StronglySorted Qle (t :: ts) -> (t <= last ts t)%Q.
Proof.
  induction ts as [|t1 ts IH]; intros t S; [cbn; lra|].
  rewrite last_cons. inversion S as [|? ? S1 F1]; subst.
  inversion F1 as [|? ? Ht Fts]; subst.
  apply Qle_trans with t1; [exact Ht|]. now apply IH.
Qed.

Lemma shownText_full t0 t :
  (1 <= progress1200 t0 t)%Q -> shownText t0 t = js "1200+".
Proof. intros H. unfold shownText. now rewrite (shownAt_full t0 t H). Qed.

(** The frames of an animation, in order of time. *)
Lemma frames_run i t0 : forall ts t p,
  Animating i t0 t p ->
  (t0 <= t)%Q ->
  StronglySorted Qle (t :: ts) ->
  Animating i t0 (last ts t) (runFrames ts p)
  /\ (ts <> [] ->
      textOf i (runFrames ts p) = Some (shownText t0 (last ts t))).
Proof.
  induction ts as [|t1 ts IH]; intros t p A H0 S.
  - cbn [runFrames fold_left last]. split; [exact A|]. intros C; now elim C.
  - inversion S as [|? ? S1 F1]; subst. inversion F1 as [|? ? Ht Fts]; subst.
    change (runFrames (t1 :: ts) p) with (runFrames ts (animationFrame t1 p)).
    assert (L : last (t1 :: ts) t = last ts t1) by apply last_cons.
    rewrite L.
    assert (H1 : (t0 <= t1)%Q) by lra.
    assert (A1 : Animating i t0 t1 (animationFrame t1 p)
                 /\ textOf i (animationFrame t1 p) = Some (shownText t0 t1)).
    { destruct A as ((s & Hs & Ho) & [[Ha Hr]|(Ha & Hd & Ht')]).
      - destruct (frame_one i t0 t1 p s H1 Hs Ha) as [E1 E2]. cbv zeta in E1, E2.
        split; [split|].
        + eexists. split; [exact E1|exact Ho].
        + rewrite E2. destruct (lt (progressAt (anim1200 i t0) t1) 1) eqn:R.
          * left. split; [reflexivity|]. exact (proj1 (running_1200 i t0 t1) R).
          * right. split; [reflexivity|].
            assert (Hge : (1 <= progress1200 t0 t1)%Q).
            { apply Qnot_lt_le. intros C.
              pose proof (proj2 (running_1200 i t0 t1) C). congruence. }
            split; [exact Hge|]. unfold textOf. rewrite E1.
            cbn [option_map setText statText].
            now rewrite (shownText_full _ _ Hge).
        + unfold textOf. rewrite E1. reflexivity.
      - destruct (frame_none i t1 p Ha) as [E1 E2]. cbv zeta in E1, E2.
        assert (Hge : (1 <= progress1200 t0 t1)%Q).
        { apply Qle_trans with (progress1200 t0 t); [exact Hd|].
          now apply progress_mono. }
        split; [split|].
        + exists s. now rewrite E1.
        + right. split; [exact E2|]. split; [exact Hge|].
          unfold textOf in *. now rewrite E1.
        + unfold textOf in *. rewrite E1, Ht', (shownText_full _ _ Hge).
          reflexivity. }
    destruct A1 as [A1 T1].
    destruct (IH t1 (animationFrame t1 p) A1 H1 S1) as [A2 T2].
    split; [exact A2|]. intros _. destruct ts as [|t2 ts].
    + exact T1.
    + apply T2. discriminate.
Qed.

(** ** The observer *)

Lemma callback_others i now : forall es q,
  Forall (fun e : Entry => fst e <> i) es ->
  nth_error (stats (statCallback es now q)) i = nth_error (stats q) i
  /\ animsOf i (frames (statCallback es now q)) = animsOf i (frames q).
Proof.
  unfold statCallback.
  induction es as [|[j v] es IH]; intros q F; cbn [fold_left]; [now split|].
  inversion F as [|? ? Hj Fe]; subst. cbn [fst] in Hj.
  match goal with |- context [fold_left ?f es ?q'] =>
    destruct (IH q' Fe) as [H1 H2] end.
  rewrite H1, H2. destruct v; [|now split].
  destruct (nth_error (stats q) j) as [s|]; [|now split].
  unfold animateCounter. cbn [stats frames]. split.
  - now apply nth_error_updateNth_other.
  - unfold animsOf. rewrite filter_app. cbn [filter element].
    destruct (Nat.eqb_spec j i); [contradiction|]. now rewrite app_nil_r.
Qed.

Lemma statCallback_app es1 es2 now q :
  statCallback (es1 ++ es2) now q = statCallback es2 now (statCallback es1 now q).
Proof. unfold statCallback. apply fold_left_app. Qed.

(** Once unobserved, an element is never animated again. *)
Lemma notify_unobserved i es now p s :
  nth_error (stats p) i = Some s -> observed s = false ->
  nth_error (stats (notify es now p)) i = nth_error (stats p) i
  /\ animsOf i (frames (notify es now p)) = animsOf i (frames p).
Proof.
  intros Hs Ho. unfold notify. apply callback_others.
  apply Forall_forall. intros [j v] Hin Ej. cbn [fst] in Ej. subst j.
  apply filter_In in Hin as [_ Hin]. cbn [fst] in Hin.
  rewrite Hs in Hin. congruence.
Qed.

(** The first report of visibility starts the animation. *)
Lemma notify_start i es1 es2 t0 p s :
  nth_error (stats p) i = Some s ->
  statText s = js "1200+" -> observed s = true ->
  animsOf i (frames p) = [] ->
  Forall (fun e : Entry => fst e <> i) es1 ->
  Forall (fun e : Entry => fst e <> i) es2 ->
  let p1 := notify (es1 ++ (i, true) :: es2) t0 p in
  Animating i t0 t0 p1 /\ textOf i p1 = Some (js "1200+").
Proof.
  intros Hs Ht Ho Ha F1 F2. cbv zeta. unfold notify.
  set (obs := fun entry : Entry =>
                match nth_error (stats p) (fst entry) with
                | Some s => observed s
                | None => false
                end).
  assert (E : filter obs (es1 ++ (i, true) :: es2)
              = filter obs es1 ++ [(i, true)] ++ filter obs es2).
  { rewrite filter_app. cbn [filter]. unfold obs at 2. cbn [fst].
    now rewrite Hs, Ho. }
  rewrite E, !statCallback_app.
  assert (G1 : Forall (fun e : Entry => fst e <> i) (filter obs es1)).
  { apply Forall_forall. intros e He. apply filter_In in He as [He _].
    rewrite Forall_forall in F1. now apply F1. }
  assert (G2 : Forall (fun e : Entry => fst e <> i) (filter obs es2)).
  { apply Forall_forall. intros e He. apply filter_In in He as [He _].
    rewrite Forall_forall in F2. now apply F2. }
  destruct (callback_others i t0 (filter obs es1) p G1) as [A1 A2].
  set (q1 := statCallback (filter obs es1) t0 p) in *.
  match goal with |- context [statCallback (filter obs es2) t0 ?q] =>
    destruct (callback_others i t0 (filter obs es2) q G2) as [B1 B2];
    set (q2 := q) in * end.
  assert (C : nth_error (stats q2) i = Some (unobserve s)
              /\ animsOf i (frames q2) = [anim1200 i t0]).
  { unfold q2, statCallback. cbn [fold_left]. rewrite A1, Hs, Ht.
    unfold animateCounter. cbn [stats frames]. split.
    - now rewrite nth_error_updateNth, A1, Hs.
    - unfold animsOf in *. rewrite filter_app, A2, Ha. cbn [filter element app].
      now rewrite Nat.eqb_refl. }
  destruct C as [C1 C2]. unfold Animating, textOf. rewrite B1, B2, C1, C2.
  split; [split|].
  - exists (unobserve s). now split.
  - left. split; [reflexivity|]. rewrite progress_start. reflexivity.
  - cbn [option_map unobserve statText]. now rewrite Ht.
Qed.

Lemma Animating_observed i t0 t p :
  Animating i t0 t p ->
  exists s, nth_error (stats p) i = Some s /\ observed s = false.
Proof. now intros [H _]. Qed.

Lemma sorted_prefix (A : Type) (R : A -> A -> Prop) (l1 l2 : list A) :
  StronglySorted R (l1 ++ l2) -> StronglySorted R l1.
Proof.
  induction l1 as [|x l1 IH]; [constructor|]. cbn [app]. intros S.
  inversion S as [|? ? S1 F1]; subst. constructor; [now apply IH|].
  now apply Forall_app in F1 as [F1 _].
Qed.

Lemma last_app_cons (A : Type) (l1 l2 : list A) d :
  last (l1 ++ l2) d = last l2 (last l1 d).
Proof.
  revert d. induction l1 as [|x l1 IH]; intros d; [reflexivity|].
  change ((x :: l1) ++ l2) with (x :: (l1 ++ l2)).
  now rewrite !last_cons, IH.
Qed.

Lemma sorted_last_le t0 ts1 ts2 :
  StronglySorted Qle (t0 :: ts1 ++ ts2) ->
  (t0 <= last ts1 t0)%Q /\ (last ts1 t0 <= last (ts1 ++ ts2) t0)%Q.
Proof.
  intros S. split.
  - apply sorted_tail_le. exact (sorted_prefix _ _ (t0 :: ts1) ts2 S).
  - rewrite last_app_cons. apply sorted_tail_le.
    destruct (exists_last (l := t0 :: ts1)) as (pre & x & E); [discriminate|].
    assert (Ex : last ts1 t0 = x).
    { rewrite <- (last_cons _ ts1 t0 t0), E. apply last_last. }
    rewrite Ex.
    change (t0 :: ts1 ++ ts2) with ((t0 :: ts1) ++ ts2) in S.
    rewrite E, <- app_assoc in S. cbn [app] in S.
    exact (StronglySorted_app_r _ _ _ _ S).
Qed.

(** C9: a statistic whose text is "1200+" is animated on its first
    visibility.  Every frame writes
    floor(1200 * min(elapsed / 2000, 1)) followed by "+", computed in
    double arithmetic as the script computes it: "0+" for a frame at the
    start time, never less than the frame before, and "1200+" once the
    elapsed time has reached 2000 ms, where the animation stops; no later
    report of visibility animates the element again. *)
Theorem counter_animation (p : StatPage) (i : nat) (s : Stat)
    (es1 es2 later : list Entry) (t0 now' : Q) (ts : list Q) :
  nth_error (stats p) i = Some s ->
  statText s = js "1200+" ->
  observed s = true ->
  animsOf i (frames p) = [] ->
  Forall (fun e : Entry => fst e <> i) es1 ->
  Forall (fun e : Entry => fst e <> i) es2 ->
  StronglySorted Qle (t0 :: ts) ->
  let p1 := notify (es1 ++ (i, true) :: es2) t0 p in
  let p2 := runFrames ts p1 in
  textOf i (runFrames [t0] p1) = Some (js "0+")
  /\ (forall ts1 ts2, ts = ts1 ++ ts2 -> ts1 <> [] ->
      textOf i (runFrames ts1 p1)
      = Some (numToString (Some (shownAt t0 (last ts1 t0))) ++ js "+")%list
      /\ (shownAt t0 (last ts1 t0) <= shownAt t0 (last ts t0))%Z)
  /\ (ts <> [] -> (2000 <= last ts t0 - t0)%Q ->
      textOf i p2 = Some (js "1200+") /\ animsOf i (frames p2) = [])
  /\ textOf i (notify later now' p2) = textOf i p2
  /\ animsOf i (frames (notify later now' p2)) = animsOf i (frames p2).
Proof.
  intros Hs Ht Ho Ha F1 F2 S. cbv zeta.
  destruct (notify_start i es1 es2 t0 p s Hs Ht Ho Ha F1 F2) as [A1 T1].
  cbv zeta in A1, T1.
  destruct (frames_run i t0 ts t0 _ A1 (Qle_refl t0) S) as [A2 T2].
  split; [|split; [|split]].
  - destruct (frames_run i t0 [t0] t0 _ A1 (Qle_refl t0)) as [_ T0].
    { constructor; [constructor; constructor|]. constructor; [apply Qle_refl|constructor]. }
    rewrite T0 by discriminate. cbn [last]. unfold shownText.
    now rewrite shownAt_start.
  - intros ts1 ts2 E Hn. subst ts.
    destruct (sorted_last_le t0 ts1 ts2 S) as [L1 L2].
    destruct (frames_run i t0 ts1 t0 _ A1 (Qle_refl t0)
                (sorted_prefix _ _ (t0 :: ts1) ts2 S)) as [_ T].
    split; [exact (T Hn)|]. now apply shownAt_mono.
  - intros Hn Hd. rewrite (T2 Hn). unfold shownText.
    rewrite (shownAt_end _ _ Hd). split; [reflexivity|].
    destruct A2 as (_ & [[_ C]|[C _]]); [|exact C].
    rewrite (progress_end _ _ Hd) in C. lra.
  - destruct (Animating_observed _ _ _ _ A2) as (s2 & Hs2 & Ho2).
    destruct (notify_unobserved i later now' _ s2 Hs2 Ho2) as [N1 N2].
    split; [|exact N2]. unfold textOf. now rewrite N1.
Qed.

Lemma sorted_sample :
  StronglySorted Qle [0; 16; 205; 1000; 2000; 2016]%Q.
Proof.
  repeat (constructor; [|repeat (constructor; try (unfold Qle; cbn; lia))]).
  constructor.
Qed.

Lemma counter_animation_witness :
  textOf 0 (runFrames [16; 205]%Q (notify [(0, true)] 0%Q statPage1200))
  = Some (js "122+")
  /\ textOf 0 (runFrames [16; 205; 1000; 2000; 2016]%Q
                 (notify [(0, true)] 0%Q statPage1200))
     = Some (js "1200+")
  /\ animsOf 0 (frames (runFrames [16; 205; 1000; 2000; 2016]%Q
                          (notify [(0, true)] 0%Q statPage1200))) = [].
Proof.
  destruct (counter_animation statPage1200 0 (mkStat (js "1200+") true)
              [] [] [] 0%Q 0%Q [16; 205; 1000; 2000; 2016]%Q)
    as (_ & H1 & H2 & _).
  - reflexivity.
  - reflexivity.
  - reflexivity.
  - reflexivity.
  - constructor.
  - constructor.
  - exact sorted_sample.
  - split.
    + destruct (H1 [16; 205]%Q [1000; 2000; 2016]%Q eq_refl) as [E _];
        [discriminate|]. etransitivity; [exact E|vm_compute; reflexivity].
    + apply H2; [discriminate|]. unfold Qle. cbn. lia.
Defined.
(** ** Mobile navigation *)

Lemma contains_toggle_same c l : contains c (toggle c l) = negb (contains c l).
Proof.
  unfold toggle. destruct (contains c l) eqn:E; cbn [negb].
  - apply contains_remove_same.
  - apply contains_add_same.
Qed.

Lemma contains_toggle_other c c' l :
  c <> c' -> contains c (toggle c' l) = contains c l.
Proof.
  intros H. unfold toggle. destruct (contains c' l).
  - now apply contains_remove_other.
  - now apply contains_add_other.
Qed.

Lemma navStep_present t m k ev :
  exists t' m',
    navStep (mkNav (Some t) (Some m) k) ev = mkNav (Some t') (Some m') k
    /\ contains "active" t' = menuMachine k (contains "active" t) ev
    /\ contains "active" m' = menuMachine k (contains "active" m) ev
    /\ (forall c, c <> "active"%string ->
        contains c t' = contains c t /\ contains c m' = contains c m).
Proof.
  destruct ev as [|i]; cbn [navStep navToggle navMenu navLinks menuMachine].
  - eexists. eexists. split; [reflexivity|].
    split; [apply contains_toggle_same|]. split; [apply contains_toggle_same|].
    intros c Hc. split; now apply contains_toggle_other.
  - destruct (i <? k).
    + eexists. eexists. split; [reflexivity|].
      split; [apply contains_remove_same|]. split; [apply contains_remove_same|].
      intros c Hc. split; now apply contains_remove_other.
    + exists t, m. repeat split.
Qed.

Lemma navRun_present (k : nat) : forall evs t m,
  exists t' m',
    navRun evs (mkNav (Some t) (Some m) k) = mkNav (Some t') (Some m') k
    /\ contains "active" t' = fold_left (menuMachine k) evs (contains "active" t)
    /\ contains "active" m' = fold_left (menuMachine k) evs (contains "active" m)
    /\ (forall c, c <> "active"%string ->
        contains c t' = contains c t /\ contains c m' = contains c m).
Proof.
  induction evs as [|ev evs IH]; intros t m.
  - exists t, m. repeat split; trivial.
  - destruct (navStep_present t m k ev) as (t1 & m1 & E & Ht & Hm & Ho).
    destruct (IH t1 m1) as (t' & m' & E' & Ht' & Hm' & Ho').
    exists t', m'. cbn [navRun fold_left]. rewrite E.
    split; [exact E'|]. split; [now rewrite Ht', Ht|].
    split; [now rewrite Hm', Hm|].
    intros c Hc. destruct (Ho c Hc) as [A1 A2]. destruct (Ho' c Hc) as [B1 B2].
    split; congruence.
Qed.

(** X1: with the toggle control and the menu both present, the class
    "active" follows on both the two-state machine of the menu through
    every sequence of clicks: they stay in step when they start in step,
    and no other class of either element ever changes. *)
Theorem nav_follows_menu_machine (t m : list string) (k : nat)
    (evs : list NavEvent) :
  exists t' m',
    navRun evs (mkNav (Some t) (Some m) k) = mkNav (Some t') (Some m') k
    /\ contains "active" t' = fold_left (menuMachine k) evs (contains "active" t)
    /\ contains "active" m' = fold_left (menuMachine k) evs (contains "active" m)
    /\ (contains "active" t = contains "active" m ->
        contains "active" t' = contains "active" m')
    /\ (forall c, c <> "active"%string ->
        contains c t' = contains c t /\ contains c m' = contains c m).
Proof.
  destruct (navRun_present k evs t m) as (t' & m' & E & Ht & Hm & Ho).
  exists t', m'. split; [exact E|]. split; [exact Ht|]. split; [exact Hm|].
  split; [|exact Ho]. intros H. now rewrite Ht, Hm, H.
Qed.

(** X2: a click on a link of the menu closes the menu whatever happened
    before: after it neither the toggle control nor the menu carries
    "active". *)
Theorem nav_link_closes (t m : list string) (k i : nat) (evs : list NavEvent) :
  i < k ->
  let n := navRun (evs ++ [LinkClick i]) (mkNav (Some t) (Some m) k) in
  isOpen (navToggle n) = false /\ isOpen (navMenu n) = false.
Proof.
  intros Hi. cbv zeta.
  destruct (navRun_present k (evs ++ [LinkClick i]) t m)
    as (t' & m' & E & Ht & Hm & _).
  rewrite E. cbn [navToggle navMenu isOpen]. rewrite Ht, Hm, !fold_left_app.
  cbn [fold_left menuMachine]. apply Nat.ltb_lt in Hi. now rewrite Hi.
Qed.

Lemma nav_link_closes_witness :
  let n := navRun [ToggleClick; LinkClick 1]
             (mkNav (Some ["nav-toggle"%string]) (Some ["nav-menu"%string]) 3) in
  isOpen (navToggle n) = false /\ isOpen (navMenu n) = false.
Proof.
  apply (nav_link_closes ["nav-toggle"%string] ["nav-menu"%string] 3 1 [ToggleClick]).
  lia.
Defined.


(** ** One-shot intersection observers *)

Section OneShotFacts.
Variable T : Type.
Variable onVisible : T -> T.
Hypothesis onVisible_twice : forall x, onVisible (onVisible x) = onVisible x.

Lemma oneShotCallback_at i : forall (es : list Entry) (q : list (Observed T)) o,
  nth_error q i = Some o ->
  nth_error (oneShotCallback onVisible es q) i
  = Some (if existsb (reports i) es then (onVisible (fst o), false) else o).
Proof.
  unfold oneShotCallback.
  induction es as [|[j v] es IH]; intros q o Hq; cbn [fold_left existsb];
    [exact Hq|].
  unfold reports at 1. cbn [fst snd].
  destruct v; [|rewrite andb_false_r; now apply IH].
  destruct (Nat.eqb_spec j i) as [->|N]; cbn [andb orb].
  - rewrite (IH _ (onVisible (fst o), false)).
    + cbn [fst]. rewrite onVisible_twice. now destruct (existsb _ es).
    + now rewrite nth_error_updateNth, Hq.
  - apply IH. now rewrite nth_error_updateNth_other.
Qed.

Lemma reports_filter i (obs : Entry -> bool) (es : list Entry) :
  (forall e, fst e = i -> obs e = true) ->
  existsb (reports i) (filter obs es) = existsb (reports i) es.
Proof.
  intros H. induction es as [|e es IH]; [reflexivity|]. cbn [filter existsb].
  destruct (obs e) eqn:E; cbn [existsb]; [now rewrite IH|].
  rewrite IH. unfold reports at 2.
  destruct (Nat.eqb_spec (fst e) i) as [Ei|_]; [|reflexivity].
  rewrite (H e Ei) in E. discriminate.
Qed.

Lemma reports_filter_none i (obs : Entry -> bool) (es : list Entry) :
  (forall e, fst e = i -> obs e = false) ->
  existsb (reports i) (filter obs es) = false.
Proof.
  intros H. induction es as [|e es IH]; [reflexivity|]. cbn [filter].
  destruct (obs e) eqn:E; [|exact IH]. cbn [existsb]. rewrite IH.
  unfold reports. destruct (Nat.eqb_spec (fst e) i) as [Ei|_]; [|reflexivity].
  rewrite (H e Ei) in E. discriminate.
Qed.

Lemma oneShotNotify_at i (es : list Entry) (q : list (Observed T)) o :
  nth_error q i = Some o ->
  nth_error (oneShotNotify onVisible es q) i
  = Some (if snd o && existsb (reports i) es then (onVisible (fst o), false)
          else o).
Proof.
  intros Hq. unfold oneShotNotify.
  rewrite (oneShotCallback_at i _ q o Hq).
  destruct (snd o) eqn:Eo; cbn [andb].
  - rewrite reports_filter; [reflexivity|].
    intros e <-. now rewrite Hq.
  - rewrite reports_filter_none; [reflexivity|].
    intros e <-. now rewrite Hq.
Qed.

(** A target changes once, when it is first reported as intersecting, and
    is not observed from then on. *)
Lemma oneShotRun_at i x : forall (bs : list (list Entry)) (q : list (Observed T)),
  nth_error q i = Some (x, true) ->
  nth_error (oneShotRun onVisible bs q) i
  = Some (if seen i bs then (onVisible x, false) else (x, true)).
Proof.
  assert (Done : forall (bs : list (list Entry)) (q : list (Observed T)) y,
             nth_error q i = Some (y, false) ->
             nth_error (oneShotRun onVisible bs q) i = Some (y, false)).
  { induction bs as [|b bs IH]; intros q y Hq; [exact Hq|].
    cbn [oneShotRun fold_left]. apply IH.
    now rewrite (oneShotNotify_at i b q _ Hq). }
  induction bs as [|b bs IH]; intros q Hq; [exact Hq|].
  cbn [oneShotRun fold_left seen existsb].
  pose proof (oneShotNotify_at i b q _ Hq) as E. cbn [fst snd andb] in E.
  destruct (existsb (reports i) b); cbn [orb].
  - now apply Done.
  - now apply IH.
Qed.
End OneShotFacts.

Lemma fadeIn_twice cl : fadeIn (fadeIn cl) = fadeIn cl.
Proof.
  unfold fadeIn. unfold add at 1. now rewrite contains_add_same.
Qed.

Lemma remove_twice c l : remove c (remove c l) = remove c l.
Proof. apply remove_absent, contains_remove_same. Qed.

Lemma loadImage_twice img : loadImage (loadImage img) = loadImage img.
Proof.
  unfold loadImage. cbn [dataSrc imgClassList]. now rewrite remove_twice.
Qed.

Lemma nth_error_observeAll (T : Type) (l : list T) i x :
  nth_error l i = Some x -> nth_error (observeAll l) i = Some (x, true).
Proof. intros H. unfold observeAll. now rewrite nth_error_map, H. Qed.

(** X4: a content card gets the class "animate-fade-in-up" exactly when
    the observer has reported it as intersecting at least once; from then
    on it is not observed, and nothing else of its class list changes:
    the animation class is added once and never removed. *)
Theorem fade_in_once (cards : list (list string)) (batches : list (list Entry))
    (i : nat) (cl : list string) :
  nth_error cards i = Some cl ->
  nth_error (oneShotRun fadeIn batches (observeAll cards)) i
  = Some (if seen i batches then (add "animate-fade-in-up" cl, false)
          else (cl, true)).
Proof.
  intros H. apply (oneShotRun_at _ fadeIn fadeIn_twice).
  now apply nth_error_observeAll.
Qed.

Lemma fade_in_once_witness :
  nth_error (oneShotRun fadeIn [[(0, false); (1, true)]; [(1, true); (0, false)]]
               (observeAll [["service-card"%string]; ["team-member"%string]])) 1
  = Some (["team-member"; "animate-fade-in-up"]%string, false).
Proof.
  exact (fade_in_once [["service-card"%string]; ["team-member"%string]]
           [[(0, false); (1, true)]; [(1, true); (0, false)]] 1
           ["team-member"%string] eq_refl).
Defined.

(** X5: an image with a deferred source is loaded exactly when the
    observer has reported it as intersecting at least once: its source is
    then the deferred source and the class "lazy" is off, and it is not
    observed any more; until then the image is untouched. *)
Theorem lazy_image_once (images : list Img) (batches : list (list Entry))
    (i : nat) (img : Img) :
  nth_error images i = Some img ->
  nth_error (oneShotRun loadImage batches (observeAll images)) i
  = Some (if seen i batches
          then (mkImg (dataSrc img) (dataSrc img)
                      (remove "lazy" (imgClassList img)), false)
          else (img, true)).
Proof.
  intros H. apply (oneShotRun_at _ loadImage loadImage_twice).
  now apply nth_error_observeAll.
Qed.

Lemma lazy_image_once_witness :
  nth_error (oneShotRun loadImage [[(0, true)]]
               (observeAll [mkImg "placeholder.gif" "photo.jpg" ["lazy"%string]])) 0
  = Some (mkImg "photo.jpg" "photo.jpg" [], false).
Proof.
  exact (lazy_image_once [mkImg "placeholder.gif" "photo.jpg" ["lazy"%string]]
           [[(0, true)]] 0 _ eq_refl).
Defined.
(** ** [throttle] *)

Section ThrottleFacts.
Variable A : Type.
Variable limit : Z.
Hypothesis limit_pos : (0 < limit)%Z.

Lemma StronglySorted_snoc (B : Type) (R : B -> B -> Prop) (l : list B) x :
  StronglySorted R l -> Forall (fun y => R y x) l -> StronglySorted R (l ++ [x]).
Proof.
  induction 1 as [|y l S IH F]; intros H; cbn [app].
  - constructor; constructor.
  - inversion H as [|? ? Hy Hl]; subst. constructor; [now apply IH|].
    apply Forall_app. split; [exact F|]. now constructor.
Qed.

Lemma StronglySorted_snoc_inv (B : Type) (R : B -> B -> Prop) (l : list B) x :
  StronglySorted R (l ++ [x]) -> Forall (fun y => R y x) l.
Proof.
  induction l as [|y l IH]; cbn [app]; intros S; [constructor|].
  inversion S as [|? ? S1 F1]; subst. constructor; [|now apply IH].
  apply Forall_app in F1 as [_ F1]. now inversion F1.
Qed.

Lemma Throttling_start now : Throttling limit (throttleStart A now).
Proof.
  unfold Throttling, throttleStart. cbn [state clock queue passed inThrottle].
  split; [constructor|]. split; [constructor|].
  split; [intros _; split; constructor|discriminate].
Qed.

Lemma Throttling_step (l : ThrottleLoop A) (ev : CallEvent A) :
  Throttling limit l -> forward ev -> Throttling limit (throttleStep limit l ev).
Proof.
  intros T F. pose proof T as (S & B & Off & On).
  destruct ev as [a|d]; cbn [throttleStep forward] in *.
  - unfold throttledCall. destruct (inThrottle (state l)) eqn:E; cbn [negb].
    + exact T.
    + destruct (Off eq_refl) as [Q W]. unfold setTimeout, Throttling.
      cbn [state clock queue passed inThrottle]. rewrite Q. cbn [insertTimer].
      split.
      { apply StronglySorted_snoc; [exact S|exact W]. }
      split.
      { apply Forall_app. split; [exact B|]. constructor; [cbn; lia|constructor]. }
      split; [discriminate|]. intros _.
      exists (passed (state l)), (clock l), a. repeat split. lia.
  - destruct (inThrottle (state l)) eqn:E.
    + destruct (On eq_refl) as (log & tl & a & EL & Q & C).
      unfold elapse. rewrite Q. cbn [fire].
      destruct (Z.leb_spec (tl + limit) (clock l + d)) as [L|L].
      * cbn [fire]. unfold Throttling, runThrottleTask.
        cbn [state clock queue passed inThrottle].
        split; [exact S|]. split.
        { eapply Forall_impl; [|exact B]. cbn. intros; lia. }
        split; [|discriminate]. intros _. split; [reflexivity|].
        rewrite EL in *. apply Forall_app. split.
        { pose proof (StronglySorted_snoc_inv _ _ _ _ S) as K.
          apply Forall_app in B as [_ B]. inversion B; subst. cbn in *.
          eapply Forall_impl; [|exact K]. cbn. intros; lia. }
        constructor; [cbn; lia|constructor].
      * unfold Throttling. cbn [state clock queue]. rewrite E.
        split; [exact S|]. split.
        { eapply Forall_impl; [|exact B]. cbn. intros; lia. }
        split; [discriminate|]. intros _.
        exists log, tl, a. now repeat split.
    + destruct (Off eq_refl) as [Q W]. unfold elapse. rewrite Q. cbn [fire].
      unfold Throttling. cbn [state clock queue]. rewrite E.
      split; [exact S|]. split.
      { eapply Forall_impl; [|exact B]. cbn. intros; lia. }
      split; [|discriminate]. intros _. split; [reflexivity|].
      eapply Forall_impl; [|exact W]. cbn. intros; lia.
Qed.

Lemma Throttling_run : forall evs (l : ThrottleLoop A),
  Throttling limit l -> Forall (@forward A) evs -> Throttling limit (throttleRun limit evs l).
Proof.
  induction evs as [|ev evs IH]; intros l T F; [exact T|].
  inversion F; subst. cbn [throttleRun fold_left]. apply IH; [|assumption].
  now apply Throttling_step.
Qed.

Lemma Throttling_window (l : ThrottleLoop A) :
  Throttling limit l -> inThrottle (state l) = negb (windowOver limit l).
Proof.
  intros (S & B & Off & On). unfold windowOver.
  destruct (inThrottle (state l)) eqn:E.
  - destruct (On eq_refl) as (log & tl & a & EL & _ & C).
    rewrite EL, forallb_app. cbn [forallb fst].
    destruct (Z.leb_spec (tl + limit) (clock l)); [lia|].
    now rewrite andb_false_r.
  - destruct (Off eq_refl) as [_ W]. symmetry. apply negb_false_iff.
    apply forallb_forall. intros e He. rewrite Forall_forall in W.
    apply Z.leb_le. now apply W.
Qed.
End ThrottleFacts.

(** X6: a throttled function, used from its creation on: the calls of
    [func] are at least [limit] ms apart; a call passes to [func] at once,
    with its own arguments, when no call of [func] is less than [limit]
    ms old (the first call always), and otherwise it is dropped without
    any effect, neither delayed nor queued. *)
Theorem throttle_window (A : Type) (limit now : Z) (evs : list (CallEvent A))
    (a : A) :
  (0 < limit)%Z ->
  Forall (@forward A) evs ->
  let l := throttleRun limit evs (throttleStart A now) in
  StronglySorted (fun x y : Z * A => (fst x + limit <= fst y)%Z) (passed (state l))
  /\ (windowOver limit l = true ->
      passed (state (throttledCall limit a l)) = passed (state l) ++ [(clock l, a)])
  /\ (windowOver limit l = false -> throttledCall limit a l = l).
Proof.
  intros Hl F. cbv zeta.
  pose proof (Throttling_run A limit Hl evs _ (Throttling_start A limit now) F) as T.
  pose proof (Throttling_window A limit _ T) as W.
  split; [now destruct T|]. unfold throttledCall. rewrite W. split; intros ->.
  - reflexivity.
  - reflexivity.
Qed.

Lemma throttle_window_witness :
  passed (state (throttleRun 100 [Call "a"; Idle 40; Call "b"; Idle 60; Call "c"]%string
                   (throttleStart string 0)))
  = [(0%Z, "a"%string); (100%Z, "c"%string)].
Proof.
  destruct (throttle_window string 100 0 [Call "a"; Idle 40; Call "b"; Idle 60]%string
              "c"%string) as (_ & H & _).
  - lia.
  - repeat (constructor; try (cbn; lia)).
  - exact (H eq_refl).
Defined.

(** ** [debounce] *)

Section DebounceFacts.
Variable A : Type.
Variable wait : Z.

Lemma call_arms (s : Debounced A) a :
  Settled s ->
  let s' := executedFunction wait a s in
  Armed s' a (dclock s + wait) /\ invoked s' = invoked s /\ dclock s' = dclock s.
Proof.
  intros H. cbv zeta. unfold executedFunction, Armed.
  cbn [pendingTimers timeoutVar invoked dclock].
  assert (E : clearTimeout (timeoutVar s) (pendingTimers s) = []).
  { destruct H as [->|(b & due & id & -> & ->)].
    - unfold clearTimeout. now destruct (timeoutVar s).
    - cbn [clearTimeout filter fst]. now rewrite Nat.eqb_refl. }
  rewrite E. split; [|now split]. now exists (nextTimer s).
Qed.

Lemma idle_empty (s : Debounced A) d :
  pendingTimers s = [] ->
  elapseDebounced d s
  = mkDebounced (timeoutVar s) [] (nextTimer s) (invoked s) (dclock s + d).
Proof. intros E. unfold elapseDebounced. rewrite E. cbn. now rewrite E. Qed.

Lemma idle_short (s : Debounced A) a due d :
  Armed s a due -> (dclock s + d < due)%Z ->
  elapseDebounced d s
  = mkDebounced (timeoutVar s) (pendingTimers s) (nextTimer s) (invoked s)
                (dclock s + d).
Proof.
  intros (id & E & _) H. unfold elapseDebounced. rewrite E.
  cbn [List.length fireDebounced]. rewrite E. cbn [find fst snd].
  destruct (Z.leb_spec due (dclock s + d)); [lia|]. now rewrite E.
Qed.

Lemma idle_long (s : Debounced A) a due d :
  Armed s a due -> (due <= dclock s + d)%Z ->
  elapseDebounced d s
  = mkDebounced (timeoutVar s) [] (nextTimer s) (invoked s ++ [(due, a)])
                (dclock s + d).
Proof.
  intros (id & E & V) H. unfold elapseDebounced. rewrite E.
  cbn [List.length fireDebounced]. rewrite E. cbn [find fst snd].
  destruct (Z.leb_spec due (dclock s + d)); [|lia].
  cbn [filter fst]. rewrite Nat.eqb_refl. cbn [negb].
  unfold later. cbn [timeoutVar pendingTimers nextTimer invoked dclock].
  rewrite V. reflexivity.
Qed.

Lemma Armed_Settled (s : Debounced A) a due : Armed s a due -> Settled s.
Proof. intros H. right. now exists a, due. Qed.

Lemma Settled_step (s : Debounced A) ev :
  Settled s -> Settled (debounceStep wait s ev).
Proof.
  intros H. destruct ev as [a|d]; cbn [debounceStep].
  - destruct (call_arms s a H) as [K _]. exact (Armed_Settled _ _ _ K).
  - destruct H as [E|(a & due & K)].
    + rewrite (idle_empty s d E). now left.
    + destruct (Z.lt_ge_cases (dclock s + d) due) as [L|L].
      * rewrite (idle_short s a due d K L). right. exists a, due.
        destruct K as (id & E & V). now exists id.
      * rewrite (idle_long s a due d K L). now left.
Qed.

Lemma Settled_run : forall evs (s : Debounced A),
  Settled s -> Settled (debounceRun wait evs s).
Proof.
  induction evs as [|ev evs IH]; intros s H; [exact H|].
  cbn [debounceRun fold_left]. apply IH. now apply Settled_step.
Qed.

Lemma burst_run : forall (rest : list (Z * A)) (s : Debounced A) a,
  Armed s a (dclock s + wait) ->
  Forall (fun p => (0 <= fst p < wait)%Z) rest ->
  let s' := debounceRun wait (burst rest) s in
  Armed s' (last (map snd rest) a) (dclock s + pauses rest + wait)
  /\ invoked s' = invoked s
  /\ dclock s' = (dclock s + pauses rest)%Z.
Proof.
  induction rest as [|[d b] rest IH]; intros s a K F; cbv zeta.
  - cbn [burst debounceRun fold_left map last pauses].
    rewrite Z.add_0_r. now repeat split.
  - inversion F as [|? ? Hd Fr]; subst. cbn [fst] in Hd.
    cbn [burst debounceRun fold_left debounceStep pauses map].
    rewrite (idle_short s a _ d K) by lia.
    set (s1 := mkDebounced (timeoutVar s) (pendingTimers s) (nextTimer s)
                 (invoked s) (dclock s + d)).
    assert (K1 : Settled s1).
    { destruct K as (id & E & V). right. exists a, (dclock s + wait)%Z. now exists id. }
    destruct (call_arms s1 b K1) as (K2 & I2 & C2). cbv zeta in K2, I2, C2.
    rewrite <- C2 in K2.
    destruct (IH _ b K2 Fr) as (K3 & I3 & C3). cbv zeta in K3, I3, C3.
    change (fold_left (debounceStep wait) (burst rest) (executedFunction wait b s1))
      with (debounceRun wait (burst rest) (executedFunction wait b s1)).
    rewrite last_cons.
    split; [|split].
    + rewrite C2 in K3. cbn [dclock s1] in K3.
      now replace (dclock s + (d + pauses rest) + wait)%Z
        with (dclock s + d + pauses rest + wait)%Z by lia.
    + now rewrite I3, I2.
    + rewrite C3, C2. cbn [dclock s1]. lia.
Qed.
End DebounceFacts.

(** X7: a debounced function, used from its creation on: a burst of
    calls, each less than [wait] ms after the one before, followed by
    [wait] ms or more without a call, runs [func] exactly once, [wait] ms
    after the last call of the burst and with the arguments of that call;
    [func] is not run while the burst lasts, and no timer stays
    pending. *)
Theorem debounce_burst (A : Type) (wait now : Z) (pre : list (CallEvent A))
    (a0 : A) (rest : list (Z * A)) (D : Z) :
  (0 <= wait)%Z ->
  Forall (@forward A) pre ->
  Forall (fun p => (0 <= fst p < wait)%Z) rest ->
  (wait <= D)%Z ->
  let s := debounceRun wait pre (debounceStart A now) in
  let s1 := debounceRun wait (Call a0 :: burst rest) s in
  let s2 := debounceStep wait s1 (Idle D) in
  invoked s1 = invoked s
  /\ invoked s2
     = invoked s ++ [((dclock s + pauses rest + wait)%Z, last (map snd rest) a0)]
  /\ pendingTimers s2 = [].
Proof.
  intros _ _ F HD. cbv zeta.
  set (s := debounceRun wait pre (debounceStart A now)).
  assert (K : Settled s).
  { apply Settled_run. now left. }
  cbn [debounceRun fold_left debounceStep].
  destruct (call_arms A wait s a0 K) as (K1 & I1 & C1). cbv zeta in K1, I1, C1.
  rewrite <- C1 in K1.
  destruct (burst_run A wait rest _ a0 K1 F) as (K2 & I2 & C2).
  cbv zeta in K2, I2, C2.
  change (fold_left (debounceStep wait) (burst rest) (executedFunction wait a0 s))
    with (debounceRun wait (burst rest) (executedFunction wait a0 s)).
  rewrite C1 in K2, C2.
  split; [now rewrite I2, I1|].
  rewrite (idle_long A _ _ _ D K2) by lia.
  cbn [invoked pendingTimers]. split; [now rewrite I2, I1|reflexivity].
Qed.

Lemma debounce_burst_witness :
  invoked (debounceRun 300
             [Call "s"; Idle 100; Call "se"; Idle 299; Call "sea"; Idle 300]%string
             (debounceStart string 0))
  = [(699%Z, "sea"%string)].
Proof.
  destruct (debounce_burst string 300 0 [] "s"%string
              [(100%Z, "se"%string); (299%Z, "sea"%string)] 300) as (_ & H & _).
  - lia.
  - constructor.
  - repeat (constructor; try (cbn; lia)).
  - lia.
  - exact H.
Defined.
(** ** More on forms *)

(** X8: showing the success banner and hiding it again leaves the form
    exactly as it was, whatever it holds, other banners included: the
    banner that [hideFormSuccess] finds first is the one that
    [showFormSuccess] has just put in front. *)
Theorem banner_shown_then_hidden (t : Node) (n : nat) :
  (showFormSuccess ;; hideFormSuccess)%dom (mkDoc t n) = (Ok tt, mkDoc t (S n)).
Proof.
  destruct t as [e ks]. unfold showFormSuccess, hideFormSuccess.
  erewrite bind_ok by reflexivity. erewrite bind_ok by reflexivity.
  reflexivity.
Qed.

(** A value of white space only is empty once trimmed. *)
Lemma dropWhile_all p s : forallb p s = true -> dropWhile p s = [].
Proof.
  induction s as [|c s IH]; [reflexivity|]. cbn [forallb dropWhile].
  intros H. apply andb_true_iff in H as [H1 H2]. now rewrite H1, IH.
Qed.

Lemma trim_blank v : forallb isWhiteSpace v = true -> trim v = [].
Proof. intros H. unfold trim. now rewrite (dropWhile_all _ _ H). Qed.

(** X9: a value that consists of white space only counts as empty: a
    required field is reported with "This field is required" and an
    optional field passes, whatever the declared type of the field. *)
Theorem blank_value_is_empty (t : Node) (n field : nat) (parent : path)
    (f : Elem) :
  FieldIn t field parent f ->
  forallb isWhiteSpace (value f) = true ->
  let out := validateField field (mkDoc t n) in
  fst out = Ok (negb (required f))
  /\ (required f = true -> Reports out field parent "This field is required").
Proof.
  intros HF Hb out. pose proof (trim_blank _ Hb) as E. split.
  - unfold out. rewrite (validateField_run t n field parent f HF).
    cbn [fst]. unfold isValid. destruct (required f) eqn:R.
    + now rewrite (firstFailure_required f R E).
    + now rewrite (firstFailure_optional_empty f R E).
  - intros R. apply (validateField_reports t n field parent f); [exact HF|].
    now apply firstFailure_required.
Qed.

Lemma blank_value_is_empty_witness :
  fst (validateField 2 (mkDoc (emailForm true "  ") 10)) = Ok false
  /\ fst (validateField 2 (mkDoc (telForm false " ") 10)) = Ok true.
Proof.
  split.
  - exact (proj1 (blank_value_is_empty (emailForm true "  ") 10 2 [0] _
                    (emailForm_field true "  ") eq_refl)).
  - exact (proj1 (blank_value_is_empty (telForm false " ") 10 2 [0] _
                    (telForm_field false " ") eq_refl)).
Defined.

(** ** A validation pass marks every field *)

Lemma withClassList_compose g1 g2 e :
  withClassList g2 (withClassList g1 e) = withClassList (fun l => g2 (g1 l)) e.
Proof. reflexivity. Qed.

(** The fields after one call of [validateField]: the validated field is
    marked, every other field is as before. *)
Lemma validated_fields t n f parent :
  WellFormed t n -> FieldIn t (nid f) parent f ->
  fields (tree (validated (nid f) parent f (mkDoc t n)))
  = map (fun e => if hasId (nid f) e then marked f else e) (fields t).
Proof.
  intros (N & Lt & Rf & Re & Rb & C) HF.
  destruct (FieldIn_parent _ _ _ _ HF) as [pn Hp].
  destruct (cleared_elems t (nid f) parent pn Hp) as (l1 & gone & l2 & G1 & G2 & G3).
  destruct (cleared_parent t (nid f) parent pn Hp) as (pc & Hc & _).
  assert (Gi : forallb inert gone = true).
  { destruct G3 as [->|(q & s & Hs & Es & ->)]; [reflexivity|].
    apply cleanb_root_inert; [|exact Es].
    apply (cleanb_subtree q (mapElems (hRemove (nid f)) t)); [|exact Hs].
    rewrite cleanb_mapElems; [exact C| |].
    - intros e. apply isErrorMessage_hRemove.
    - intros e. apply inert_hRemove. }
  assert (Fc : fields (cleared (nid f) parent t)
               = map (hRemove (nid f)) (fields t)).
  { unfold fields. rewrite G2, filter_app.
    rewrite <- (filter_map_ext selFields (hRemove (nid f)))
      by (intros e; apply selFields_onClass).
    now rewrite G1, !filter_app, (filter_inert_fields gone Gi). }
  assert (Same : forall e, In e (fields t) -> hasId (nid f) e = true -> e = f).
  { intros e He Hh. apply hasId_spec in Hh. unfold fields in He.
    apply filter_In in He as [He _].
    destruct HF as (_ & _ & _ & pn' & i & fn & Hp' & Hi & Hf).
    apply (same_id_same_elem (elems t)); [exact N|exact He| |exact Hh].
    rewrite <- Hf. apply (subtree_In (parent ++ [i])).
    rewrite subtree_app, Hp'. cbn [subtree]. now rewrite Hi. }
  unfold validated, marked, isValid. cbn [tree nextId].
  destruct (firstFailure f) as [m|] eqn:FF; cbn [tree].
  - destruct (decorated_elems _ (nid f) parent n m pc Hc) as (k1 & k2 & D1 & D2).
    unfold fields at 1. rewrite D2, filter_app. cbn [filter].
    change (selFields (errorDiv (newDiv n) m)) with false. cbv iota.
    rewrite <- filter_app, <- D1.
    rewrite filter_map_ext by (intros e; apply selFields_onClass).
    fold (fields (cleared (nid f) parent t)). rewrite Fc, map_map.
    apply map_ext_in. intros e He. unfold hAdd, hRemove, onElem.
    destruct (hasId (nid f) e) eqn:Hh.
    + rewrite (Same e He Hh) in *. cbn [hasId withClassList nid]. unfold hasId in Hh.
      unfold hasId. cbn [nid]. now rewrite Nat.eqb_refl.
    + now rewrite Hh.
  - rewrite Fc. apply map_ext_in. intros e He. unfold hRemove, onElem.
    destruct (hasId (nid f) e) eqn:Hh; [|reflexivity].
    now rewrite (Same e He Hh).
Qed.

Lemma nid_marked e : nid (marked e) = nid e.
Proof. reflexivity. Qed.

Lemma forEach_marks : forall fs t n acc,
  WellFormed t n ->
  (forall f, In f fs -> In f (fields t)) ->
  NoDup (map nid fs) ->
  exists t' n',
    forEach (map nid fs) validateBody acc (mkDoc t n)
    = (Ok (acc && forallb isValid fs), mkDoc t' n')
    /\ fields t' = map (markAll fs) (fields t).
Proof.
  induction fs as [|f fs IH]; intros t n acc W Hin Nd.
  - exists t, n. cbn [map forEach forallb]. rewrite andb_true_r.
    split; [reflexivity|]. unfold markAll. cbn [existsb]. now rewrite map_id.
  - assert (Hf : In f (fields t)) by (apply Hin; now left).
    unfold fields in Hf. apply filter_In in Hf as [Hf1 Hf2].
    destruct (WellFormed_field t n f W Hf1 Hf2) as [parent HF].
    pose proof (validated_WellFormed t n (nid f) parent f W HF) as V.
    pose proof (validated_fields t n f parent W HF) as VF.
    cbv zeta in V.
    destruct (validated (nid f) parent f (mkDoc t n)) as [t1 n1] eqn:Ev.
    cbn [tree nextId] in V, VF. destruct V as (W1 & _).
    inversion Nd as [|? ? Nf Nfs]; subst.
    destruct (IH t1 n1 (if negb (isValid f) then false else acc) W1)
      as (t' & n' & R & F'); [|exact Nfs|].
    { intros g Hg. rewrite VF. apply in_map_iff. exists g.
      split; [|apply Hin; now right].
      destruct (hasId (nid f) g) eqn:Hh; [|reflexivity].
      apply hasId_spec in Hh. exfalso. apply Nf. rewrite <- Hh. now apply in_map. }
    exists t', n'. split.
    + cbn [map forEach]. unfold validateBody at 1.
      erewrite bind_ok.
      2:{ erewrite bind_ok by (apply (validateField_run t n (nid f) parent f HF)).
          reflexivity. }
      rewrite Ev, R. f_equal. f_equal. cbn [forallb].
      destruct (isValid f), acc; reflexivity.
    + rewrite F', VF, map_map. apply map_ext_in. intros e He.
      unfold markAll. cbn [existsb].
      destruct (hasId (nid f) e) eqn:Hh.
      * assert (e = f) as ->.
        { apply hasId_spec in Hh. unfold fields in He.
          apply filter_In in He as [He _].
          destruct W as (N & _).
          apply (same_id_same_elem (elems t)); [exact N|exact He|exact Hf1|exact Hh]. }
        rewrite nid_marked, Nat.eqb_refl. cbn [orb].
        destruct (existsb (fun f0 => nid f0 =? nid f) fs) eqn:Ex; [|reflexivity].
        exfalso. apply Nf. apply existsb_exists in Ex as (g & Hg & Eg).
        apply Nat.eqb_eq in Eg. rewrite <- Eg. now apply in_map.
      * unfold hasId in Hh. rewrite Nat.eqb_sym in Hh. now rewrite Hh.
Qed.

Lemma fields_NoDup t n : WellFormed t n -> NoDup (map nid (fields t)).
Proof.
  intros (N & _). unfold ids, fields in *. revert N.
  induction (elems t) as [|e l IH]; cbn [map filter]; intros N; [constructor|].
  inversion N as [|? ? He Nl]; subst.
  destruct (selFields e); [|now apply IH]. cbn [map]. constructor; [|now apply IH].
  intros Hin. apply He. apply in_map_iff in Hin as (g & Eg & Hg).
  apply filter_In in Hg as [Hg _]. rewrite <- Eg. now apply in_map.
Qed.

(** X10: [validateForm] validates every field, also after one has
    failed: it returns true exactly when every field is valid, and after
    it every field carries the class "error" exactly when it is invalid,
    marks of an earlier pass included; the fields are otherwise the same
    fields in the same order. *)
Theorem validateForm_marks_every_field (t : Node) (n : nat) :
  WellFormed t n ->
  let out := validateForm (mkDoc t n) in
  fst out = Ok (forallb isValid (fields t))
  /\ map (fun e => (core e, contains "error" (classList e)))
         (fields (tree (snd out)))
     = map (fun e => (core e, negb (isValid e))) (fields t).
Proof.
  intros W. cbv zeta. pose proof W as (_ & _ & Rf & _).
  destruct (forEach_marks (fields t) t n true W) as (t' & n' & R & F).
  { trivial. }
  { exact (fields_NoDup t n W). }
  assert (E : validateForm (mkDoc t n)
              = (Ok (forallb isValid (fields t)), mkDoc t' n')).
  { unfold validateForm. erewrite bind_ok.
    2:{ unfold querySelectorAll, form. cbn [subtree tree].
        rewrite (fields_descendants t Rf). reflexivity. }
    exact R. }
  rewrite E. cbn [fst snd tree]. split; [reflexivity|].
  rewrite F, map_map. apply map_ext_in. intros e He.
  unfold markAll.
  assert (Ex : existsb (fun f => nid f =? nid e) (fields t) = true).
  { apply existsb_exists. exists e. split; [exact He|apply Nat.eqb_refl]. }
  rewrite Ex. unfold marked. f_equal.
  cbn [classList withClassList]. destruct (isValid e); cbn [negb].
  - apply contains_remove_same.
  - apply contains_add_same.
Qed.

Lemma validateForm_marks_every_field_witness :
  fst (validateForm (mkDoc sharedGroupForm 10)) = Ok false
  /\ map (fun e => (nid e, contains "error" (classList e)))
         (fields (tree (snd (validateForm (mkDoc sharedGroupForm 10)))))
     = [(2, true); (3, true)].
Proof.
  destruct (validateForm_marks_every_field sharedGroupForm 10) as [H1 H2].
  - apply wellFormedb_WellFormed. reflexivity.
  - split; [exact H1|].
    apply (f_equal (map (fun c : (nat * string * string * bool * jsstring * jsstring) * bool =>
                           (fst (fst (fst (fst (fst (fst c))))), snd c)))) in H2.
    rewrite !map_map in H2. exact H2.
Defined.

(** ** Focus and blur *)

Lemma updateNth_updateNth (B : Type) (g1 g2 : B -> B) i : forall l : list B,
  updateNth i g2 (updateNth i g1 l) = updateNth i (fun x => g2 (g1 x)) l.
Proof.
  induction i as [|i IH]; intros [|x l]; cbn [updateNth]; try reflexivity.
  now rewrite IH.
Qed.

Lemma updateNth_same (B : Type) (g : B -> B) i : forall (l : list B) x,
  nth_error l i = Some x -> g x = x -> updateNth i g l = l.
Proof.
  induction i as [|i IH]; intros [|y l] x H E; cbn [updateNth nth_error] in *;
    try discriminate.
  - injection H as ->. now rewrite E.
  - now rewrite (IH l x H E).
Qed.

Lemma modifyAt_compose p g1 g2 : forall n,
  modifyAt p g2 (modifyAt p g1 n) = modifyAt p (fun x => g2 (g1 x)) n.
Proof.
  induction p as [|i p IH]; intros n; [reflexivity|].
  cbn [modifyAt elemOf kidsOf]. rewrite updateNth_updateNth.
  f_equal. apply updateNth_ext. exact IH.
Qed.

Lemma modifyAt_same p g : forall n s,
  subtree p n = Some s -> g s = s -> modifyAt p g n = n.
Proof.
  induction p as [|i p IH]; intros n s H E.
  - cbn in H. injection H as ->. exact E.
  - destruct n as [e ks]. cbn [subtree kidsOf] in H. cbn [modifyAt elemOf kidsOf].
    destruct (nth_error ks i) as [k|] eqn:Ei; [|discriminate].
    f_equal. apply (updateNth_same _ _ _ _ k Ei). now apply (IH k s).
Qed.

Lemma remove_add_absent c l : contains c l = false -> remove c (add c l) = l.
Proof.
  intros H. unfold add. rewrite H. unfold remove. rewrite filter_app.
  cbn [filter]. rewrite String.eqb_refl. cbn [negb]. rewrite app_nil_r.
  now apply remove_absent.
Qed.

Lemma ids_onOwnClass p g : forall t s,
  subtree p t = Some s -> ids (modifyAt p (onOwnClass g) t) = ids t.
Proof.
  intros t s H. destruct (elems_at _ _ _ H) as (pre & post & E1 & E2 & _).
  unfold ids. rewrite E2, E1. destruct s as [e ks]. unfold onOwnClass.
  cbn [elemOf kidsOf]. rewrite !elems_El, !map_app. reflexivity.
Qed.

(** A change of the parent's own class list leaves the field where it
    is. *)
Lemma FieldIn_onOwnClass t field parent f g :
  FieldIn t field parent f ->
  FieldIn (modifyAt parent (onOwnClass g) t) field parent f.
Proof.
  intros (N & Hid & Hne & pn & i & fn & Hp & Hi & Hf).
  split; [now rewrite (ids_onOwnClass parent g t pn Hp)|].
  split; [exact Hid|]. split; [exact Hne|].
  exists (onOwnClass g pn), i, fn.
  split; [now apply subtree_modifyAt|]. now split.
Qed.

Lemma parentElement_field t n field parent f :
  FieldIn t field parent f ->
  parentElement field (mkDoc t n) = (Ok parent, mkDoc t n).
Proof.
  intros (N & Hid & _ & pn & i & fn & Hp & Hi & Hf).
  apply (parentElement_run t n field parent i fn); [exact N| |congruence].
  rewrite subtree_app, Hp. cbn [subtree]. now rewrite Hi.
Qed.

(** X11: focus and blur are cosmetic.  Focus adds the class "focused" to
    the parent of the field and changes nothing else; the verdict of
    [validateField] on the field is the same with and without it; and
    blur after focus gives back the document as it was, when the parent
    did not carry "focused" before. *)
Theorem focus_blur_cosmetic (t : Node) (n field : nat) (parent : path)
    (f : Elem) (pn : Node) :
  FieldIn t field parent f ->
  subtree parent t = Some pn ->
  let focused := modifyAt parent (onOwnClass (add "focused")) t in
  onFocus field (mkDoc t n) = (Ok tt, mkDoc focused n)
  /\ subtree parent focused
     = Some (El (withClassList (add "focused") (elemOf pn)) (kidsOf pn))
  /\ fst (validateField field (mkDoc focused n))
     = fst (validateField field (mkDoc t n))
  /\ (contains "focused" (classList (elemOf pn)) = false ->
      (onFocus field ;; onBlur field)%dom (mkDoc t n) = (Ok tt, mkDoc t n)).
Proof.
  intros HF Hp focused.
  pose proof (FieldIn_onOwnClass t field parent f (add "focused") HF) as HF1.
  fold focused in HF1.
  assert (E1 : onFocus field (mkDoc t n) = (Ok tt, mkDoc focused n)).
  { unfold onFocus. erewrite bind_ok by (exact (parentElement_field t n _ _ _ HF)).
    reflexivity. }
  split; [exact E1|]. split; [exact (subtree_modifyAt _ _ _ _ Hp)|]. split.
  - now rewrite (validateField_run _ n field parent f HF1),
      (validateField_run t n field parent f HF).
  - intros Hc. rewrite (bind_ok _ _ _ _ _ _ _ E1). unfold onBlur.
    erewrite bind_ok by (exact (parentElement_field focused n _ _ _ HF1)).
    unfold updTree. cbn [tree nextId]. unfold focused.
    rewrite modifyAt_compose.
    rewrite (modifyAt_same parent _ t pn Hp); [reflexivity|].
    destruct pn as [e ks]. unfold onOwnClass. cbn [elemOf kidsOf] in *.
    rewrite withClassList_compose. f_equal.
    apply withClassList_id. now apply remove_add_absent.
Qed.

Lemma focus_blur_cosmetic_witness :
  (onFocus 2 ;; onBlur 2)%dom (mkDoc (emailForm true "x") 10)
  = (Ok tt, mkDoc (emailForm true "x") 10).
Proof.
  apply (focus_blur_cosmetic (emailForm true "x") 10 2 [0] _
           (plain 1 "div" [input 2 "email" true "x"])
           (emailForm_field true "x") eq_refl).
  reflexivity.
Defined.
